(** * Answer scoring of model_evaluate_demo: extraction, normalization, accuracy

    A shallow embedding of [metrics/accuracy.py] (class [AccuracyMetric]) and
    of the reference-answer derivation of [datasets/gsm8k.py]
    ([GSM8KDataset._extract_final_answer]), together with the part of the
    Python runtime these two files rely on: [str] methods, the [re] module on
    the patterns that occur in the source, and [float] with its parsing,
    rounding and printing.

    Conventions.
    - A Python [str] is a list of Unicode code points ([char := N]).
    - Code that can raise returns [result]; [Raise e] is an exception that
      leaves the function.
    - [str.lower] depends on the whole Unicode case table and is a parameter
      of the development (class [CaseMapping]); the whitespace and decimal
      digit classes are the tables of Unicode 14 (CPython 3.11). *)

From Stdlib Require Import String Ascii.
From Stdlib Require Import List Bool Arith ZArith NArith QArith Lia.
From Stdlib Require Decimal DecimalN DecimalFacts.
Import ListNotations.

Close Scope Q_scope.
Set Implicit Arguments.

(* ================================================================== *)
(** * Strings *)
(* ================================================================== *)

Definition char := N.
Definition str := list char.

Module Utf8.

(** Source literals are written as Rocq strings (UTF-8 bytes) and decoded
    to code points. *)
Fixpoint bytes (s : string) : list N :=
  match s with
  | EmptyString => []
  | String a r => N_of_ascii a :: bytes r
  end.

Definition cont (b : N) : N := (b - 128)%N.

Fixpoint decode (bs : list N) : str :=
  match bs with
  | [] => []
  | b :: r =>
      if (b <? 128)%N then b :: decode r
      else if (b <? 224)%N then
        match r with
        | b1 :: r1 => ((b - 192) * 64 + cont b1)%N :: decode r1
        | _ => []
        end
      else if (b <? 240)%N then
        match r with
        | b1 :: b2 :: r2 =>
            ((b - 224) * 4096 + cont b1 * 64 + cont b2)%N :: decode r2
        | _ => []
        end
      else
        match r with
        | b1 :: b2 :: b3 :: r3 =>
            ((b - 240) * 262144 + cont b1 * 4096 + cont b2 * 64 + cont b3)%N
              :: decode r3
        | _ => []
        end
  end.

End Utf8.

(** [u "..."] is the Python string with that literal text. *)
Definition u (s : string) : str := Utf8.decode (Utf8.bytes s).

(** [ch "x"] is the code point of a one-character literal. *)
Definition ch (s : string) : char := hd 0%N (u s).

Arguments u s%_string.
Arguments ch s%_string.

Definition LF : char := 10%N.

Definition chr_eqb (a b : char) : bool := N.eqb a b.

Fixpoint str_eqb (a b : str) : bool :=
  match a, b with
  | [], [] => true
  | x :: a', y :: b' => chr_eqb x y && str_eqb a' b'
  | _, _ => false
  end.

Definition in_chars (cs : str) (c : char) : bool := existsb (chr_eqb c) cs.

(** [Py_UNICODE_ISSPACE]: the characters removed by [str.strip()] and
    matched by [\s] in a [str] pattern. *)
Definition is_space (c : char) : bool :=
  ((9 <=? c) && (c <=? 13) || (28 <=? c) && (c <=? 32)
   || (c =? 133) || (c =? 160) || (c =? 5760)
   || (8192 <=? c) && (c <=? 8202)
   || (c =? 8232) || (c =? 8233) || (c =? 8239) || (c =? 8287)
   || (c =? 12288))%N.

(** Unicode decimal digits (category Nd): each entry is the code point of a
    digit zero and the length of the run of digits that starts there; the
    value of a digit is its offset in the run modulo ten. *)
Definition nd_runs : list (N * N) :=
  map (fun z => (z, 10%N))
    [48; 1632; 1776; 1984; 2406; 2534; 2662; 2790; 2918; 3046; 3174; 3302;
     3430; 3558; 3664; 3792; 3872; 4160; 4240; 6112; 6160; 6470; 6608; 6784;
     6800; 6992; 7088; 7232; 7248; 42528; 43216; 43264; 43472; 43504; 43600;
     44016; 65296; 66720; 68912; 69734; 69872; 69942; 70096; 70384; 70736;
     70864; 71248; 71360; 71472; 71904; 72016; 72784; 73040; 73120; 92768;
     92864; 93008; 123200; 123632; 125264; 130032]%N
  ++ [(120782, 50)]%N.

Fixpoint digit_in (runs : list (N * N)) (c : char) : option N :=
  match runs with
  | [] => None
  | (z, len) :: rest =>
      if ((z <=? c) && (c <? z + len))%N then Some ((c - z) mod 10)%N
      else digit_in rest c
  end.

(** [Py_UNICODE_TODECIMAL] *)
Definition digit_value (c : char) : option N := digit_in nd_runs c.

(** [\d] in a [str] pattern *)
Definition is_digit (c : char) : bool :=
  match digit_value c with Some _ => true | None => false end.

(* ------------------------------------------------------------------ *)
(** ** [str] methods *)

Fixpoint lstrip_by (p : char -> bool) (s : str) : str :=
  match s with
  | c :: s' => if p c then lstrip_by p s' else s
  | [] => []
  end.

Definition rstrip_by (p : char -> bool) (s : str) : str :=
  rev (lstrip_by p (rev s)).

(** [s.strip()] *)
Definition strip (s : str) : str := rstrip_by is_space (lstrip_by is_space s).

(** [s.rstrip(chars)] *)
Definition rstrip (chars : str) (s : str) : str := rstrip_by (in_chars chars) s.

Fixpoint prefixb (p s : str) : bool :=
  match p, s with
  | [], _ => true
  | x :: p', y :: s' => chr_eqb x y && prefixb p' s'
  | _ :: _, [] => false
  end.

(** [sub in s] *)
Fixpoint contains (sub s : str) : bool :=
  prefixb sub s ||
  match s with
  | [] => false
  | _ :: s' => contains sub s'
  end.

(** [s.split(sep)] for a non-empty separator: occurrences are taken from
    left to right and do not overlap.  [skip] counts the characters of the
    separator still to be passed over, [cur] is the current piece,
    reversed. *)
Fixpoint split_from (sep s : str) (skip : nat) (cur : str) : list str :=
  match s with
  | [] => [rev cur]
  | c :: s' =>
      match skip with
      | S k => split_from sep s' k cur
      | O =>
          if prefixb sep s
          then rev cur :: split_from sep s' (length sep - 1) []
          else split_from sep s' 0 (c :: cur)
      end
  end.

Definition str_split (sep s : str) : list str := split_from sep s 0 [].

(** [s.replace(old, new)] for a non-empty [old] *)
Fixpoint replace_from (old new s : str) (skip : nat) : str :=
  match s with
  | [] => []
  | c :: s' =>
      match skip with
      | S k => replace_from old new s' k
      | O =>
          if prefixb old s
          then new ++ replace_from old new s' (length old - 1)
          else c :: replace_from old new s' 0
      end
  end.

Definition replace (old new s : str) : str := replace_from old new s 0.

(** [l[-1]] on a list of strings that is never empty here *)
Definition last_item (l : list str) : str := last l [].

(* ================================================================== *)
(** * Results and exceptions *)
(* ================================================================== *)

Inductive exn :=
| ValueError        (* raised by [compute] on a length mismatch *)
| ReError           (* [re.error]: the pattern does not compile *)
| AttributeError.   (* a method called on [None] or on a non-string *)

Inductive result (A : Type) :=
| Ok (a : A)
| Raise (e : exn).

Arguments Ok {A} a.
Arguments Raise {A} e.

Definition bind {A B} (m : result A) (f : A -> result B) : result B :=
  match m with
  | Ok a => f a
  | Raise e => Raise e
  end.

Notation "x <- m ;; k" := (bind m (fun x => k))
  (at level 61, m at next level, right associativity).

(** A [for] loop that appends one computed element per item. *)
Fixpoint for_each {A B} (f : A -> result B) (l : list A) : result (list B) :=
  match l with
  | [] => Ok []
  | a :: l' => b <- f a ;; bs <- for_each f l' ;; Ok (b :: bs)
  end.

(* ================================================================== *)
(** * The [re] module *)
(* ================================================================== *)

Module Re.

(** The regular expressions of the two source files: every quantifier
    they use applies to a one-character class, and no pattern has more
    than one capturing group. *)
Inductive regex :=
| Eps
| Lit (p : char -> bool)                        (* one character of a class *)
| Seq (a b : regex)
| Alt (a b : regex)                             (* a|b, tried in this order *)
| Rep (greedy : bool) (lo : nat) (p : char -> bool)
    (* at least [lo] characters of the class: greedy * and +, lazy *? and +? *)
| Group (a : regex)                             (* ( ... ), group 1 *)
| Bol                                           (* ^ *)
| Eol.                                          (* $ without MULTILINE *)

(** [a?], greedy *)
Definition Opt (a : regex) : regex := Alt a Eps.

Section Matcher.
Context {A : Type}.

(** The backtracking matcher in continuation-passing style: [k] is what
    remains to be matched after the current node, and the first
    alternative for which [k] succeeds is kept. *)
Fixpoint rep_greedy (p : char -> bool) (lo : nat) (s : str)
    (k : str -> option A) : option A :=
  let stop := match lo with O => k s | S _ => None end in
  match s with
  | c :: s' =>
      if p c then
        match rep_greedy p (pred lo) s' k with
        | Some x => Some x
        | None => stop
        end
      else stop
  | [] => stop
  end.

Fixpoint rep_lazy (p : char -> bool) (lo : nat) (s : str)
    (k : str -> option A) : option A :=
  let more :=
    match s with
    | c :: s' => if p c then rep_lazy p (pred lo) s' k else None
    | [] => None
    end in
  match lo with
  | O => match k s with Some x => Some x | None => more end
  | S _ => more
  end.

(** [n] is the length of the whole text ([^] holds where all of it
    remains), [s] what remains of it, [g] the text of group 1 so far. *)
Fixpoint exec (n : nat) (r : regex) (s : str) (g : option str)
    (k : str -> option str -> option A) : option A :=
  match r with
  | Eps => k s g
  | Lit p =>
      match s with
      | c :: s' => if p c then k s' g else None
      | [] => None
      end
  | Seq a b => exec n a s g (fun s1 g1 => exec n b s1 g1 k)
  | Alt a b =>
      match exec n a s g k with
      | Some x => Some x
      | None => exec n b s g k
      end
  | Rep true lo p => rep_greedy p lo s (fun s1 => k s1 g)
  | Rep false lo p => rep_lazy p lo s (fun s1 => k s1 g)
  | Group a =>
      exec n a s g
        (fun s1 _ => k s1 (Some (firstn (length s - length s1) s)))
  | Bol => if Nat.eqb (length s) n then k s g else None
  | Eol =>
      match s with
      | [] => k s g
      | [c] => if chr_eqb c LF then k s g else None
      | _ => None
      end
  end.
End Matcher.

Fixpoint has_group (r : regex) : bool :=
  match r with
  | Group _ => true
  | Seq a b | Alt a b => has_group a || has_group b
  | _ => false
  end.

(** A match object: the matched text ([group(0)]) and [groups()]; a group
    that took no part in the match is [None]. *)
Record match_obj := { whole : str; groups : list (option str) }.

(** A match that starts at the head of [s] *)
Definition match_here (n : nat) (r : regex) (s : str) : option match_obj :=
  exec n r s None
    (fun s1 g =>
       Some {| whole := firstn (length s - length s1) s;
               groups := if has_group r then [g] else [] |}).

Fixpoint search_from (n : nat) (r : regex) (s : str) : option match_obj :=
  match match_here n r s with
  | Some m => Some m
  | None =>
      match s with
      | [] => None
      | _ :: s' => search_from n r s'
      end
  end.

(** [re.search(r, text)]: the leftmost match *)
Definition search (r : regex) (text : str) : option match_obj :=
  search_from (length text) r text.

(** [re.match(r, text)] *)
Definition match_ (r : regex) (text : str) : option match_obj :=
  match_here (length text) r text.

(** What [findall] lists for one match: group 1 when the pattern has a
    group, the whole match otherwise. *)
Definition item (m : match_obj) : str :=
  match groups m with
  | Some g :: _ => g
  | None :: _ => []
  | [] => whole m
  end.

(** Successive matches from left to right; [skip] counts the characters
    of the last match still to be passed over.  After an empty match the
    scan moves on by one character (no pattern of the source matches the
    empty string). *)
Fixpoint scan (n : nat) (r : regex) (s : str) (skip : nat)
    {struct s} : list match_obj :=
  match skip with
  | S k =>
      match s with
      | [] => []
      | _ :: s' => scan n r s' k
      end
  | O =>
      match match_here n r s with
      | Some m =>
          m :: match s with
               | [] => []
               | _ :: s' => scan n r s' (length (whole m) - 1)
               end
      | None =>
          match s with
          | [] => []
          | _ :: s' => scan n r s' 0
          end
      end
  end.

(** [re.findall(r, text)] *)
Definition findall (r : regex) (text : str) : list str :=
  map item (scan (length text) r text 0).

Fixpoint sub_from (n : nat) (r : regex) (repl s : str) (skip : nat)
    {struct s} : str :=
  match skip with
  | S k =>
      match s with
      | [] => []
      | _ :: s' => sub_from n r repl s' k
      end
  | O =>
      match match_here n r s with
      | Some m =>
          match whole m, s with
          | [], c :: s' => repl ++ c :: sub_from n r repl s' 0
          | _ :: w, _ :: s' => repl ++ sub_from n r repl s' (length w)
          | _, [] => repl
          end
      | None =>
          match s with
          | [] => []
          | c :: s' => c :: sub_from n r repl s' 0
          end
      end
  end.

(** [re.sub(r, repl, text)] with a replacement free of escapes *)
Definition sub (r : regex) (repl text : str) : str :=
  sub_from (length text) r repl text 0.

(** A pattern passed in by the caller is known by what [re.search] does
    with it: the pattern does not compile and [re.error] is raised, or it
    compiles and the search gives a match object or [None]. *)
Inductive pattern :=
| Uncompilable
| Compiled (find : str -> option match_obj).


(* -------------------------------------------------------------- *)
(** ** Building blocks *)

Definition is_char (c : char) : char -> bool := chr_eqb c.

(** A pattern character under [re.IGNORECASE]: the character itself, its
    ASCII capital when it is a small ASCII letter, and the letters the
    Unicode tables fold onto it (long s; dotted capital I and dotless i;
    the Kelvin sign). *)
Definition is_char_i (pc : char) (c : char) : bool :=
  chr_eqb c pc
  || ((97 <=? pc) && (pc <=? 122) && (c =? pc - 32))%N
  || ((pc =? 115) && (c =? 383))%N
  || ((pc =? 105) && ((c =? 304) || (c =? 305)))%N
  || ((pc =? 107) && (c =? 8490))%N.

(** [.] without DOTALL *)
Definition dot (c : char) : bool := negb (chr_eqb c LF).

Fixpoint lits_with (f : char -> char -> bool) (s : str) : regex :=
  match s with
  | [] => Eps
  | [c] => Lit (f c)
  | c :: s' => Seq (Lit (f c)) (lits_with f s')
  end.

(** A run of literal characters, case-sensitive or under IGNORECASE *)
Definition lits (s : str) : regex := lits_with is_char s.
Definition lits_i (s : str) : regex := lits_with is_char_i s.

Fixpoint seq_of (l : list regex) : regex :=
  match l with
  | [] => Eps
  | [r] => r
  | r :: l' => Seq r (seq_of l')
  end.

Fixpoint alt_of (l : list regex) : regex :=
  match l with
  | [] => Eps
  | [r] => r
  | r :: l' => Alt r (alt_of l')
  end.

End Re.

Import Re.

(* ================================================================== *)
(** * [metrics/accuracy.py]: answer extraction *)
(* ================================================================== *)

Module Patterns.

(** [\boxed\{(.*?)\}] *)
Definition boxed_pattern : regex :=
  seq_of [lits (u "\boxed{"); Group (Rep false 0 dot); Lit (is_char (ch "}"))].

Definition colon_cn : char -> bool := in_chars (u ":：").
Definition colon : char -> bool := is_char (ch ":").

(** [\s*(.+?)(?:\.|。|$)] and [\s*(.+?)(?:\.|$)], the tail of every
    lead-in pattern *)
Definition tail_cn : list regex :=
  [Rep true 0 is_space; Group (Rep false 1 dot);
   alt_of [Lit (is_char (ch ".")); Lit (is_char (ch "。")); Eol]].

Definition tail_en : list regex :=
  [Rep true 0 is_space; Group (Rep false 1 dot);
   alt_of [Lit (is_char (ch ".")); Eol]].

(** The lead-in patterns, in the order of the source list; all are
    searched with [re.IGNORECASE]. *)
Definition patterns : list regex :=
  [ (* 答案是[:：]?\s*(.+?)(?:\.|。|$) *)
    seq_of (lits_i (u "答案是") :: Opt (Lit colon_cn) :: tail_cn);
    (* 答案[:：]\s*(.+?)(?:\.|。|$) *)
    seq_of (lits_i (u "答案") :: Lit colon_cn :: tail_cn);
    (* 答案为[:：]?\s*(.+?)(?:\.|。|$) *)
    seq_of (lits_i (u "答案为") :: Opt (Lit colon_cn) :: tail_cn);
    (* the answer is:?\s*(.+?)(?:\.|$) *)
    seq_of (lits_i (u "the answer is") :: Opt (Lit colon) :: tail_en);
    (* answer:?\s*(.+?)(?:\.|$) *)
    seq_of (lits_i (u "answer") :: Opt (Lit colon) :: tail_en);
    (* 因此答案为:?\s*(.+?)(?:\.|。|$) *)
    seq_of (lits_i (u "因此答案为") :: Opt (Lit colon) :: tail_cn);
    (* 所以答案是:?\s*(.+?)(?:\.|。|$) *)
    seq_of (lits_i (u "所以答案是") :: Opt (Lit colon) :: tail_cn);
    (* 因此答案是:?\s*(.+?)(?:\.|。|$) *)
    seq_of (lits_i (u "因此答案是") :: Opt (Lit colon) :: tail_cn);
    (* 所以答案为:?\s*(.+?)(?:\.|。|$) *)
    seq_of (lits_i (u "所以答案为") :: Opt (Lit colon) :: tail_cn);
    (* 最终答案:?\s*(.+?)(?:\.|。|$) *)
    seq_of (lits_i (u "最终答案") :: Opt (Lit colon) :: tail_cn);
    (* 最终答案为:?\s*(.+?)(?:\.|。|$) *)
    seq_of (lits_i (u "最终答案为") :: Opt (Lit colon) :: tail_cn);
    (* 最终答案是:?\s*(.+?)(?:\.|。|$) *)
    seq_of (lits_i (u "最终答案是") :: Opt (Lit colon) :: tail_cn) ].

(** [```output\s*\n([\d\.\+\-]+)] *)
Definition code_output_pattern : regex :=
  seq_of [lits (u "```output"); Rep true 0 is_space; Lit (is_char LF);
       Group (Rep true 1 (fun c => is_digit c || in_chars (u ".+-") c))].

(** [=\s*([\d\.\+\-πpi\/\*]+)(?:\s|$|\.|。|,|，)] *)
Definition equals_pattern : regex :=
  seq_of [Lit (is_char (ch "=")); Rep true 0 is_space;
       Group (Rep true 1 (fun c => is_digit c || in_chars (u ".+-πpi/*") c));
       alt_of [Lit is_space; Eol; Lit (is_char (ch ".")); Lit (is_char (ch "。"));
            Lit (is_char (ch ",")); Lit (is_char (ch "，"))]].

(** [[-+]?[\d\.]+(?:π|pi)?] *)
Definition number_pattern : regex :=
  seq_of [Opt (Lit (in_chars (u "-+")));
       Rep true 1 (fun c => is_digit c || is_char (ch ".") c);
       Opt (Alt (Lit (is_char (ch "π"))) (lits (u "pi")))].

(** The class of [_normalize_answer]: the corner brackets, the ASCII
    brackets, and the two ASCII quotes (code points 34 and 39). *)
Definition strip_class : char -> bool :=
  fun c => in_chars (u "「」『』()[]{}") c || (c =? 34)%N || (c =? 39)%N.

(** [\s+] *)
Definition spaces_pattern : regex := Rep true 1 is_space.

(** [^[-+]?[\d\.]+$] *)
Definition numeric_pattern : regex :=
  seq_of [Bol; Opt (Lit (in_chars (u "-+")));
       Rep true 1 (fun c => is_digit c || is_char (ch ".") c); Eol].

(** [-?\d+\.?\d*], of [datasets/gsm8k.py] *)
Definition gsm_number_pattern : regex :=
  seq_of [Opt (Lit (is_char (ch "-"))); Rep true 1 is_digit;
       Opt (Lit (is_char (ch "."))); Rep true 0 is_digit].

End Patterns.

Import Patterns.

(** [matches.group(1)] of the first pattern of the list that is found *)
Fixpoint first_found (ps : list regex) (text : str) : option match_obj :=
  match ps with
  | [] => None
  | p :: ps' =>
      match search p text with
      | Some m => Some m
      | None => first_found ps' text
      end
  end.

(** [matches.group(1).strip()] *)
Definition group1_strip (m : match_obj) : result str :=
  match groups m with
  | Some g :: _ => Ok (strip g)
  | _ => Raise AttributeError
  end.

(** The stages of [_extract_answer] below the caller's pattern. *)
Definition extract_default (text : str) : str :=
  match search boxed_pattern text with
  | Some m => strip (item m)
  | None =>
  match first_found patterns text with
  | Some m => strip (item m)
  | None =>
  match search code_output_pattern text with
  | Some m => strip (item m)
  | None =>
  match rev (findall equals_pattern text) with
  | e :: _ => strip e
  | [] =>
  match rev (findall number_pattern text) with
  | x :: _ => x
  | [] =>
      let lines := str_split [LF] (strip text) in
      let last_line := strip (last_item lines) in
      match rev (findall number_pattern last_line) with
      | x :: _ => x
      | [] => last_line
      end
  end end end end end.

Definition _extract_answer (text : str) (pattern : option pattern)
  : result str :=
  match text with
  | [] => Ok []
  | _ =>
      match pattern with
      | Some Uncompilable => Raise ReError
      | Some (Compiled find) =>
          match find text with
          | Some m =>
              match groups m with
              | [] => Ok (extract_default text)
              | _ => group1_strip m
              end
          | None => Ok (extract_default text)
          end
      | None => Ok (extract_default text)
      end
  end.

(* ================================================================== *)
(** * Python numbers *)
(* ================================================================== *)

(** Decimal rendering of integers ([str(int)]) *)
Module Dec.

Fixpoint of_uint (d : Decimal.uint) : str :=
  match d with
  | Decimal.Nil => []
  | Decimal.D0 r => 48%N :: of_uint r
  | Decimal.D1 r => 49%N :: of_uint r
  | Decimal.D2 r => 50%N :: of_uint r
  | Decimal.D3 r => 51%N :: of_uint r
  | Decimal.D4 r => 52%N :: of_uint r
  | Decimal.D5 r => 53%N :: of_uint r
  | Decimal.D6 r => 54%N :: of_uint r
  | Decimal.D7 r => 55%N :: of_uint r
  | Decimal.D8 r => 56%N :: of_uint r
  | Decimal.D9 r => 57%N :: of_uint r
  end.

(** The digits of a natural number, most significant first; ["0"] for 0 *)
Definition of_N (n : N) : str := of_uint (N.to_uint n).

(** [str(z)] *)
Definition of_Z (z : Z) : str :=
  if (z <? 0)%Z then ch "-" :: of_N (Z.to_N (- z)) else of_N (Z.to_N z).

(** The number written by a list of digit values, most significant first *)
Definition to_Z (ds : list Z) : Z := fold_left (fun acc d => 10 * acc + d)%Z ds 0%Z.

End Dec.

(** IEEE 754 binary64, the [float] of CPython: a finite float is
    [(-1)^neg * m * 2^e] with [m < 2^53] and [-1074 <= e <= 971], in the one
    form with the largest mantissa (zero is [m = 0], [e = 0]).  Every
    operation computes the exact rational result and rounds it to the
    nearest float, ties to even. *)
Module Float.
Open Scope Z_scope.

Inductive float :=
| Nan
| Inf (neg : bool)
| Fin (neg : bool) (m : Z) (e : Z).

(** [floor (log2 (n/d))] for [n, d > 0] *)
Definition ilog2 (n d : Z) : Z :=
  let l := Z.log2 n - Z.log2 d in
  if Z.shiftl n (Z.max 0 (- l)) <? Z.shiftl d (Z.max 0 l) then l - 1 else l.

(** The integer nearest to [n/d], ties to even *)
Definition rne (n d : Z) : Z :=
  let q := n / d in
  match 2 * (n mod d) ?= d with
  | Lt => q
  | Gt => q + 1
  | Eq => if Z.even q then q else q + 1
  end.

(** The float nearest to [(-1)^neg * n/d], for [n >= 0] and [d > 0];
    infinite from [2^1024 - 2^970] on. *)
Definition round (neg : bool) (n d : Z) : float :=
  if n =? 0 then Fin neg 0 0 else
  let e := Z.max (ilog2 n d - 52) (-1074) in
  let m := if 0 <=? e then rne n (d * 2 ^ e) else rne (n * 2 ^ (- e)) d in
  if m =? 0 then Fin neg 0 0 else
  let e' := if m =? 2 ^ 53 then e + 1 else e in
  let m' := if m =? 2 ^ 53 then 2 ^ 52 else m in
  if 971 <? e' then Inf neg else Fin neg m' e'.

(** The magnitude of a finite float as a fraction *)
Definition num (m e : Z) : Z := if 0 <=? e then m * 2 ^ e else m.
Definition den (e : Z) : Z := if 0 <=? e then 1 else 2 ^ (- e).

(** The exact value of a finite float *)
Definition value (x : float) : option Q :=
  match x with
  | Fin neg m e =>
      Some (Qmake ((if neg then -1 else 1) * num m e) (Z.to_pos (den e)))
  | _ => None
  end.

Definition signed (neg : bool) (m : Z) : Z := if neg then - m else m.

(** [x - y] *)
Definition sub (x y : float) : float :=
  match x, y with
  | Nan, _ | _, Nan => Nan
  | Inf a, Inf b => if Bool.eqb a b then Nan else Inf a
  | Inf a, Fin _ _ _ => Inf a
  | Fin _ _ _, Inf b => Inf (negb b)
  | Fin nx mx ex, Fin ny my ey =>
      let e0 := Z.min ex ey in
      let d := signed nx (mx * 2 ^ (ex - e0)) - signed ny (my * 2 ^ (ey - e0)) in
      if d =? 0 then Fin (nx && negb ny) 0 0
      else round (d <? 0) (num (Z.abs d) e0) (den e0)
  end.

(** [abs(x)] *)
Definition abs (x : float) : float :=
  match x with
  | Nan => Nan
  | Inf _ => Inf false
  | Fin _ m e => Fin false m e
  end.

(** [x < y] *)
Definition ltb (x y : float) : bool :=
  match x, y with
  | Nan, _ | _, Nan => false
  | Inf a, Inf b => a && negb b
  | Inf a, Fin _ _ _ => a
  | Fin _ _ _, Inf b => negb b
  | Fin nx mx ex, Fin ny my ey =>
      signed nx (num mx ex) * den ey <? signed ny (num my ey) * den ex
  end.

(** [a / b] on two [int]s, [a >= 0] and [b > 0] *)
Definition int_truediv (a b : Z) : float := round false a b.

(** The literal [1e-5] *)
Definition lit_1e_5 : float := round false 1 100000.

(** [x.is_integer()] *)
Definition is_integer (x : float) : bool :=
  match x with
  | Fin _ m e => (0 <=? e) || (m mod 2 ^ (- e) =? 0)
  | _ => false
  end.

(** [int(x)] on a float that is an integer *)
Definition to_int (x : float) : Z :=
  match x with
  | Fin neg m e => signed neg (num m e / den e)
  | _ => 0
  end.

(** [round(x, 5)]: the exact value is rounded to five decimal places,
    ties to even, and the decimal so obtained is read back as a float;
    infinities and nan are returned as they are. *)
Definition round5 (x : float) : float :=
  match x with
  | Fin neg m e => round neg (rne (num m e * 10 ^ 5) (den e)) (10 ^ 5)
  | _ => x
  end.

(* -------------------------------------------------------------- *)
(** ** [float(s)] *)

(** A decimal numeral: sign, digits, power of ten *)
Definition of_decimal (neg : bool) (digits : Z) (exp10 : Z) : float :=
  if 0 <=? exp10 then round neg (digits * 10 ^ exp10) 1
  else round neg digits (10 ^ (- exp10)).

(** Characters from 127 on are replaced before parsing: white space by a
    blank, a decimal digit by its ASCII digit, anything else by [?]. *)
Definition to_ascii (c : char) : char :=
  if (c <? 127)%N then c
  else if is_space c then 32%N
  else match digit_value c with
       | Some d => (48 + d)%N
       | None => 63%N
       end.

(** [Py_ISSPACE] *)
Definition is_ascii_space (c : char) : bool :=
  ((9 <=? c) && (c <=? 13) || (c =? 32))%N.

Definition is_ascii_digit (c : char) : bool := ((48 <=? c) && (c <=? 57))%N.

(** An underscore is accepted between two digits only, and dropped. *)
Fixpoint drop_underscores (prev : char) (s : str) : option str :=
  match s with
  | [] => if (prev =? 95)%N then None else Some []
  | c :: s' =>
      if (c =? 95)%N then
        if is_ascii_digit prev then drop_underscores c s' else None
      else if (prev =? 95)%N && negb (is_ascii_digit c) then None
      else option_map (cons c) (drop_underscores c s')
  end.

Fixpoint take_digits (s : str) : list Z * str :=
  match s with
  | c :: s' =>
      if is_ascii_digit c then
        let (ds, r) := take_digits s' in (Z.of_N c - 48 :: ds, r)
      else ([], s)
  | [] => ([], [])
  end.

Definition take_sign (s : str) : bool * str :=
  match s with
  | c :: s' =>
      if (c =? 45)%N then (true, s')
      else if (c =? 43)%N then (false, s')
      else (false, s)
  | [] => (false, [])
  end.

Definition ascii_lower (c : char) : char :=
  if ((65 <=? c) && (c <=? 90))%N then (c + 32)%N else c.

(** The exponent part: empty, or [e] or [E], a sign, and digits *)
Definition parse_exponent (s : str) : option Z :=
  match s with
  | [] => Some 0
  | c :: s' =>
      if (ascii_lower c =? 101)%N then
        let (neg, s1) := take_sign s' in
        match take_digits s1 with
        | ((_ :: _) as ds, []) => Some (signed neg (Dec.to_Z ds))
        | _ => None
        end
      else None
  end.

(** The text after stripping, without underscores *)
Definition parse (s : str) : option float :=
  let (neg, s0) := take_sign s in
  let word := map ascii_lower s0 in
  if str_eqb word (u "inf") || str_eqb word (u "infinity") then Some (Inf neg)
  else if str_eqb word (u "nan") then Some Nan
  else
    let (ip, r1) := take_digits s0 in
    let (fp, r2) :=
      match r1 with
      | c :: t => if (c =? 46)%N then take_digits t else ([], r1)
      | [] => ([], r1)
      end in
    match ip ++ fp with
    | [] => None
    | ds =>
        match parse_exponent r2 with
        | Some x => Some (of_decimal neg (Dec.to_Z ds) (x - Z.of_nat (length fp)))
        | None => None
        end
    end.

(** [float(s)]; [None] is [ValueError] *)
Definition of_str (s : str) : option float :=
  let t := rstrip_by is_ascii_space (lstrip_by is_ascii_space (map to_ascii s)) in
  if in_chars t 95%N
  then match drop_underscores 0%N t with
       | Some t' => parse t'
       | None => None
       end
  else parse t.

(* -------------------------------------------------------------- *)
(** ** [repr(x)] *)

(** The position of the decimal point: [10^(p-1) <= n/d < 10^p] for the
    magnitude [n/d] of a finite float other than zero. *)
Definition decimal_point (n d : Z) : Z :=
  Z.of_nat (length (Dec.of_N (Z.to_N (n * 10 ^ 340 / d)))) - 340.

(** [D * 10^k] as a fraction *)
Definition pow10_num (D k : Z) : Z := if 0 <=? k then D * 10 ^ k else D.
Definition pow10_den (k : Z) : Z := if 0 <=? k then 1 else 10 ^ (- k).

(** Does the decimal [D * 10^k] read back as the float [x]? *)
Definition reads_back (x : float) (D k : Z) : bool :=
  match x, round false (pow10_num D k) (pow10_den k) with
  | Fin _ m e, Fin _ m' e' => (m =? m') && (e =? e')
  | _, _ => false
  end.

(** The decimal with [nd] significant digits that reads back as [x], if
    there is one: the nearer of the two that enclose the value, the even
    one on a tie. *)
Definition candidate (x : float) (n d p : Z) (nd : Z) : option (Z * Z) :=
  let k := p - nd in
  let wn := n * pow10_den k in
  let wd := d * pow10_num 1 k in
  let lo := wn / wd in
  let ok_lo := reads_back x lo k in
  let ok_hi := reads_back x (lo + 1) k in
  let pick_lo :=
    match 2 * (wn mod wd) ?= wd with
    | Lt => true
    | Gt => false
    | Eq => Z.even lo
    end in
  if ok_lo && ok_hi then Some (if pick_lo then lo else lo + 1, k)
  else if ok_lo then Some (lo, k)
  else if ok_hi then Some (lo + 1, k)
  else None.

(** The shortest of them: [nd] = 1, 2, ... ; seventeen digits always
    read back. *)
Fixpoint shortest (x : float) (n d p : Z) (nd : Z) (fuel : nat) : Z * Z :=
  match fuel with
  | O => (rne (n * pow10_den (p - nd)) (d * pow10_num 1 (p - nd)), p - nd)
  | S fuel' =>
      match candidate x n d p nd with
      | Some c => c
      | None => shortest x n d p (nd + 1) fuel'
      end
  end.

Definition zeros (n : Z) : str := repeat 48%N (Z.to_nat n).

(** Format code [r]: the digits [ds] with the decimal point after the
    first [p] of them; exponent form when [p <= -4] or [p > 16]. *)
Definition format_r (ds : str) (p : Z) : str :=
  if (p <=? -4) || (16 <? p) then
    let x := p - 1 in
    let xs := Dec.of_N (Z.to_N (Z.abs x)) in
    firstn 1 ds
      ++ match skipn 1 ds with [] => [] | f => ch "." :: f end
      ++ ch "e" :: (if x <? 0 then ch "-" else ch "+")
      :: (if Z.abs x <? 10 then 48%N :: xs else xs)
  else if p <=? 0 then u "0." ++ zeros (- p) ++ ds
  else if Z.of_nat (length ds) <=? p
  then ds ++ zeros (p - Z.of_nat (length ds)) ++ u ".0"
  else firstn (Z.to_nat p) ds ++ ch "." :: skipn (Z.to_nat p) ds.

(** [repr(x)], which is also [str(x)] *)
Definition repr (x : float) : str :=
  match x with
  | Nan => u "nan"
  | Inf neg => if neg then u "-inf" else u "inf"
  | Fin neg m e =>
      (if neg then [ch "-"] else []) ++
      if m =? 0 then u "0.0"
      else
        let n := num m e in
        let d := den e in
        let (D, k) := shortest x n d (decimal_point n d) 1 17 in
        let all := Dec.of_N (Z.to_N D) in
        format_r (rstrip (u "0") all) (Z.of_nat (length all) + k)
  end.

End Float.

(* ================================================================== *)
(** * [str.lower] *)
(* ================================================================== *)

(** Characters the Unicode case table leaves alone, as far as this
    development needs them: ASCII and Latin-1 below the capital letters'
    blocks, white space, decimal digits, and the non-ASCII characters the
    source spells out. *)
Definition uncased (c : char) : bool :=
  ((c <? 65) || ((90 <? c) && (c <? 192)) || (c =? 215) || (c =? 247))%N
  || is_space c || is_digit c
  || in_chars (u "π「」『』（），。：") c.

(** [s.lower()] is a parameter, with three facts of the Unicode table: the
    result is in lower case already; a string is unchanged exactly when
    each of its characters is; the characters of [uncased] are. *)
Class CaseMapping := {
  lower : str -> str;
  lower_lower : forall s, lower (lower s) = lower s;
  lower_fixed : forall s, lower s = s <-> Forall (fun c => lower [c] = [c]) s;
  lower_uncased : forall c, uncased c = true -> lower [c] = [c]
}.

(* ================================================================== *)
(** * [metrics/accuracy.py]: normalization and scoring *)
(* ================================================================== *)

Section Accuracy.
Context {case : CaseMapping}.

(** The chain of [replace] calls on mathematical symbols *)
Definition replace_symbols (answer : str) : str :=
  replace (u "。") (u ".")
    (replace (u "，") (u ",")
       (replace (u "）") (u ")")
          (replace (u "（") (u "(")
             (replace (u "÷") (u "/")
                (replace (u "×") (u "*") answer))))).

(** The text before the numeric stage *)
Definition clean (answer : str) : str :=
  let answer := Re.sub (Lit strip_class) [] answer in
  let answer := lower answer in
  let answer := strip (Re.sub spaces_pattern (u " ") answer) in
  replace_symbols answer.

(** The body of the [try]; [None] is an exception, which [except: pass]
    discards. *)
Definition reformat (answer : str) : option str :=
  match Float.of_str answer with
  | Some num =>
      if Float.is_integer num
      then Some (Dec.of_Z (Float.to_int num))
      else Some (rstrip (u ".") (rstrip (u "0") (Float.repr (Float.round5 num))))
  | None => None
  end.

Definition _normalize_answer (answer : str) : str :=
  match answer with
  | [] => []
  | _ =>
      let answer := clean answer in
      match Re.match_ numeric_pattern answer with
      | Some _ =>
          match reformat answer with
          | Some answer' => answer'
          | None => answer
          end
      | None => answer
      end
  end.

(** [s.replace('π', 'pi').replace('pi', '3.14159')] *)
Definition subst_pi (s : str) : str :=
  replace (u "pi") (u "3.14159") (replace (u "π") (u "pi") s).

(** The body of the scoring loop that sets [is_correct] *)
Definition judge (pred ref : str) : bool :=
  if str_eqb pred ref then true
  else
    match Float.of_str (subst_pi pred) with
    | Some pred_num =>
        match Float.of_str (subst_pi ref) with
        | Some ref_num =>
            Float.ltb (Float.abs (Float.sub pred_num ref_num)) Float.lit_1e_5
        | None => contains pred ref || contains ref pred
        end
    | None => contains pred ref || contains ref pred
    end.

(** [**kwargs]; [answer_pattern = None] stands for an absent, [None] or
    empty pattern, which [if pattern:] skips.  [debug] only prints. *)
Record options := {
  answer_pattern : option pattern;
  normalize : bool;
  debug : bool
}.

Definition default_options : options :=
  {| answer_pattern := None; normalize := true; debug := false |}.

Record verdict := {
  index : nat;
  prediction : str;
  extracted : str;
  reference : str;
  normalized_reference : str;
  is_correct : bool            (* key ['correct'] *)
}.

(** [score] is the [int] 0 of an empty run or the [float] of a division *)
Inductive number :=
| Int (z : Z)
| Flt (x : Float.float).

Record report := {
  score : number;
  correct : nat;
  total : nat;
  details : list verdict
}.

(** The scoring loop over [zip(extracted_predictions,
    normalized_references)], with its two accumulators. *)
Fixpoint score_loop (predictions extracted_predictions references
    normalized_references : list str) (i : nat) (pairs : list (str * str))
    (correct : nat) (details : list verdict) : nat * list verdict :=
  match pairs with
  | [] => (correct, details)
  | (pred, ref) :: rest =>
      let is_correct := judge pred ref in
      let correct := if is_correct then correct + 1 else correct in
      let details :=
        details ++
        [{| index := i;
            prediction := nth i predictions [];
            extracted := nth i extracted_predictions [];
            reference := nth i references [];
            normalized_reference := nth i normalized_references [];
            is_correct := is_correct |}] in
      score_loop predictions extracted_predictions references
        normalized_references (S i) rest correct details
  end.

Definition compute (predictions references : list str) (kwargs : options)
  : result report :=
  if negb (Nat.eqb (length predictions) (length references))
  then Raise ValueError
  else
    extracted_predictions <-
      for_each
        (fun pred =>
           extracted <- _extract_answer pred (answer_pattern kwargs) ;;
           Ok (if normalize kwargs then _normalize_answer extracted
               else extracted))
        predictions ;;
    let normalized_references :=
      map (fun ref => if normalize kwargs then _normalize_answer ref else ref)
        references in
    let (correct, details) :=
      score_loop predictions extracted_predictions references
        normalized_references 0
        (combine extracted_predictions normalized_references) 0 [] in
    let accuracy :=
      match predictions with
      | [] => Int 0
      | _ => Flt (Float.int_truediv (Z.of_nat correct)
                    (Z.of_nat (length predictions)))
      end in
    Ok {| score := accuracy;
          correct := correct;
          total := length predictions;
          details := details |}.

End Accuracy.

(* ================================================================== *)
(** * [datasets/gsm8k.py]: the reference answer *)
(* ================================================================== *)

Section Gsm8k.
Context {case : CaseMapping}.

(** The ['answer'] field of a record is whatever the JSON line holds: a
    string, or some other value, on which the string methods raise. *)
Inductive value :=
| Str (s : str)
| NonStr (tag : nat).

(** The [for char in ['$', ',', '\\$']] loop *)
Definition drop_currency (number_part : str) : str :=
  fold_left (fun s c => replace c [] s) [u "$"; u ","; u "\$"] number_part.

(** The ["answer is"] branch; [None] when it falls through *)
Definition answer_is_number (last_line : str) : option str :=
  if contains (u "answer is") (lower last_line) then
    match str_split (u "answer is") (lower last_line) with
    | _ :: part :: _ =>
        match findall gsm_number_pattern (drop_currency (strip part)) with
        | m :: _ => Some m
        | [] => None
        end
    | _ => None
    end
  else None.

(** The body of the [try] *)
Definition extract_final_try (answer_text : value) : result value :=
  match answer_text with
  | NonStr _ => Raise AttributeError
  | Str text =>
      let lines := str_split [LF] (strip text) in
      let last_line := strip (last_item lines) in
      match answer_is_number last_line with
      | Some m => Ok (Str m)
      | None =>
          match rev (findall gsm_number_pattern text) with
          | x :: _ => Ok (Str x)
          | [] => Ok answer_text
          end
      end
  end.

Definition _extract_final_answer (answer_text : value) : value :=
  match extract_final_try answer_text with
  | Ok v => v
  | Raise _ => answer_text
  end.

End Gsm8k.

(* ================================================================== *)
(** * Vocabulary of the statements *)
(* ================================================================== *)

(* ------------------------------------------------------------------ *)
(** ** The report *)

(** [count(v.correct for v in details)] *)
Definition count_correct (details : list verdict) : nat :=
  length (filter is_correct details).

(** The exact value of a score *)
Definition number_value (x : number) : option Q :=
  match x with
  | Int z => Some (inject_Z z)
  | Flt f => Float.value f
  end.

(** [2^-53] *)
Definition eps53 : Q := 1 # 9007199254740992.

(** [q] is within [2^-53] of [r] *)
Definition near (q r : Q) : Prop := (q <= r + eps53)%Q /\ (r <= q + eps53)%Q.

(* ------------------------------------------------------------------ *)
(** ** Extraction *)

(** The situations in which [_extract_answer] raises: the text is not
    empty and the caller's pattern does not compile, or it matches with a
    first group that took no part in the match. *)
Definition pattern_raises (text : str) (pattern : option pattern) : Prop :=
  text <> [] /\
  (pattern = Some Uncompilable
   \/ exists find m rest,
        pattern = Some (Compiled find) /\ find text = Some m
        /\ groups m = None :: rest).


(** The opening of a boxed expression *)
Definition boxed_open : str := u "\boxed{".

(** Inside the braces: no line feed and no closing brace *)
Definition boxed_body (c : char) : bool := dot c && negb (chr_eqb c (ch "}")).

(** The text before the first closing brace of the line, when the line
    has one *)
Fixpoint up_to_brace (s : str) : option str :=
  match s with
  | [] => None
  | c :: s' =>
      if chr_eqb c (ch "}") then Some []
      else if chr_eqb c LF then None
      else option_map (cons c) (up_to_brace s')
  end.

(** What is between the first [\boxed{] that is closed on its line and
    the first closing brace after it *)
Fixpoint first_boxed (s : str) : option str :=
  match (if prefixb boxed_open s
         then up_to_brace (skipn (length boxed_open) s) else None) with
  | Some b => Some b
  | None =>
      match s with
      | [] => None
      | _ :: s' => first_boxed s'
      end
  end.

(** The characters a pattern can consume *)
Fixpoint chars_of (r : regex) (c : char) : bool :=
  match r with
  | Lit p => p c
  | Rep _ _ p => p c
  | Seq a b | Alt a b => chars_of a c || chars_of b c
  | Group a => chars_of a c
  | _ => false
  end.

(** The characters group 1 of a pattern can hold *)
Fixpoint group_chars (r : regex) (c : char) : bool :=
  match r with
  | Group a => chars_of a c
  | Seq a b | Alt a b => group_chars a c || group_chars b c
  | _ => false
  end.

(** The characters of what [findall] lists for a pattern *)
Definition item_chars (r : regex) (c : char) : bool :=
  if has_group r then group_chars r c else chars_of r c.

(** [a] occurs in [t] *)
Definition infix_of (a t : str) : Prop := exists l r, t = l ++ a ++ r.

(** The last line of the text, as the final stage takes it *)
Definition last_line (text : str) : str :=
  strip (last_item (str_split [LF] (strip text))).

(** A character that starts a number-like token *)
Definition numchar (c : char) : bool := is_digit c || is_char (ch ".") c.

(* ------------------------------------------------------------------ *)
(** ** Normalization *)

(** The length of the run of [p]-characters at the head of [s] *)
Definition run (p : char -> bool) (s : str) : nat :=
  length s - length (lstrip_by p s).

(** Step 3, before trimming: every run of white space becomes one blank.
    [in_run] tells that the previous character was white space. *)
Fixpoint collapse (in_run : bool) (s : str) : str :=
  match s with
  | [] => []
  | c :: s' =>
      if is_space c
      then if in_run then collapse true s' else 32%N :: collapse true s'
      else c :: collapse false s'
  end.

(** A [replace] of one character by one character is a map. *)
Definition swap (a b c : char) : char := if chr_eqb a c then b else c.

(** Step 4, character by character *)
Definition sym (c : char) : char :=
  swap (ch "。") (ch ".")
    (swap (ch "，") (ch ",")
       (swap (ch "）") (ch ")")
          (swap (ch "（") (ch "(")
             (swap (ch "÷") (ch "/") (swap (ch "×") (ch "*") c))))).

(** The text does not start with a character of [p]. *)
Definition head_free (p : char -> bool) (s : str) : bool :=
  match s with
  | [] => true
  | c :: _ => negb (p c)
  end.

(** Texts in which white space only occurs as one blank at a time; [b]
    tells that the previous character was a blank. *)
Fixpoint single (b : bool) (s : str) : bool :=
  match s with
  | [] => true
  | c :: s' =>
      if is_space c then negb b && (c =? 32)%N && single true s'
      else single false s'
  end.

(** Step 5 of [_normalize_answer], applied to the cleaned text *)
Definition numeric_stage (answer : str) : str :=
  match Re.match_ numeric_pattern answer with
  | Some _ =>
      match reformat answer with
      | Some answer' => answer'
      | None => answer
      end
  | None => answer
  end.

(** What [^[-+]?[\d\.]+$] accepts: an optional sign, then digits and full
    stops, at least one, up to the end of the text (or up to a line feed
    that ends it). *)
Definition signed_decimal (s : str) : bool :=
  let body :=
    match s with
    | c :: t => if in_chars (u "-+") c then t else s
    | [] => []
    end in
  (1 <=? run numchar body)
  && match lstrip_by numchar body with
     | [] => true
     | [c] => chr_eqb c LF
     | _ => false
     end.

(** The characters of a rendered integer *)
Definition is_minus_or_digit (c : char) : bool :=
  chr_eqb c (ch "-") || Float.is_ascii_digit c.

(* ------------------------------------------------------------------ *)
(** ** Numbers *)

(** [2^z] for [z >= 0], and 1 below: the two factors by which a fraction
    is scaled by [2^z] *)
Definition pw (z : Z) : Z := (2 ^ Z.max 0 z)%Z.

(** [10^z] for [z >= 0], and 1 below *)
Definition p10 (z : Z) : Z := (10 ^ Z.max 0 z)%Z.

(** [2^l <= n/d] *)
Definition ge_pow2 (l n d : Z) : Prop := (d * pw l <= n * pw (- l))%Z.

(** The mantissa and exponent of a float other than zero: 53 bits, or
    fewer at the least exponent *)
Definition canonical (m e : Z) : Prop :=
  ((2 ^ 52 <= m < 2 ^ 53 /\ -1074 <= e <= 971)
   \/ (0 < m < 2 ^ 52 /\ e = -1074))%Z.

(** The exponent and the mantissa that [round] computes before it
    renormalizes *)
Definition round_exp (n d : Z) : Z := Z.max (Float.ilog2 n d - 52) (-1074).
Definition round_man (n d : Z) : Z :=
  Float.rne (n * pw (- round_exp n d)) (d * pw (round_exp n d)).

(** The values of a run of ASCII digits, as [take_digits] reads them *)
Definition vals (s : str) : list Z := map (fun c => (Z.of_N c - 48)%Z) s.

(** The decimal numeral written by a run of ASCII digits *)
Fixpoint uint_of (s : str) : Decimal.uint :=
  match s with
  | [] => Decimal.Nil
  | c :: s' =>
      match (c - 48)%N with
      | 0%N => Decimal.D0 (uint_of s')
      | 1%N => Decimal.D1 (uint_of s')
      | 2%N => Decimal.D2 (uint_of s')
      | 3%N => Decimal.D3 (uint_of s')
      | 4%N => Decimal.D4 (uint_of s')
      | 5%N => Decimal.D5 (uint_of s')
      | 6%N => Decimal.D6 (uint_of s')
      | 7%N => Decimal.D7 (uint_of s')
      | 8%N => Decimal.D8 (uint_of s')
      | _ => Decimal.D9 (uint_of s')
      end
  end.

(** A numeral without a leading zero, or the numeral [0] *)
Definition no_leading_zero (s : str) : bool :=
  match s with
  | [] => false
  | c :: t => negb (c =? 48)%N || match t with [] => true | _ => false end
  end.

(** The text does not end with a character of [p]. *)
Definition ends_free (p : char -> bool) (s : str) : bool := head_free p (rev s).

(** The sign of a rendered number *)
Definition sign_str (neg : bool) : str := if neg then [ch "-"] else [].

(** The characters of a numeral in fixed notation *)
Definition fixed_char (c : char) : bool :=
  Float.is_ascii_digit c || (c =? 46)%N || (c =? 45)%N.

(** The characters of a rendered number: digits, sign, decimal point,
    exponent mark, and the letters of [inf] and [nan] *)
Definition plain (c : char) : bool := in_chars (u "0123456789.-+einfa") c.

(* ================================================================== *)
(** * A case mapping to compute with *)
(* ================================================================== *)

(** [lower] on texts whose only cased characters are ASCII letters. *)
Definition ascii_lower (s : str) : str := map Float.ascii_lower s.

(* ================================================================== *)
(** * The ASCII case mapping satisfies the laws *)
(* ================================================================== *)

Lemma ascii_lower_chr_idem c :
  Float.ascii_lower (Float.ascii_lower c) = Float.ascii_lower c.
Proof.
  unfold Float.ascii_lower.
  destruct ((65 <=? c) && (c <=? 90))%N eqn:E; [|now rewrite E].
  apply andb_prop in E as [E1 E2].
  apply N.leb_le in E1. apply N.leb_le in E2.
  replace ((65 <=? c + 32) && (c + 32 <=? 90))%N with false; [reflexivity|].
  symmetry. apply andb_false_iff. right. apply N.leb_gt. lia.
Qed.

Lemma capital_not_uncased c :
  (65 <= c)%N -> (c <= 90)%N -> uncased c = false.
Proof.
  intros H1 H2.
  assert (A : forallb (fun c => negb (uncased c))
                (map N.of_nat (seq 65 26)) = true) by (vm_compute; reflexivity).
  rewrite forallb_forall in A.
  specialize (A c).
  rewrite negb_true_iff in A. apply A.
  rewrite <- (N2Nat.id c). apply in_map. apply in_seq. lia.
Qed.

Lemma ascii_lower_uncased c : uncased c = true -> Float.ascii_lower c = c.
Proof.
  intros U. unfold Float.ascii_lower.
  destruct ((65 <=? c) && (c <=? 90))%N eqn:E; [|reflexivity].
  apply andb_prop in E as [E1 E2].
  apply N.leb_le in E1. apply N.leb_le in E2.
  rewrite (capital_not_uncased E1 E2) in U. discriminate.
Qed.

Lemma map_fixed_iff (f : char -> char) (s : str) :
  map f s = s <-> Forall (fun c => map f [c] = [c]) s.
Proof.
  induction s as [|c s IH]; simpl.
  - split; [constructor | reflexivity].
  - split.
    + intros H. injection H as Hc Hs. constructor; [now rewrite Hc | now apply IH].
    + intros H. inversion H as [|? ? Hc Hs]; subst. simpl in Hc.
      injection Hc as Hc. rewrite Hc. f_equal. now apply IH.
Qed.

Lemma ascii_lower_lower s : ascii_lower (ascii_lower s) = ascii_lower s.
Proof.
  unfold ascii_lower. rewrite map_map.
  apply map_ext. intros c. apply ascii_lower_chr_idem.
Qed.

Lemma ascii_lower_uncased_chr c : uncased c = true -> ascii_lower [c] = [c].
Proof.
  intros U. unfold ascii_lower. simpl. now rewrite ascii_lower_uncased.
Qed.

(** The case mapping used to evaluate the code on texts whose only cased
    characters are ASCII letters. *)
Definition ascii_case : CaseMapping :=
  {| lower := ascii_lower;
     lower_lower := ascii_lower_lower;
     lower_fixed := map_fixed_iff Float.ascii_lower;
     lower_uncased := ascii_lower_uncased_chr |}.

(* ================================================================== *)
(** * The scorer: [compute] *)
(* ================================================================== *)

Section ScoreLoop.
Context {case : CaseMapping}.

Lemma score_loop_spec ps es rs ns pairs : forall i c d,
  exists d',
    score_loop ps es rs ns i pairs c d = (c + count_correct d', d ++ d')
    /\ length d' = length pairs.
Proof.
  induction pairs as [|[pred ref] rest IH]; intros i c d; simpl.
  - exists []. rewrite Nat.add_0_r, app_nil_r. auto.
  - match goal with
    | |- context [score_loop _ _ _ _ _ _ ?c' (d ++ [?v])] =>
        destruct (IH (S i) c' (d ++ [v])) as [d' [E L]]; exists (v :: d')
    end.
    rewrite E. split; [|simpl; now rewrite L].
    rewrite <- app_assoc. simpl. f_equal.
    unfold count_correct. simpl.
    destruct (judge pred ref); simpl; lia.
Qed.

Lemma for_each_length {A B} (f : A -> result B) l bs :
  for_each f l = Ok bs -> length bs = length l.
Proof.
  revert bs. induction l as [|a l IH]; intros bs; simpl.
  - intros E. now inversion E.
  - destruct (f a); simpl; [|discriminate].
    destruct (for_each f l) as [bs'|]; simpl; [|discriminate].
    intros E. inversion E. simpl. f_equal. now apply IH.
Qed.

Lemma extract_without_pattern text :
  _extract_answer text None = Ok (match text with [] => [] | _ => extract_default text end).
Proof. now destruct text. Qed.

(** [_extract_answer] raises exactly in the situations of
    [pattern_raises]. *)
Lemma extract_raises_iff text pattern :
  (exists e, _extract_answer text pattern = Raise e)
  <-> pattern_raises text pattern.
Proof.
  unfold pattern_raises, _extract_answer, group1_strip.
  destruct text as [|c text].
  { split; [intros [e E]; discriminate | intros [H _]; now elim H]. }
  destruct pattern as [[|find]|].
  - split; [intros _; split; [discriminate | now left] | eauto].
  - destruct (find (c :: text)) as [m|] eqn:Ef.
    + destruct (groups m) as [|[g|] rest] eqn:Eg.
      * split; [intros [e E]; discriminate|].
        intros [_ [H|[f [m' [r [P [F G]]]]]]]; [discriminate|].
        inversion P; subst. rewrite Ef in F. inversion F; subst.
        rewrite Eg in G. discriminate.
      * split; [intros [e E]; discriminate|].
        intros [_ [H|[f [m' [r [P [F G]]]]]]]; [discriminate|].
        inversion P; subst. rewrite Ef in F. inversion F; subst.
        rewrite Eg in G. discriminate.
      * split; [|eauto]. intros _. split; [discriminate|].
        right. exists find, m, rest. auto.
    + split; [intros [e E]; discriminate|].
      intros [_ [H|[f [m' [r [P [F G]]]]]]]; [discriminate|].
      inversion P; subst. rewrite Ef in F. discriminate.
  - split; [intros [e E]; discriminate|].
    intros [_ [H|[f [m' [r [P _]]]]]]; discriminate.
Qed.

Lemma extract_ok text pattern :
  ~ pattern_raises text pattern -> exists s, _extract_answer text pattern = Ok s.
Proof.
  intros H. destruct (_extract_answer text pattern) as [s|e] eqn:E; [eauto|].
  elim H. apply extract_raises_iff. eauto.
Qed.

Lemma for_each_ok_on {A B} (f : A -> result B) l :
  Forall (fun a => exists b, f a = Ok b) l -> exists bs, for_each f l = Ok bs.
Proof.
  induction 1 as [|a l [b Hb] _ [bs IH]]; simpl.
  - now exists [].
  - rewrite Hb, IH. simpl. now exists (b :: bs).
Qed.

End ScoreLoop.

(** The float nearest to a fraction between 0 and 1 is between 0 and 1. *)
Module FloatBounds.
Import Float.
Open Scope Z_scope.

Lemma rne_nonneg n d : 0 <= n -> 0 < d -> 0 <= rne n d.
Proof.
  intros Hn Hd. unfold rne.
  assert (0 <= n / d) by (apply Z.div_pos; lia).
  destruct (2 * (n mod d) ?= d); [destruct (Z.even (n / d))| |]; lia.
Qed.

Lemma rne_le n d k : 0 <= n -> 0 < d -> n <= k * d -> rne n d <= k.
Proof.
  intros Hn Hd Hk. unfold rne.
  assert (Hq : n / d <= k).
  { apply Z.div_le_upper_bound; lia. }
  assert (Hm := Z.mod_pos_bound n d Hd).
  assert (Hdiv := Z.div_mod n d ltac:(lia)).
  destruct (Z.eq_dec (n / d) k) as [E|NE].
  - assert (n mod d = 0) by nia.
    replace (2 * (n mod d) ?= d) with Lt; [lia|].
    symmetry. apply Z.compare_lt_iff. lia.
  - destruct (2 * (n mod d) ?= d); [destruct (Z.even (n / d))| |]; lia.
Qed.

Lemma ilog2_le_0 n d : 0 < n -> n <= d -> ilog2 n d <= 0.
Proof.
  intros Hn Hd. unfold ilog2.
  assert (Z.log2 n <= Z.log2 d) by (apply Z.log2_le_mono; lia).
  destruct (_ <? _); lia.
Qed.

Lemma rne_half n d : 0 <= n -> 0 < d -> 2 * Z.abs (rne n d * d - n) <= d.
Proof.
  intros Hn Hd. unfold rne.
  assert (Hm := Z.mod_pos_bound n d Hd).
  assert (Hdiv := Z.div_mod n d ltac:(lia)).
  set (q := n / d) in *. set (r := n mod d) in *. clearbody q r.
  assert (A1 : q * d - n = - r) by (rewrite Hdiv; ring).
  assert (A2 : (q + 1) * d - n = d - r) by (rewrite Hdiv; ring).
  destruct (Z.compare_spec (2 * r) d) as [C|C|C].
  - destruct (Z.even q); [rewrite A1 | rewrite A2]; clear A1 A2 Hdiv; lia.
  - rewrite A1. clear A1 A2 Hdiv. lia.
  - rewrite A2. clear A1 A2 Hdiv. lia.
Qed.

(** The float of a fraction [n/d] between 0 and 1 is between 0 and 1 and
    within [2^-53] of it. *)
Lemma round_unit n d :
  0 <= n -> n <= d -> 0 < d ->
  exists m e,
    round false n d = Fin false m e /\ e <= 0 /\ 0 <= m <= 2 ^ (- e)
    /\ 2 ^ 53 * Z.abs (m * d - n * 2 ^ (- e)) <= d * 2 ^ (- e).
Proof.
  intros Hn Hnd Hd. unfold round.
  destruct (n =? 0) eqn:En.
  { apply Z.eqb_eq in En. subst n.
    exists 0, 0. change (2 ^ (- 0)) with 1. repeat split; lia. }
  apply Z.eqb_neq in En.
  assert (Hl := ilog2_le_0 (n:=n) (d:=d) ltac:(lia) Hnd).
  set (e := Z.max (ilog2 n d - 52) (-1074)).
  assert (He : e <= -52) by (unfold e; lia).
  assert (He' : -1074 <= e) by (unfold e; lia).
  replace (0 <=? e) with false by (symmetry; apply Z.leb_gt; lia).
  set (m := rne (n * 2 ^ (- e)) d).
  assert (Hp : 0 < 2 ^ (- e)) by (apply Z.pow_pos_nonneg; lia).
  assert (H52 : 2 ^ 52 <= 2 ^ (- e)) by (apply Z.pow_le_mono_r; lia).
  assert (Hm0 : 0 <= m) by (apply rne_nonneg; nia).
  assert (Hm1 : m <= 2 ^ (- e)) by (apply rne_le; nia).
  assert (Hh : 2 * Z.abs (m * d - n * 2 ^ (- e)) <= d)
    by (apply rne_half; nia).
  assert (P53 : 2 ^ 53 = 2 * 2 ^ 52) by reflexivity.
  assert (Hd52 : d * 2 ^ 52 <= d * 2 ^ (- e))
    by (apply Z.mul_le_mono_nonneg_l; lia).
  destruct (m =? 0) eqn:Em.
  { apply Z.eqb_eq in Em. exists 0, 0. change (2 ^ (- 0)) with 1.
    rewrite Em in Hh. change (0 * d) with 0 in *.
    split; [reflexivity|]. split; [lia|]. split; [lia|].
    rewrite P53. remember (n * 2 ^ (- e)) as x. remember (2 ^ (- e)) as P.
    assert (n * 2 ^ 52 <= n * P) by (apply Z.mul_le_mono_nonneg_l; lia).
    lia. }
  destruct (m =? 2 ^ 53) eqn:E53.
  - apply Z.eqb_eq in E53.
    replace (971 <? e + 1) with false by (symmetry; apply Z.ltb_ge; lia).
    assert (53 <= - e).
    { destruct (Z_lt_le_dec (- e) 53) as [L|]; [|lia].
      assert (2 ^ (- e) < 2 ^ 53) by (apply Z.pow_lt_mono_r; lia). lia. }
    assert (Hs : 2 ^ (- e) = 2 * 2 ^ (- (e + 1))).
    { replace (- e) with (Z.succ (- (e + 1))) by lia.
      rewrite Z.pow_succ_r by lia. reflexivity. }
    assert (H52' : 2 ^ 52 <= 2 ^ (- (e + 1))) by (apply Z.pow_le_mono_r; lia).
    exists (2 ^ 52), (e + 1).
    split; [reflexivity|]. split; [lia|]. split; [lia|].
    rewrite E53, Hs in Hh.
    replace (2 ^ 53 * d - n * (2 * 2 ^ (- (e + 1))))
      with (2 * (2 ^ 52 * d - n * 2 ^ (- (e + 1)))) in Hh by (rewrite P53; ring).
    rewrite Z.abs_mul in Hh. change (Z.abs 2) with 2 in Hh.
    assert (d * 2 ^ 52 <= d * 2 ^ (- (e + 1)))
      by (apply Z.mul_le_mono_nonneg_l; lia).
    rewrite P53.
    remember (Z.abs (2 ^ 52 * d - n * 2 ^ (- (e + 1)))) as A.
    remember (d * 2 ^ (- (e + 1))) as dP.
    lia.
  - replace (971 <? e) with false by (symmetry; apply Z.ltb_ge; lia).
    exists m, e.
    split; [reflexivity|]. split; [lia|]. split; [lia|].
    rewrite P53.
    remember (Z.abs (m * d - n * 2 ^ (- e))) as A.
    remember (d * 2 ^ (- e)) as dP.
    lia.
Qed.

Lemma value_unit m e n d :
  e <= 0 -> 0 <= m <= 2 ^ (- e) -> 0 < d ->
  2 ^ 53 * Z.abs (m * d - n * 2 ^ (- e)) <= d * 2 ^ (- e) ->
  exists q, value (Fin false m e) = Some q
            /\ (0 <= q)%Q /\ (q <= 1)%Q /\ near q (n # Z.to_pos d).
Proof.
  intros He Hm Hd Hb.
  assert (Hp : 0 < 2 ^ (- e)) by (apply Z.pow_pos_nonneg; lia).
  eexists. split; [reflexivity|].
  assert (V : num m e = m /\ den e = 2 ^ (- e)).
  { unfold num, den. destruct (0 <=? e) eqn:E; [|auto].
    apply Z.leb_le in E. assert (e = 0) by lia. subst e.
    split; [change (2 ^ 0) with 1; lia | reflexivity]. }
  destruct V as [-> ->].
  remember (2 ^ (- e)) as P eqn:EP.
  unfold near, eps53, Qle, Qplus. cbn [Qnum Qden].
  rewrite !Pos2Z.inj_mul, !Z2Pos.id by lia.
  change (Z.pos 9007199254740992) with (2 ^ 53).
  rewrite !Z.mul_1_l, !Z.mul_1_r, Z.mul_0_l.
  remember (2 ^ 53) as K eqn:EK.
  assert (HK : 0 < K) by (subst K; reflexivity).
  repeat split; try lia; nia.
Qed.

Lemma int_truediv_unit c n :
  0 <= c -> c <= n -> 0 < n ->
  exists q, value (int_truediv c n) = Some q
            /\ (0 <= q)%Q /\ (q <= 1)%Q /\ near q (c # Z.to_pos n).
Proof.
  intros Hc Hcn Hn. unfold int_truediv.
  destruct (round_unit Hc Hcn Hn) as [m [e [-> [He [Hm Hb]]]]].
  now apply value_unit.
Qed.

End FloatBounds.

Section ScorerFacts.
Context {case : CaseMapping}.

Lemma count_correct_le d : count_correct d <= length d.
Proof. unfold count_correct. apply filter_length_le. Qed.

(** The report of a run that returns. *)
Lemma compute_ok_inv predictions references kwargs rep :
  length predictions = length references ->
  compute predictions references kwargs = Ok rep ->
  total rep = length predictions
  /\ length (details rep) = length predictions
  /\ correct rep = count_correct (details rep)
  /\ score rep =
       match predictions with
       | [] => Int 0
       | _ => Flt (Float.int_truediv (Z.of_nat (correct rep))
                     (Z.of_nat (total rep)))
       end.
Proof.
  intros L. unfold compute.
  rewrite L, Nat.eqb_refl. simpl negb. cbv iota.
  destruct (for_each _ predictions) as [es|] eqn:Ees; simpl; [|discriminate].
  apply for_each_length in Ees.
  match goal with
  | |- context [score_loop ?a ?b ?c ?d 0 ?p 0 []] =>
      destruct (score_loop_spec a b c d p 0 0 []) as [d' [E Ld]]; rewrite E
  end.
  intros H. inversion H; subst; clear H. simpl.
  rewrite length_combine, length_map, Ees, <- L, Nat.min_id in Ld.
  repeat split; auto; congruence.
Qed.

(** C1. For equal-length inputs the report returned by [compute] has
    [total == len(predictions)], [correct] equal to the number of details
    marked correct, [score == correct / total] as a float (the integer 0
    for an empty run): a number between 0 and 1, within [2^-53] of the
    exact quotient.  The call does return a report when extraction raises
    on none of the predictions, as it never does without a caller
    pattern. *)
Theorem compute_report_invariants predictions references kwargs :
  length predictions = length references ->
  (forall rep, compute predictions references kwargs = Ok rep ->
     total rep = length predictions
     /\ correct rep = count_correct (details rep)
     /\ score rep =
          match total rep with
          | O => Int 0
          | _ => Flt (Float.int_truediv (Z.of_nat (correct rep))
                        (Z.of_nat (total rep)))
          end
     /\ exists q, number_value (score rep) = Some q
                  /\ (0 <= q)%Q /\ (q <= 1)%Q
                  /\ (total rep <> 0 ->
                      near q
                        (Z.of_nat (correct rep) # Z.to_pos (Z.of_nat (total rep)))))
  /\ (Forall (fun p => ~ pattern_raises p (answer_pattern kwargs)) predictions ->
      exists rep, compute predictions references kwargs = Ok rep).
Proof.
  intros L. split.
  - intros rep E.
    destruct (compute_ok_inv _ _ _ L E) as [T [Ld [C HS]]].
    assert (Sc : score rep =
              match total rep with
              | O => Int 0
              | _ => Flt (Float.int_truediv (Z.of_nat (correct rep))
                            (Z.of_nat (total rep)))
              end).
    { rewrite HS, T. now destruct predictions. }
    repeat split; auto.
    rewrite Sc. destruct (total rep) as [|n] eqn:En.
    + exists (inject_Z 0). simpl.
      split; [reflexivity|]. split; [discriminate|]. split; [discriminate|].
      intros H. now elim H.
    + simpl number_value.
      destruct (@FloatBounds.int_truediv_unit (Z.of_nat (correct rep))
                  (Z.of_nat (S n))) as [q [V [Q0 [Q1 Qn]]]]; try lia.
      { rewrite C. pose proof (count_correct_le (details rep)). lia. }
      exists q. auto.
  - intros P. unfold compute.
    rewrite L, Nat.eqb_refl. simpl negb. cbv iota.
    match goal with
    | |- context [for_each ?f predictions] =>
        destruct (@for_each_ok_on _ _ f predictions) as [es ->]
    end.
    + eapply Forall_impl; [|exact P]. intros a Ha. cbv beta.
      destruct (extract_ok Ha) as [x ->]. simpl. eauto.
    + simpl. destruct (score_loop _ _ _ _ _ _ _ _). eauto.
Qed.

(** C2. When the two inputs differ in length [compute] raises the
    length-mismatch [ValueError] at once: nothing is extracted and no
    report, partial or not, is returned. *)
Theorem compute_length_mismatch predictions references kwargs :
  length predictions <> length references ->
  compute predictions references kwargs = Raise ValueError.
Proof.
  intros L. unfold compute.
  apply Nat.eqb_neq in L. now rewrite L.
Qed.

Lemma judge_empty ref : judge [] ref = true.
Proof.
  unfold judge. destruct ref as [|c ref]; [reflexivity|].
  simpl str_eqb. cbv iota.
  replace (Float.of_str (subst_pi [])) with (@None Float.float)
    by (vm_compute; reflexivity).
  reflexivity.
Qed.

(** C10. An empty extracted-and-normalized prediction is marked correct
    against every reference: [float("")] fails and the empty string is a
    substring of every string; hence [compute([""], [r])] reports
    [correct == 1] for every reference [r] and every option set. *)
Theorem empty_prediction_is_correct :
  (forall ref, judge [] ref = true)
  /\ (forall r kwargs,
        exists rep, compute [[]] [r] kwargs = Ok rep
                    /\ correct rep = 1
                    /\ map is_correct (details rep) = [true]
                    /\ map extracted (details rep) = [[]]).
Proof.
  split; [exact judge_empty|].
  intros r kwargs. unfold compute.
  cbn -[judge _normalize_answer Float.int_truediv].
  replace (if normalize kwargs then _normalize_answer [] else [])
    with (@nil char) by now destruct (normalize kwargs).
  rewrite judge_empty.
  eexists. split; [reflexivity|]. repeat split.
Qed.

End ScorerFacts.

(* ================================================================== *)
(** * Texts on which the case mapping plays no part *)
(* ================================================================== *)

Lemma str_eqb_eq a b : str_eqb a b = true <-> a = b.
Proof.
  revert b. induction a as [|x a IH]; intros [|y b]; simpl;
    try (split; [discriminate|discriminate]); [tauto|].
  unfold chr_eqb. rewrite andb_true_iff, N.eqb_eq, IH.
  split; [intros [-> ->]; reflexivity | intros E; inversion E; auto].
Qed.

Lemma lower_uncased_str {case : CaseMapping} s :
  forallb uncased s = true -> lower s = s.
Proof.
  intros H. apply lower_fixed. apply Forall_forall. intros c Hc.
  apply lower_uncased. rewrite forallb_forall in H. now apply H.
Qed.

Section CaseIrrelevant.
Context {case : CaseMapping}.

Lemma clean_uncased x :
  forallb uncased (Re.sub (Lit strip_class) [] x) = true ->
  clean x = @clean ascii_case x.
Proof.
  intros H. unfold clean.
  rewrite (lower_uncased_str _ H).
  now rewrite (@lower_uncased_str ascii_case _ H).
Qed.

Lemma normalize_uncased x :
  forallb uncased (Re.sub (Lit strip_class) [] x) = true ->
  _normalize_answer x = @_normalize_answer ascii_case x.
Proof.
  intros H. unfold _normalize_answer. now rewrite (clean_uncased _ H).
Qed.

(** A run on one item, with the default options *)
Lemma compute_single p r :
  p <> [] ->
  let e := _normalize_answer (extract_default p) in
  let n := _normalize_answer r in
  compute [p] [r] default_options =
  Ok {| score := Flt (Float.int_truediv
                        (Z.of_nat (if judge e n then 1 else 0)) 1);
        correct := if judge e n then 1 else 0;
        total := 1;
        details := [{| index := 0; prediction := p; extracted := e;
                       reference := r; normalized_reference := n;
                       is_correct := judge e n |}] |}.
Proof.
  intros Hp. unfold compute.
  cbn -[judge _normalize_answer Float.int_truediv extract_default].
  destruct p; [now elim Hp | reflexivity].
Qed.

End CaseIrrelevant.

(* ================================================================== *)
(** * Extraction and exceptions *)
(* ================================================================== *)

(** C3, as stated, fails: a caller pattern that does not compile (["("],
    say) makes [re.search] raise [re.error]; [_extract_answer] has no
    handler, returns no string, and [compute] is aborted by the first
    item. *)
Lemma extract_propagates_pattern_error :
  _extract_answer (u "x = 1") (Some Uncompilable) = Raise ReError
  /\ @compute ascii_case [u "x = 1"; u "y = 2"] [u "1"; u "2"]
       {| answer_pattern := Some Uncompilable; normalize := true;
          debug := false |} = Raise ReError.
Proof. split; reflexivity. Qed.

Section ExtractionTotal.
Context {case : CaseMapping}.

(** C3, amended.  Without a caller pattern extraction always returns a
    string, and so it does with a pattern that compiles and whose first
    group, when it matches with groups, took part in the match.  A pattern
    that does not compile makes every extraction from a non-empty text
    raise [re.error]; nothing catches it, and [compute] ends with that
    exception and no report. *)
Theorem extract_answer_total :
  (forall text, exists s, _extract_answer text None = Ok s)
  /\ (forall text find,
        (forall m rest, find text = Some m -> groups m <> None :: rest) ->
        exists s, _extract_answer text (Some (Compiled find)) = Ok s)
  /\ (forall text, text <> [] ->
        _extract_answer text (Some Uncompilable) = Raise ReError)
  /\ (forall (p : str) (predictions : list str) r references normalize debug,
        p <> [] -> length predictions = length references ->
        compute (p :: predictions) (r :: references)
          {| answer_pattern := Some Uncompilable; normalize := normalize;
             debug := debug |} = Raise ReError).
Proof.
  split; [|split; [|split]].
  - intros text. rewrite extract_without_pattern. eauto.
  - intros text find H.
    destruct (_extract_answer text (Some (Compiled find))) as [s|e] eqn:E;
      [eauto|].
    assert (R : pattern_raises text (Some (Compiled find)))
      by (apply extract_raises_iff; eauto).
    destruct R as [_ [R|[f [m [rest [P [F G]]]]]]]; [discriminate|].
    inversion P; subst. elim (H m rest F G).
  - intros [|c text] H; [now elim H | reflexivity].
  - intros p predictions r references nz dbg Hp L. unfold compute.
    cbn [length]. rewrite L, Nat.eqb_refl.
    destruct p; [now elim Hp | reflexivity].
Qed.

End ExtractionTotal.

(* ================================================================== *)
(** * The numeric path of the equivalence check *)
(* ================================================================== *)

(** C5, as stated, fails: the item of the end-to-end example is marked
    incorrect. *)
Lemma pi_example_marked_incorrect :
  exists rep,
    @compute ascii_case [u "I think it's about 3.14"] [u "π"] default_options
      = Ok rep
    /\ correct rep = 0 /\ correct rep <> 1.
Proof.
  eexists. split; [vm_compute; reflexivity|]. split; [reflexivity|discriminate].
Qed.

Section NumericPath.
Context {case : CaseMapping}.

Lemma judge_numeric p r a b :
  p <> r ->
  Float.of_str (subst_pi p) = Some a ->
  Float.of_str (subst_pi r) = Some b ->
  judge p r = Float.ltb (Float.abs (Float.sub a b)) Float.lit_1e_5.
Proof.
  intros N A B. unfold judge. rewrite A, B.
  destruct (str_eqb p r) eqn:E; [|reflexivity].
  apply str_eqb_eq in E. contradiction.
Qed.

(** C5, amended.  On two strings that differ and both parse after the
    substitutions π→pi and pi→3.14159, the check accepts exactly when the
    absolute difference of the two floats is below [1e-5].  In the
    end-to-end example the prediction is extracted as 3.14, the reference
    stays π and is read as 3.14159; the difference is not below [1e-5]
    and the item is marked incorrect. *)
Theorem numeric_tolerance_path :
  (forall p r a b,
      p <> r ->
      Float.of_str (subst_pi p) = Some a ->
      Float.of_str (subst_pi r) = Some b ->
      judge p r = Float.ltb (Float.abs (Float.sub a b)) Float.lit_1e_5)
  /\ exists rep,
      compute [u "I think it's about 3.14"] [u "π"] default_options = Ok rep
      /\ correct rep = 0
      /\ map extracted (details rep) = [u "3.14"]
      /\ map normalized_reference (details rep) = [u "π"]
      /\ Float.of_str (subst_pi (u "3.14"))
           = Some (Float.of_decimal false 314 (-2))
      /\ Float.of_str (subst_pi (u "π"))
           = Some (Float.of_decimal false 314159 (-5))
      /\ Float.ltb
           (Float.abs (Float.sub (Float.of_decimal false 314 (-2))
                                 (Float.of_decimal false 314159 (-5))))
           Float.lit_1e_5 = false.
Proof.
  split; [exact judge_numeric|].
  rewrite compute_single by (vm_compute; discriminate).
  replace (extract_default (u "I think it's about 3.14")) with (u "3.14")
    by (vm_compute; reflexivity).
  assert (E1 : _normalize_answer (u "3.14") = u "3.14").
  { etransitivity; [apply normalize_uncased|]; vm_compute; reflexivity. }
  assert (E2 : _normalize_answer (u "π") = u "π").
  { etransitivity; [apply normalize_uncased|]; vm_compute; reflexivity. }
  rewrite E1, E2.
  replace (judge (u "3.14") (u "π")) with false by (vm_compute; reflexivity).
  eexists. split; [reflexivity|].
  split; [reflexivity|]. split; [reflexivity|]. split; [reflexivity|].
  split; [vm_compute; reflexivity|].
  split; vm_compute; reflexivity.
Qed.

End NumericPath.

(* ================================================================== *)
(** * Normalization is not idempotent *)
(* ================================================================== *)

(** C6, as stated, fails: full-width parentheses are turned into ASCII
    ones by the first pass and stripped by the second. *)
Lemma normalize_not_idempotent :
  @_normalize_answer ascii_case (@_normalize_answer ascii_case (u "（a）"))
  <> @_normalize_answer ascii_case (u "（a）").
Proof. vm_compute. discriminate. Qed.

(** The numeric stage is not idempotent either: ["-0.000001"] is rendered
    as ["-0"], and ["-0"] as ["0"]. *)
Lemma normalize_negative_zero :
  @_normalize_answer ascii_case (u "-0.000001") = u "-0"
  /\ @_normalize_answer ascii_case (u "-0") = u "0".
Proof. split; vm_compute; reflexivity. Qed.

(* ================================================================== *)
(** * The reference answer of the dataset loader *)
(* ================================================================== *)

(** C9. On the line ["The answer is 42."] the loader returns ["42."]: the
    pattern [-?\d+\.?\d*] takes the full stop of the sentence with the
    number, although the source comment says the step removes it. *)
Lemma answer_is_keeps_full_stop :
  @_extract_final_answer ascii_case (Str (u "The answer is 42."))
    = Str (u "42.")
  /\ @_extract_final_answer ascii_case
       (Str (u "She has 2 + 3 = 5."))
    = Str (u "5.").
Proof. split; vm_compute; reflexivity. Qed.

Section Gsm8kCases.
Context {case : CaseMapping}.

(** The three outcomes of [_extract_final_answer] on a string, and the
    [except] branch on anything else. *)
Lemma extract_final_answer_cases (text : str) :
  let last_line := strip (last_item (str_split [LF] (strip text))) in
  match answer_is_number last_line with
  | Some m => _extract_final_answer (Str text) = Str m
  | None =>
      match rev (findall gsm_number_pattern text) with
      | x :: _ => _extract_final_answer (Str text) = Str x
      | [] => _extract_final_answer (Str text) = Str text
      end
  end.
Proof.
  unfold _extract_final_answer, extract_final_try. cbv zeta.
  destruct (answer_is_number _); [reflexivity|].
  now destruct (rev _).
Qed.

Lemma extract_final_answer_non_string tag :
  _extract_final_answer (NonStr tag) = NonStr tag.
Proof. reflexivity. Qed.

End Gsm8kCases.

(* ================================================================== *)
(** * Facts about the matcher *)
(* ================================================================== *)

Lemma prefixb_app l s : prefixb l (l ++ s) = true.
Proof.
  induction l as [|c l IH]; simpl; [reflexivity|].
  unfold chr_eqb. now rewrite N.eqb_refl.
Qed.



Lemma firstn_consumed (a b : str) :
  firstn (length (a ++ b) - length b) (a ++ b) = a.
Proof.
  rewrite length_app, Nat.add_sub.
  induction a as [|c a IH]; simpl; [now destruct b | now rewrite IH].
Qed.

Section ExecFacts.
Context {A : Type}.
Variable n : nat.

(** A run of literal characters matches exactly when it is a prefix of
    what remains. *)
Lemma exec_lits l s g (k : str -> option str -> option A) :
  exec n (lits l) s g k = if prefixb l s then k (skipn (length l) s) g else None.
Proof.
  unfold lits. revert s. induction l as [|c l IH]; intros s.
  - reflexivity.
  - destruct l as [|c' l].
    + simpl. destruct s as [|x s]; [reflexivity|].
      unfold is_char. destruct (chr_eqb c x); reflexivity.
    + change (lits_with is_char (c :: c' :: l))
        with (Seq (Lit (is_char c)) (lits_with is_char (c' :: l))).
      cbn [exec]. destruct s as [|x s]; [reflexivity|].
      unfold is_char at 1.
      change (prefixb (c :: c' :: l) (x :: s))
        with (chr_eqb c x && prefixb (c' :: l) s).
      destruct (chr_eqb c x); [|reflexivity].
      rewrite IH. reflexivity.
Qed.

(** A lazy repetition stops at the first place where the rest of the
    pattern matches. *)
Lemma rep_lazy_first p body rest (k : str -> option A) x :
  forallb p body = true ->
  (forall b1 c b2, body = b1 ++ c :: b2 -> k (c :: b2 ++ rest) = None) ->
  k rest = Some x ->
  rep_lazy p 0 (body ++ rest) k = Some x.
Proof.
  revert k. induction body as [|c body IH]; intros k Hp Hk Hx.
  - simpl. destruct rest; simpl; now rewrite Hx.
  - simpl in Hp. apply andb_prop in Hp as [Hc Hp].
    cbn [rep_lazy app]. rewrite (Hk [] c body eq_refl), Hc.
    apply IH; auto.
    intros b1 c' b2 E. apply (Hk (c :: b1) c' b2). now rewrite E.
Qed.

End ExecFacts.

(* ------------------------------------------------------------------ *)
(** ** What a match is made of *)

Lemma in_forallb (f : char -> bool) (l : str) c :
  forallb f l = true -> In c l -> f c = true.
Proof. intros F. rewrite forallb_forall in F. apply F. Qed.

Lemma forallb_weaken (p q : char -> bool) l :
  (forall c, p c = true -> q c = true) -> forallb p l = true -> forallb q l = true.
Proof.
  intros H. rewrite !forallb_forall. auto.
Qed.

Section Sound.
Context {A : Type}.

Lemma rep_greedy_sound p (k : str -> option A) x s : forall lo,
  rep_greedy p lo s k = Some x ->
  exists pre s1, s = pre ++ s1 /\ forallb p pre = true /\ k s1 = Some x.
Proof.
  induction s as [|c s IH]; intros lo H.
  - destruct lo; simpl in H; [|discriminate]. exists [], []. auto.
  - cbn [rep_greedy] in H.
    assert (Stop : match lo with O => k (c :: s) | S _ => None end = Some x ->
                   exists pre s1, c :: s = pre ++ s1 /\ forallb p pre = true
                                  /\ k s1 = Some x).
    { intros E. destruct lo; [|discriminate]. exists [], (c :: s). auto. }
    destruct (p c) eqn:Hc; [|auto].
    destruct (rep_greedy p (pred lo) s k) eqn:E; [|auto].
    inversion H; subst. destruct (IH _ E) as [pre [s1 [-> [Hp Hk]]]].
    exists (c :: pre), s1. simpl. rewrite Hc. auto.
Qed.

Lemma rep_lazy_sound p (k : str -> option A) x s : forall lo,
  rep_lazy p lo s k = Some x ->
  exists pre s1, s = pre ++ s1 /\ forallb p pre = true /\ k s1 = Some x.
Proof.
  induction s as [|c s IH]; intros lo H.
  - destruct lo; simpl in H; [|discriminate].
    destruct (k []) eqn:E; [|discriminate]. inversion H; subst.
    exists [], []. auto.
  - cbn [rep_lazy] in H.
    assert (More : (if p c then rep_lazy p (pred lo) s k else None) = Some x ->
                   exists pre s1, c :: s = pre ++ s1 /\ forallb p pre = true
                                  /\ k s1 = Some x).
    { destruct (p c) eqn:Hc; [|discriminate]. intros E.
      destruct (IH _ E) as [pre [s1 [-> [Hp Hk]]]].
      exists (c :: pre), s1. simpl. rewrite Hc. auto. }
    destruct lo; [|auto].
    destruct (k (c :: s)) eqn:E; [|auto].
    inversion H; subst. exists [], (c :: s). auto.
Qed.

Lemma forallb_or_l (p q : char -> bool) l :
  forallb p l = true -> forallb (fun c => p c || q c) l = true.
Proof.
  apply forallb_weaken. intros c ->. reflexivity.
Qed.

Lemma forallb_or_r (p q : char -> bool) l :
  forallb q l = true -> forallb (fun c => p c || q c) l = true.
Proof.
  apply forallb_weaken. intros c ->. apply orb_true_r.
Qed.

(** Whatever the matcher returns was returned by the continuation, called
    on what remains after a consumed prefix made of characters of the
    pattern; group 1 is as before or a part of that prefix. *)
Lemma exec_sound n r : forall s g (k : str -> option str -> option A) x,
  exec n r s g k = Some x ->
  exists pre s1 g1,
    s = pre ++ s1 /\ k s1 g1 = Some x
    /\ forallb (chars_of r) pre = true
    /\ (g1 = g \/
        exists cap, g1 = Some cap /\ infix_of cap pre
                    /\ forallb (group_chars r) cap = true).
Proof.
  induction r as [|p|a IHa b IHb|a IHa b IHb|gr lo p|a IHa| |];
    intros s g k x H; cbn [exec] in H.
  - exists [], s, g. auto.
  - destruct s as [|c s]; [discriminate|].
    destruct (p c) eqn:Hc; [|discriminate].
    exists [c], s, g. simpl. rewrite Hc. auto.
  - apply IHa in H as [pa [sa [ga [-> [H [Ca Ga]]]]]].
    apply IHb in H as [pb [sb [gb [-> [H [Cb Gb]]]]]].
    exists (pa ++ pb), sb, gb. rewrite app_assoc. split; [reflexivity|].
    split; [exact H|]. split.
    + rewrite forallb_app. cbn [chars_of].
      rewrite (forallb_or_l _ (chars_of b) _ Ca).
      exact (forallb_or_r (chars_of a) _ _ Cb).
    + destruct Gb as [->|[cap [-> [[l [r' ->]] Gc]]]].
      * destruct Ga as [->|[cap [-> [[l [r' ->]] Gc]]]]; [now left|].
        right. exists cap. split; [reflexivity|]. split.
        -- exists l, (r' ++ pb). now rewrite <- !app_assoc.
        -- exact (forallb_or_l _ (group_chars b) _ Gc).
      * right. exists cap. split; [reflexivity|]. split.
        -- exists (pa ++ l), r'. now rewrite <- !app_assoc.
        -- exact (forallb_or_r (group_chars a) _ _ Gc).
  - destruct (exec n a s g k) eqn:E.
    + inversion H; subst.
      apply IHa in E as [pa [sa [ga [-> [H' [Ca Ga]]]]]].
      exists pa, sa, ga. split; [reflexivity|]. split; [exact H'|]. split.
      * exact (forallb_or_l _ (chars_of b) _ Ca).
      * destruct Ga as [->|[cap [-> [HS Gc]]]]; [now left|].
        right. exists cap. split; [reflexivity|]. split; [exact HS|].
        exact (forallb_or_l _ (group_chars b) _ Gc).
    + apply IHb in H as [pb [sb [gb [-> [H' [Cb Gb]]]]]].
      exists pb, sb, gb. split; [reflexivity|]. split; [exact H'|]. split.
      * exact (forallb_or_r (chars_of a) _ _ Cb).
      * destruct Gb as [->|[cap [-> [HS Gc]]]]; [now left|].
        right. exists cap. split; [reflexivity|]. split; [exact HS|].
        exact (forallb_or_r (group_chars a) _ _ Gc).
  - destruct gr.
    + apply rep_greedy_sound in H as [pre [s1 [-> [Hp Hk]]]].
      exists pre, s1, g. auto.
    + apply rep_lazy_sound in H as [pre [s1 [-> [Hp Hk]]]].
      exists pre, s1, g. auto.
  - apply IHa in H as [pa [sa [ga [-> [H [Ca _]]]]]].
    rewrite firstn_consumed in H.
    exists pa, sa, (Some pa). split; [reflexivity|]. split; [exact H|].
    split; [exact Ca|]. right. exists pa. split; [reflexivity|].
    split; [|exact Ca]. exists [], []. now rewrite app_nil_r.
  - destruct (Nat.eqb (length s) n); [|discriminate]. exists [], s, g. auto.
  - assert (k s g = Some x).
    { destruct s as [|c [|c' s]]; [exact H| |discriminate].
      destruct (chr_eqb c LF); [exact H | discriminate]. }
    exists [], s, g. auto.
Qed.

End Sound.

(** What a match lists as its item lies in the text and is made of the
    characters the pattern allows there. *)
Lemma match_here_sound n r s m :
  match_here n r s = Some m ->
  exists pre s1, s = pre ++ s1 /\ whole m = pre
    /\ infix_of (item m) pre /\ forallb (item_chars r) (item m) = true.
Proof.
  unfold match_here. intros H.
  apply exec_sound in H as [pre [s1 [g1 [-> [H [Cp G]]]]]].
  rewrite firstn_consumed in H. inversion H; subst m; clear H.
  exists pre, s1. split; [reflexivity|]. split; [reflexivity|].
  unfold item, item_chars. cbn [groups whole].
  destruct (has_group r).
  - destruct G as [->|[cap [-> [HS Gc]]]].
    + split; [exists [], pre; reflexivity | reflexivity].
    + auto.
  - split; [|exact Cp]. exists [], []. now rewrite app_nil_r.
Qed.

Lemma infix_app a l t r : infix_of a t -> infix_of a (l ++ t ++ r).
Proof.
  intros [x [y ->]]. exists (l ++ x), (y ++ r). now rewrite <- !app_assoc.
Qed.

Lemma infix_trans a b c : infix_of a b -> infix_of b c -> infix_of a c.
Proof.
  intros H [l [r ->]]. now apply infix_app.
Qed.

Lemma infix_refl a : infix_of a a.
Proof.
  exists [], []. now rewrite app_nil_r.
Qed.

Lemma infix_nil t : infix_of [] t.
Proof.
  exists [], t. reflexivity.
Qed.

Lemma infix_cons a c t : infix_of a t -> infix_of a (c :: t).
Proof.
  intros [l [r ->]]. exists (c :: l), r. reflexivity.
Qed.

Lemma search_from_sound n r s m :
  search_from n r s = Some m ->
  infix_of (item m) s /\ forallb (item_chars r) (item m) = true.
Proof.
  induction s as [|c s IH]; cbn [search_from]; intros H.
  - destruct (match_here n r []) eqn:E; [|discriminate]. inversion H; subst.
    apply match_here_sound in E as [pre [s1 [E [_ [HS C]]]]].
    split; [|exact C]. rewrite E.
    apply (infix_trans HS). exists [], s1. reflexivity.
  - destruct (match_here n r (c :: s)) eqn:E.
    + inversion H; subst.
      apply match_here_sound in E as [pre [s1 [E [_ [HS C]]]]].
      split; [|exact C]. rewrite E.
      apply (infix_trans HS). exists [], s1. reflexivity.
    + destruct (IH H) as [HS C]. split; [|exact C]. now apply infix_cons.
Qed.

Lemma search_sound r text m :
  search r text = Some m ->
  infix_of (item m) text /\ forallb (item_chars r) (item m) = true.
Proof.
  apply search_from_sound.
Qed.





Lemma boxed_match_here n body post :
  forallb boxed_body body = true ->
  match_here n boxed_pattern (boxed_open ++ body ++ u "}" ++ post)
  = Some {| whole := boxed_open ++ body ++ u "}"; groups := [Some body] |}.
Proof.
  intros Hb. unfold match_here.
  change boxed_pattern
    with (Seq (lits boxed_open)
            (Seq (Group (Rep false 0 dot)) (Lit (is_char (ch "}"))))).
  cbn [exec has_group orb]. rewrite exec_lits, prefixb_app.
  assert (Sk : forall t, skipn (length boxed_open) (boxed_open ++ t) = t)
    by reflexivity.
  rewrite Sk.
  erewrite rep_lazy_first with (p := dot); [reflexivity| | |].
  - apply forallb_forall. intros c Hc. rewrite forallb_forall in Hb.
    specialize (Hb c Hc). unfold boxed_body in Hb. now apply andb_prop in Hb.
  - intros b1 c b2 E. cbn [exec].
    rewrite forallb_forall in Hb. specialize (Hb c).
    unfold boxed_body in Hb. unfold is_char.
    assert (In c body) by (rewrite E; apply in_elt).
    apply Hb in H. apply andb_prop in H as [_ H].
    apply negb_true_iff in H. unfold chr_eqb in *.
    rewrite N.eqb_sym. now rewrite H.
  - change (u "}" ++ post) with (ch "}" :: post). cbn [exec].
    unfold is_char, chr_eqb. rewrite N.eqb_refl.
    rewrite firstn_consumed.
    replace (boxed_open ++ body ++ ch "}" :: post)
      with ((boxed_open ++ body ++ u "}") ++ post)
      by (now rewrite <- !app_assoc).
    rewrite firstn_consumed.
    rewrite orb_true_r. reflexivity.
Qed.


(* ================================================================== *)
(** * The order of the extraction stages *)
(* ================================================================== *)


Lemma up_to_brace_some s : forall b,
  up_to_brace s = Some b ->
  exists post, s = b ++ u "}" ++ post /\ forallb boxed_body b = true.
Proof.
  induction s as [|c s IH]; intros b H; [discriminate|].
  cbn [up_to_brace] in H.
  destruct (chr_eqb c (ch "}")) eqn:E1.
  - inversion H; subst. apply N.eqb_eq in E1. subst c.
    exists s. split; reflexivity.
  - destruct (chr_eqb c LF) eqn:E2; [discriminate|].
    destruct (up_to_brace s) as [b'|]; [|discriminate].
    inversion H; subst. destruct (IH b' eq_refl) as [post [-> F]].
    exists post. split; [reflexivity|].
    cbn [forallb]. rewrite F. unfold boxed_body, dot. now rewrite E1, E2.
Qed.

Lemma up_to_brace_none {A} s (k : str -> option A) :
  up_to_brace s = None ->
  k [] = None ->
  (forall c t, chr_eqb c (ch "}") = false -> k (c :: t) = None) ->
  rep_lazy dot 0 s k = None.
Proof.
  intros H K0 K. induction s as [|c s IH]; [cbn [rep_lazy]; now rewrite K0|].
  cbn [up_to_brace] in H. cbn [rep_lazy pred].
  destruct (chr_eqb c (ch "}")) eqn:E; [discriminate|].
  rewrite (K c s E).
  unfold dot. destruct (chr_eqb c LF); [reflexivity|]. cbn [negb].
  destruct (up_to_brace s); [discriminate|]. now apply IH.
Qed.

Lemma prefixb_skipn l s : prefixb l s = true -> s = l ++ skipn (length l) s.
Proof.
  revert s. induction l as [|c l IH]; intros s H; [reflexivity|].
  destruct s as [|x s]; [discriminate|]. simpl in H.
  apply andb_prop in H as [E H]. apply N.eqb_eq in E. subst x.
  simpl. f_equal. now apply IH.
Qed.

(** What the boxed pattern finds at the head of a text *)
Lemma boxed_here n s :
  option_map item (match_here n boxed_pattern s)
  = if prefixb boxed_open s
    then up_to_brace (skipn (length boxed_open) s) else None.
Proof.
  destruct (prefixb boxed_open s) eqn:P.
  - rewrite (prefixb_skipn _ _ P) at 1.
    destruct (up_to_brace (skipn (length boxed_open) s)) as [b|] eqn:U.
    + apply up_to_brace_some in U as [post [-> F]].
      now rewrite (boxed_match_here n b post F).
    + unfold match_here.
      change boxed_pattern
        with (Seq (lits boxed_open)
                (Seq (Group (Rep false 0 dot)) (Lit (is_char (ch "}"))))).
      cbn [exec]. rewrite exec_lits, prefixb_app.
      rewrite skipn_app, skipn_all, Nat.sub_diag. cbn [app skipn].
      rewrite up_to_brace_none; [reflexivity|exact U|reflexivity|].
      intros c t E. unfold is_char.
      rewrite (N.eqb_sym (ch "}") c : chr_eqb (ch "}") c = chr_eqb c (ch "}")).
      now rewrite E.
  - unfold match_here.
    change boxed_pattern
      with (Seq (lits boxed_open)
              (Seq (Group (Rep false 0 dot)) (Lit (is_char (ch "}"))))).
    cbn [exec]. now rewrite exec_lits, P.
Qed.

Lemma boxed_search_from n s :
  option_map item (search_from n boxed_pattern s) = first_boxed s.
Proof.
  induction s as [|c s IH].
  - reflexivity.
  - cbn [search_from first_boxed]. rewrite <- (boxed_here n (c :: s)).
    destruct (match_here n boxed_pattern (c :: s)); [reflexivity | exact IH].
Qed.

Lemma boxed_search_spec text :
  option_map item (search boxed_pattern text) = first_boxed text.
Proof. apply boxed_search_from. Qed.


Lemma first_boxed_none text :
  first_boxed text = None -> search boxed_pattern text = None.
Proof.
  rewrite <- boxed_search_spec. now destruct (search boxed_pattern text).
Qed.



(* ================================================================== *)
(** * The last stages of extraction *)
(* ================================================================== *)

Section GreedyFacts.
Context {A : Type}.




End GreedyFacts.






(** The last line is made of characters of the text. *)
Lemma lstrip_by_incl p s c : In c (lstrip_by p s) -> In c s.
Proof.
  induction s as [|x s IH]; simpl; auto.
  destruct (p x); auto.
Qed.

Lemma rstrip_by_incl p s c : In c (rstrip_by p s) -> In c s.
Proof.
  unfold rstrip_by. rewrite <- in_rev. intros H.
  apply lstrip_by_incl in H. now apply in_rev.
Qed.

Lemma strip_incl s c : In c (strip s) -> In c s.
Proof.
  unfold strip. intros H. apply rstrip_by_incl in H.
  now apply lstrip_by_incl in H.
Qed.







(* ================================================================== *)
(** * The steps of normalization as list functions *)
(* ================================================================== *)

(** Step 1 is a filter. *)
Lemma sub_class_filter p s :
  Re.sub (Lit p) [] s = filter (fun c => negb (p c)) s.
Proof.
  unfold Re.sub. generalize (length s) as n. intros n.
  induction s as [|c s IH]; [reflexivity|].
  cbn [sub_from filter]. unfold match_here. cbn [exec has_group].
  destruct (p c); cbn [negb].
  - replace (length (c :: s) - length s) with 1 by (cbn [length]; lia).
    cbn [firstn whole app length]. exact IH.
  - now rewrite IH.
Qed.

Lemma lstrip_by_length p s : length (lstrip_by p s) <= length s.
Proof.
  induction s as [|c s IH]; simpl; auto.
  destruct (p c); simpl; lia.
Qed.

Lemma run_cons_true p c s : p c = true -> run p (c :: s) = S (run p s).
Proof.
  intros H. unfold run. cbn [lstrip_by length]. rewrite H.
  pose proof (lstrip_by_length p s). lia.
Qed.

Lemma run_cons_false p c s : p c = false -> run p (c :: s) = 0.
Proof. intros H. unfold run. cbn [lstrip_by]. rewrite H. lia. Qed.

(** A greedy repetition followed by nothing that can fail takes the whole
    run. *)
Lemma rep_greedy_run {B} p (F : str -> B) s : forall lo,
  rep_greedy p lo s (fun s1 => Some (F s1)) =
  if lo <=? run p s then Some (F (lstrip_by p s)) else None.
Proof.
  induction s as [|c s IH]; intros lo.
  - destruct lo; reflexivity.
  - cbn [rep_greedy lstrip_by]. destruct (p c) eqn:Hc.
    + rewrite IH, (@run_cons_true p c s Hc).
      destruct lo as [|lo]; [reflexivity|]. cbn [pred].
      change (S lo <=? S (run p s)) with (lo <=? run p s).
      now destruct (lo <=? run p s).
    + rewrite (@run_cons_false p c s Hc). now destruct lo.
Qed.

Lemma spaces_match_here n c s :
  match_here n spaces_pattern (c :: s) =
  if is_space c
  then Some {| whole := c :: firstn (run is_space s) s; groups := [] |}
  else None.
Proof.
  unfold match_here, spaces_pattern. cbn [exec has_group].
  rewrite rep_greedy_run.
  destruct (is_space c) eqn:Hc.
  - rewrite (@run_cons_true _ c s Hc). cbn [Nat.leb lstrip_by]. rewrite Hc.
    do 2 f_equal.
    pose proof (lstrip_by_length is_space s).
    replace (length (c :: s) - length (lstrip_by is_space s))
      with (S (run is_space s)) by (unfold run; cbn [length]; lia).
    reflexivity.
  - now rewrite (@run_cons_false _ c s Hc).
Qed.

Lemma sub_spaces_collapse n s :
  sub_from n spaces_pattern (u " ") s 0 = collapse false s
  /\ sub_from n spaces_pattern (u " ") s (run is_space s) = collapse true s.
Proof.
  induction s as [|c s [IH0 IH1]].
  - split; reflexivity.
  - assert (E0 : sub_from n spaces_pattern (u " ") (c :: s) 0
                 = collapse false (c :: s)).
    { cbn [sub_from collapse]. rewrite spaces_match_here.
      destruct (is_space c).
      - cbn [whole]. rewrite length_firstn.
        pose proof (lstrip_by_length is_space s).
        replace (Nat.min (run is_space s) (length s)) with (run is_space s)
          by (unfold run; lia).
        now rewrite IH1.
      - now rewrite IH0. }
    split; [exact E0|].
    destruct (is_space c) eqn:Hc.
    + rewrite (@run_cons_true _ c s Hc). cbn [sub_from collapse]. now rewrite Hc.
    + rewrite (@run_cons_false _ c s Hc), E0. cbn [collapse]. now rewrite Hc.
Qed.

Lemma sub_spaces s : Re.sub spaces_pattern (u " ") s = collapse false s.
Proof. unfold Re.sub. apply sub_spaces_collapse. Qed.

Lemma replace_char a b s : replace [a] [b] s = map (swap a b) s.
Proof.
  unfold replace. induction s as [|c s IH]; [reflexivity|].
  cbn [replace_from prefixb map length Nat.sub]. unfold swap at 1.
  destruct (chr_eqb a c); cbn [andb app]; now rewrite IH.
Qed.

Lemma replace_symbols_map s : replace_symbols s = map sym s.
Proof.
  unfold replace_symbols.
  change (u "。") with [ch "。"]. change (u ".") with [ch "."].
  change (u "，") with [ch "，"]. change (u ",") with [ch ","].
  change (u "）") with [ch "）"]. change (u ")") with [ch ")"].
  change (u "（") with [ch "（"]. change (u "(") with [ch "("].
  change (u "÷") with [ch "÷"]. change (u "/") with [ch "/"].
  change (u "×") with [ch "×"]. change (u "*") with [ch "*"].
  rewrite !replace_char, !map_map. reflexivity.
Qed.

(** [sym] moves six characters, each onto an ASCII sign. *)
Lemma sym_spec c :
  sym c = c \/ In (sym c) (u "*/(),.") /\ In c (u "×÷（），。").
Proof.
  unfold sym, swap, chr_eqb.
  destruct (N.eqb_spec (ch "×") c) as [<-|N1]; [right; vm_compute; tauto|].
  destruct (N.eqb_spec (ch "÷") c) as [<-|N2]; [right; vm_compute; tauto|].
  destruct (N.eqb_spec (ch "（") c) as [<-|N3]; [right; vm_compute; tauto|].
  destruct (N.eqb_spec (ch "）") c) as [<-|N4]; [right; vm_compute; tauto|].
  destruct (N.eqb_spec (ch "，") c) as [<-|N5]; [right; vm_compute; tauto|].
  destruct (N.eqb_spec (ch "。") c) as [<-|N6]; [right; vm_compute; tauto|].
  now left.
Qed.

Lemma sym_space c : is_space (sym c) = is_space c.
Proof.
  destruct (sym_spec c) as [->|[H1 H2]]; [reflexivity|].
  assert (A : forallb (fun x => negb (is_space x)) (u "*/(),.") = true)
    by (vm_compute; reflexivity).
  assert (B : forallb (fun x => negb (is_space x)) (u "×÷（），。") = true)
    by (vm_compute; reflexivity).
  apply (in_forallb _ _ _ A), negb_true_iff in H1.
  apply (in_forallb _ _ _ B), negb_true_iff in H2.
  now rewrite H1, H2.
Qed.

Lemma sym_sym c : sym (sym c) = sym c.
Proof.
  destruct (sym_spec c) as [E|[H1 _]]; [now rewrite !E|].
  assert (A : forallb (fun x => N.eqb (sym x) x) (u "*/(),.") = true)
    by (vm_compute; reflexivity).
  apply (in_forallb _ _ _ A) in H1. now apply N.eqb_eq in H1.
Qed.

(* ------------------------------------------------------------------ *)
(** ** Trimming *)

Lemma lstrip_by_suffix p s : exists h, s = h ++ lstrip_by p s.
Proof.
  induction s as [|c s [h IH]]; [now exists []|].
  simpl. destruct (p c); [|now exists []].
  exists (c :: h). simpl. now f_equal.
Qed.

Lemma rstrip_by_prefix p s : exists t, s = rstrip_by p s ++ t.
Proof.
  unfold rstrip_by. destruct (lstrip_by_suffix p (rev s)) as [h E].
  exists (rev h). rewrite <- rev_app_distr, <- E. now rewrite rev_involutive.
Qed.

Lemma lstrip_by_head p s : head_free p (lstrip_by p s) = true.
Proof.
  induction s as [|c s IH]; [reflexivity|].
  simpl. destruct (p c) eqn:E; [exact IH|]. simpl. now rewrite E.
Qed.

Lemma lstrip_by_fixed p s : head_free p s = true -> lstrip_by p s = s.
Proof.
  destruct s as [|c s]; [reflexivity|]. simpl.
  intros H. apply negb_true_iff in H. now rewrite H.
Qed.

Lemma head_free_prefix p s t : head_free p (s ++ t) = true -> head_free p s = true.
Proof. now destruct s. Qed.

Lemma strip_strip s : strip (strip s) = strip s.
Proof.
  unfold strip.
  set (a := lstrip_by is_space s).
  assert (Ha : head_free is_space a = true) by apply lstrip_by_head.
  assert (L : lstrip_by is_space (rstrip_by is_space a) = rstrip_by is_space a).
  { apply lstrip_by_fixed.
    destruct (rstrip_by_prefix is_space a) as [t E].
    rewrite E in Ha. now apply head_free_prefix in Ha. }
  rewrite L. unfold rstrip_by. rewrite rev_involutive.
  f_equal. apply lstrip_by_fixed. apply lstrip_by_head.
Qed.

Lemma lstrip_by_map p (f : char -> char) s :
  (forall c, p (f c) = p c) ->
  lstrip_by p (map f s) = map f (lstrip_by p s).
Proof.
  intros H. induction s as [|c s IH]; [reflexivity|].
  simpl. rewrite H. now destruct (p c).
Qed.

Lemma strip_map f s :
  (forall c, is_space (f c) = is_space c) -> strip (map f s) = map f (strip s).
Proof.
  intros H. unfold strip, rstrip_by.
  now rewrite lstrip_by_map, <- map_rev, lstrip_by_map, map_rev.
Qed.

Lemma collapse_map f b s :
  (forall c, is_space (f c) = is_space c) -> f 32%N = 32%N ->
  collapse b (map f s) = map f (collapse b s).
Proof.
  intros H H32. revert b. induction s as [|c s IH]; intros b; [reflexivity|].
  simpl. rewrite H. destruct (is_space c) eqn:E.
  - destruct b; simpl; rewrite IH; [reflexivity|]. now rewrite H32.
  - simpl. now rewrite IH.
Qed.

Lemma single_collapse b s : single b (collapse b s) = true.
Proof.
  revert b. induction s as [|c s IH]; intros b; [reflexivity|].
  simpl. destruct (is_space c) eqn:E.
  - destruct b; [apply IH|]. simpl. apply IH.
  - simpl. rewrite E. apply IH.
Qed.

Lemma collapse_single b s : single b s = true -> collapse b s = s.
Proof.
  revert b. induction s as [|c s IH]; intros b; [reflexivity|].
  simpl. destruct (is_space c).
  - intros H. apply andb_prop in H as [H H2]. apply andb_prop in H as [H0 H1].
    apply negb_true_iff in H0. subst b. apply N.eqb_eq in H1. subst c.
    f_equal. now apply IH.
  - intros H. f_equal. now apply IH.
Qed.

Lemma single_lstrip s : forall b,
  single b s = true -> single false (lstrip_by is_space s) = true.
Proof.
  induction s as [|c s IH]; intros b; [reflexivity|].
  simpl. destruct (is_space c) eqn:E.
  - intros H. apply andb_prop in H as [_ H]. now apply (IH true).
  - intros H. simpl. now rewrite E.
Qed.

Lemma single_prefix s t : forall b,
  single b (s ++ t) = true -> single b s = true.
Proof.
  induction s as [|c s IH]; intros b; [reflexivity|].
  simpl. destruct (is_space c).
  - intros H. apply andb_prop in H as [H H2]. rewrite H. now apply IH.
  - apply IH.
Qed.

Lemma single_strip s b : single b s = true -> single false (strip s) = true.
Proof.
  intros H. unfold strip. apply single_lstrip in H.
  destruct (rstrip_by_prefix is_space (lstrip_by is_space s)) as [t E].
  rewrite E in H. now apply single_prefix in H.
Qed.

(** Step 3 leaves its own results as they are, and commutes with
    step 4. *)
Lemma tidy_fixed z :
  strip (collapse false (strip (collapse false z))) = strip (collapse false z).
Proof.
  rewrite collapse_single; [apply strip_strip|].
  apply single_strip with (b := false). apply single_collapse.
Qed.

Lemma tidy_sym z :
  strip (collapse false (map sym z)) = map sym (strip (collapse false z)).
Proof.
  rewrite collapse_map by (try reflexivity; apply sym_space).
  apply strip_map. apply sym_space.
Qed.

Lemma collapse_incl b s c : In c (collapse b s) -> c = 32%N \/ In c s.
Proof.
  revert b. induction s as [|x s IH]; intros b; simpl; [tauto|].
  destruct (is_space x).
  - destruct b; simpl.
    + intros H. apply IH in H. tauto.
    + intros [<-|H]; [now left|]. apply IH in H. tauto.
  - simpl. intros [<-|H]; [tauto|]. apply IH in H. tauto.
Qed.

Lemma filter_fixed {A} (f : A -> bool) l : forallb f l = true -> filter f l = l.
Proof.
  induction l as [|a l IH]; [reflexivity|].
  simpl. intros H. apply andb_prop in H as [Ha Hl]. rewrite Ha. f_equal. auto.
Qed.

Section Idempotence.
Context {case : CaseMapping}.

Lemma normalize_unfold x :
  x <> [] -> _normalize_answer x = numeric_stage (clean x).
Proof. destruct x; [congruence | reflexivity]. Qed.

Lemma clean_form x :
  clean x =
  map sym (strip (collapse false
                    (lower (filter (fun c => negb (strip_class c)) x)))).
Proof.
  unfold clean. now rewrite sub_class_filter, sub_spaces, replace_symbols_map.
Qed.

(** The cleaned text is in lower case. *)
Lemma clean_lower x : lower (clean x) = clean x.
Proof.
  rewrite clean_form. apply lower_fixed. apply Forall_forall. intros c Hc.
  apply in_map_iff in Hc as [c0 [<- Hc0]].
  assert (F : lower [c0] = [c0]).
  { apply strip_incl in Hc0. apply collapse_incl in Hc0 as [->|Hc0].
    - now apply lower_uncased.
    - revert c0 Hc0. apply Forall_forall. apply lower_fixed. apply lower_lower. }
  destruct (sym_spec c0) as [->|[H1 _]]; [exact F|].
  apply lower_uncased.
  assert (A : forallb uncased (u "*/(),.") = true) by (vm_compute; reflexivity).
  exact (in_forallb _ _ _ A H1).
Qed.

(** Cleaning a cleaned text that holds none of the characters of step 1
    changes nothing. *)
Lemma clean_clean x :
  forallb (fun c => negb (strip_class c)) (clean x) = true ->
  clean (clean x) = clean x.
Proof.
  intros H. rewrite (clean_form (clean x)).
  rewrite (filter_fixed _ _ H), clean_lower.
  rewrite clean_form at 1.
  rewrite tidy_sym, tidy_fixed, map_map.
  rewrite clean_form. apply map_ext. apply sym_sym.
Qed.

End Idempotence.

(* ================================================================== *)
(** * Signed decimal numbers *)
(* ================================================================== *)

(** A greedy repetition gives back nothing when what follows cannot start
    with a character of the class. *)
Lemma rep_greedy_all {B} p (k : str -> option B) s :
  (forall c t, p c = true -> k (c :: t) = None) ->
  forall lo,
    rep_greedy p lo s k =
    if lo <=? run p s then k (lstrip_by p s) else None.
Proof.
  intros Hk. induction s as [|c s IH]; intros lo.
  - destruct lo; reflexivity.
  - cbn [rep_greedy lstrip_by]. destruct (p c) eqn:Hc.
    + rewrite IH, (@run_cons_true p c s Hc).
      destruct lo as [|lo].
      * cbn [pred Nat.leb]. rewrite (Hk c s Hc).
        now destruct (k (lstrip_by p s)).
      * cbn [pred]. change (S lo <=? S (run p s)) with (lo <=? run p s).
        destruct (lo <=? run p s); [|reflexivity].
        now destruct (k (lstrip_by p s)).
    + rewrite (@run_cons_false p c s Hc). now destruct lo.
Qed.

Lemma numeric_pattern_unfold :
  numeric_pattern =
  Seq Bol (Seq (Opt (Lit (in_chars (u "-+")))) (Seq (Rep true 1 numchar) Eol)).
Proof. reflexivity. Qed.

Lemma numeric_match_iff s :
  Re.match_ numeric_pattern s <> None <-> signed_decimal s = true.
Proof.
  unfold Re.match_, match_here. rewrite numeric_pattern_unfold.
  cbn [exec Opt has_group orb]. rewrite Nat.eqb_refl.
  set (k := fun s1 : str =>
              match s1 with
              | [] => Some {| whole := firstn (length s - length s1) s; groups := [] |}
              | [c] => if chr_eqb c LF
                       then Some {| whole := firstn (length s - length s1) s;
                                    groups := [] |}
                       else None
              | _ => None
              end).
  assert (Hk : forall c t, numchar c = true -> k (c :: t) = None).
  { intros c t Hc. unfold k. destruct t; [|reflexivity].
    destruct (chr_eqb c LF) eqn:E; [|reflexivity].
    apply N.eqb_eq in E. subst c. discriminate. }
  assert (G : forall b,
             rep_greedy numchar 1 b k <> None <->
             (1 <=? run numchar b)
             && match lstrip_by numchar b with
                | [] => true
                | [c] => chr_eqb c LF
                | _ => false
                end = true).
  { intros b. rewrite (@rep_greedy_all _ numchar k b Hk).
    destruct (1 <=? run numchar b); [|split; [congruence|discriminate]].
    cbn [andb]. unfold k.
    destruct (lstrip_by numchar b) as [|c [|c' t]].
    - split; [reflexivity|discriminate].
    - destruct (chr_eqb c LF); split; congruence.
    - split; [congruence|discriminate]. }
  unfold signed_decimal. destruct s as [|c s].
  - apply (G []).
  - destruct (in_chars (u "-+") c) eqn:Hs.
    + fold k.
      assert (F : rep_greedy numchar 1 (c :: s) k = None).
      { cbn [rep_greedy].
        replace (numchar c) with false; [reflexivity|].
        unfold in_chars in Hs. cbn [existsb u] in Hs.
        apply orb_prop in Hs as [Hs|Hs]; [|apply orb_prop in Hs as [Hs|Hs];
                                           [|discriminate]];
          apply N.eqb_eq in Hs; subst c; reflexivity. }
      rewrite F. rewrite <- (G s).
      destruct (rep_greedy numchar 1 s k); split; congruence.
    + fold k. apply (G (c :: s)).
Qed.

(* ------------------------------------------------------------------ *)
(** ** Numeric re-formatting *)

Lemma of_uint_digits d : forallb Float.is_ascii_digit (Dec.of_uint d) = true.
Proof. induction d; simpl; auto. Qed.

Lemma of_Z_plain z : forallb is_minus_or_digit (Dec.of_Z z) = true.
Proof.
  assert (D : forall n, forallb is_minus_or_digit (Dec.of_N n) = true).
  { intros n. unfold Dec.of_N. apply forallb_forall. intros c Hc.
    pose proof (of_uint_digits (N.to_uint n)) as H.
    rewrite forallb_forall in H. unfold is_minus_or_digit.
    rewrite (H c Hc). apply orb_true_r. }
  unfold Dec.of_Z. destruct (z <? 0)%Z; [|apply D].
  simpl. now rewrite D.
Qed.

Section Reformat.
Context {case : CaseMapping}.

(** C7. A text that, once cleaned, is a signed decimal number from end
    to end and parses as a float is rendered again: an integral value as
    the decimal of [int(num)], which has neither a decimal point nor
    fractional zeros; any other as [str(round(num, 5))] without trailing
    zeros and without a trailing point.  So ["3.0"] becomes ["3"] and
    ["3.14159265"] becomes ["3.14159"]. *)
Theorem normalize_numeric_reformat :
  _normalize_answer (u "3.0") = u "3"
  /\ _normalize_answer (u "3.14159265") = u "3.14159"
  /\ forall x num,
      x <> [] ->
      signed_decimal (clean x) = true ->
      Float.of_str (clean x) = Some num ->
      _normalize_answer x =
        (if Float.is_integer num
         then Dec.of_Z (Float.to_int num)
         else rstrip (u ".") (rstrip (u "0") (Float.repr (Float.round5 num))))
      /\ (Float.is_integer num = true ->
          forallb is_minus_or_digit (_normalize_answer x) = true).
Proof.
  split; [|split].
  - etransitivity; [apply normalize_uncased|]; vm_compute; reflexivity.
  - etransitivity; [apply normalize_uncased|]; vm_compute; reflexivity.
  - intros x num Hx Hm Hf.
    assert (E : _normalize_answer x =
                if Float.is_integer num
                then Dec.of_Z (Float.to_int num)
                else rstrip (u ".")
                       (rstrip (u "0") (Float.repr (Float.round5 num)))).
    { unfold _normalize_answer. destruct x as [|c x]; [now elim Hx|].
      apply numeric_match_iff in Hm.
      destruct (match_ numeric_pattern (clean (c :: x))); [|now elim Hm].
      unfold reformat. rewrite Hf.
      now destruct (Float.is_integer num). }
    split; [exact E|].
    intros I. rewrite E, I. apply of_Z_plain.
Qed.

End Reformat.

(* ================================================================== *)
(** * Rendered numbers pass the cleaning steps *)
(* ================================================================== *)

Lemma lstrip_by_none p s : forallb (fun c => negb (p c)) s = true -> lstrip_by p s = s.
Proof.
  destruct s as [|c s]; [reflexivity|]. simpl.
  intros H. apply andb_true_iff in H as [H _].
  apply negb_true_iff in H. now rewrite H.
Qed.

Lemma rstrip_by_none p s : forallb (fun c => negb (p c)) s = true -> rstrip_by p s = s.
Proof.
  intros H. unfold rstrip_by. rewrite lstrip_by_none, rev_involutive; [reflexivity|].
  rewrite forallb_forall in *. intros c Hc. apply H. now apply in_rev.
Qed.

Lemma strip_none s : forallb (fun c => negb (is_space c)) s = true -> strip s = s.
Proof.
  intros H. unfold strip. rewrite lstrip_by_none by exact H. now apply rstrip_by_none.
Qed.

Lemma in_chars_In cs c : in_chars cs c = true -> In c cs.
Proof.
  unfold in_chars. rewrite existsb_exists. intros [x [I E]].
  apply N.eqb_eq in E. now subst.
Qed.

Lemma forallb_firstn (A : Type) (p : A -> bool) n l :
  forallb p l = true -> forallb p (firstn n l) = true.
Proof.
  intros H. rewrite <- (firstn_skipn n l), forallb_app in H.
  now apply andb_prop in H.
Qed.

Lemma forallb_skipn (A : Type) (p : A -> bool) n l :
  forallb p l = true -> forallb p (skipn n l) = true.
Proof.
  intros H. rewrite <- (firstn_skipn n l), forallb_app in H.
  now apply andb_prop in H.
Qed.

Lemma forallb_rstrip_by p q s :
  forallb p s = true -> forallb p (rstrip_by q s) = true.
Proof.
  rewrite !forallb_forall. intros H x I. apply H. eapply rstrip_by_incl; eauto.
Qed.

Lemma forallb_repeat (A : Type) (p : A -> bool) x n :
  p x = true -> forallb p (repeat x n) = true.
Proof.
  intros H. induction n; simpl; [reflexivity|]. now rewrite H.
Qed.

Lemma forallb_cons (A : Type) (p : A -> bool) x l :
  p x = true -> forallb p l = true -> forallb p (x :: l) = true.
Proof.
  intros H1 H2. simpl. now rewrite H1.
Qed.

Lemma forallb_app_intro (A : Type) (p : A -> bool) l1 l2 :
  forallb p l1 = true -> forallb p l2 = true -> forallb p (l1 ++ l2) = true.
Proof.
  intros H1 H2. now rewrite forallb_app, H1.
Qed.

Lemma of_N_plain n : forallb plain (Dec.of_N n) = true.
Proof.
  unfold Dec.of_N. generalize (N.to_uint n). intros d.
  induction d; simpl; auto.
Qed.

Lemma of_Z_is_plain z : forallb plain (Dec.of_Z z) = true.
Proof.
  unfold Dec.of_Z. destruct (z <? 0)%Z; [|apply of_N_plain].
  simpl. apply of_N_plain.
Qed.

Lemma format_r_plain ds p :
  forallb plain ds = true -> forallb plain (Float.format_r ds p) = true.
Proof.
  intros D. unfold Float.format_r.
  destruct (_ || _).
  - apply forallb_app_intro; [now apply forallb_firstn|].
    apply forallb_app_intro.
    + pose proof (forallb_skipn _ 1 _ D) as HS.
      destruct (skipn 1 ds); [reflexivity|].
      now apply forallb_cons.
    + apply forallb_cons; [reflexivity|].
      apply forallb_cons; [now destruct (_ <? 0)%Z|].
      destruct (_ <? 10)%Z; [apply forallb_cons; [reflexivity|]|];
        apply of_N_plain.
  - destruct (p <=? 0)%Z.
    + apply forallb_app_intro; [reflexivity|].
      apply forallb_app_intro; [now apply forallb_repeat|exact D].
    + destruct (_ <=? p)%Z.
      * apply forallb_app_intro; [exact D|].
        apply forallb_app_intro; [now apply forallb_repeat|reflexivity].
      * apply forallb_app_intro; [now apply forallb_firstn|].
        apply forallb_cons; [reflexivity|now apply forallb_skipn].
Qed.

Lemma repr_plain x : forallb plain (Float.repr x) = true.
Proof.
  destruct x as [|[]|neg m e]; try reflexivity.
  unfold Float.repr. rewrite forallb_app.
  assert (S : forallb plain (if neg then [ch "-"] else []) = true)
    by (now destruct neg).
  rewrite S. cbn [andb].
  destruct (m =? 0)%Z; [reflexivity|].
  destruct (Float.shortest _ _ _ _ _ _) as [D k].
  apply format_r_plain. apply forallb_rstrip_by, of_N_plain.
Qed.

Lemma plain_facts c :
  plain c = true ->
  uncased c = true /\ is_space c = false /\ sym c = c /\ strip_class c = false.
Proof.
  intros H. apply in_chars_In in H.
  assert (A : forallb (fun x => uncased x && negb (is_space x)
                                && N.eqb (sym x) x && negb (strip_class x))
                (u "0123456789.-+einfa") = true) by (vm_compute; reflexivity).
  apply (in_forallb _ _ _ A) in H.
  apply andb_prop in H as [H H4]. apply andb_prop in H as [H H3].
  apply andb_prop in H as [H1 H2].
  apply negb_true_iff in H2, H4. apply N.eqb_eq in H3. auto.
Qed.

Lemma single_none s : forall b,
  forallb (fun c => negb (is_space c)) s = true -> single b s = true.
Proof.
  induction s as [|c s IH]; intros b H; [reflexivity|].
  simpl in H. apply andb_prop in H as [Hc H].
  apply negb_true_iff in Hc. cbn [single]. rewrite Hc. now apply IH.
Qed.

Section PlainTexts.
Context {case : CaseMapping}.

(** A rendered number passes the cleaning steps unchanged. *)
Lemma clean_plain t : forallb plain t = true -> clean t = t.
Proof.
  intros H. rewrite clean_form.
  assert (NS : forallb (fun c => negb (is_space c)) t = true).
  { revert H. apply forallb_weaken. intros c Hc.
    destruct (plain_facts _ Hc) as [_ [-> _]]. reflexivity. }
  rewrite filter_fixed.
  2:{ revert H. apply forallb_weaken. intros c Hc.
      destruct (plain_facts _ Hc) as [_ [_ [_ ->]]]. reflexivity. }
  rewrite lower_uncased_str.
  2:{ revert H. apply forallb_weaken. intros c Hc.
      now destruct (plain_facts _ Hc) as [-> _]. }
  rewrite collapse_single by (now apply single_none).
  rewrite strip_none by exact NS.
  rewrite <- (map_id t) at 2. apply map_ext_in. intros c I.
  apply (in_forallb _ _ _ H) in I.
  now destruct (plain_facts _ I) as [_ [_ [-> _]]].
Qed.

Lemma reformat_plain a y : reformat a = Some y -> forallb plain y = true.
Proof.
  unfold reformat. destruct (Float.of_str a) as [num|]; [|discriminate].
  destruct (Float.is_integer num); intros E; inversion E; subst.
  - apply of_Z_is_plain.
  - unfold rstrip. apply forallb_rstrip_by, forallb_rstrip_by, repr_plain.
Qed.

End PlainTexts.

(* ================================================================== *)
(** * Rounding to the nearest float *)
(* ================================================================== *)

Module FloatFacts.
Import Float.
Open Scope Z_scope.

Lemma pw_pos z : 0 < pw z.
Proof. unfold pw. apply Z.pow_pos_nonneg; lia. Qed.

Lemma pw_nonneg z : 0 <= z -> pw z = 2 ^ z.
Proof. intros H. unfold pw. now rewrite Z.max_r. Qed.

Lemma pw_neg z : z <= 0 -> pw z = 1.
Proof. intros H. unfold pw. now rewrite Z.max_l. Qed.

Lemma pw_shift x y : y <= x -> pw x * pw (- y) = 2 ^ (x - y) * (pw y * pw (- x)).
Proof.
  intros H. unfold pw. rewrite <- !Z.pow_add_r by lia. f_equal. lia.
Qed.

Lemma ge_pow2_mono l l' n d :
  0 <= n -> 0 < d -> l' <= l -> ge_pow2 l n d -> ge_pow2 l' n d.
Proof.
  unfold ge_pow2. intros Hn Hd Hl H.
  pose proof (pw_pos l) as P1. pose proof (pw_pos (- l)) as P2.
  pose proof (pw_pos l') as P3. pose proof (pw_pos (- l')) as P4.
  pose proof (pw_shift Hl) as S.
  assert (K : 0 < 2 ^ (l - l')) by (apply Z.pow_pos_nonneg; lia).
  revert H P1 P2 P3 P4 S K.
  generalize (pw l) (pw (- l)) (pw l') (pw (- l')) (2 ^ (l - l')).
  intros A B C D E H P1 P2 P3 P4 S K.
  apply Z.mul_le_mono_pos_r with (p := B); [exact P2|].
  assert (X1 : d * C * B <= E * (d * C * B)) by nia.
  assert (X2 : E * (d * C * B) = d * A * D)
    by (replace (d * A * D) with (d * (A * D)) by ring; rewrite S; ring).
  assert (X3 : d * A * D <= n * B * D) by nia.
  replace (n * D * B) with (n * B * D) by ring. lia.
Qed.

Lemma ge_pow2_scale l c n d :
  0 < c -> ge_pow2 l (c * n) (c * d) <-> ge_pow2 l n d.
Proof.
  unfold ge_pow2. intros Hc.
  replace (c * d * pw l) with (c * (d * pw l)) by ring.
  replace (c * n * pw (- l)) with (c * (n * pw (- l))) by ring.
  symmetry. apply Z.mul_le_mono_pos_l. exact Hc.
Qed.

(** [ilog2 n d] is the [l] with [2^l <= n/d < 2^(l+1)]. *)
Lemma ilog2_spec n d :
  0 < n -> 0 < d ->
  ge_pow2 (ilog2 n d) n d /\ ~ ge_pow2 (ilog2 n d + 1) n d.
Proof.
  intros Hn Hd. unfold ilog2.
  set (a := Z.log2 n). set (b := Z.log2 d). set (l := a - b).
  destruct (Z.log2_spec n Hn) as [A1 A2]. fold a in A1, A2.
  destruct (Z.log2_spec d Hd) as [B1 B2]. fold b in B1, B2.
  assert (Ha : 0 <= a) by apply Z.log2_nonneg.
  assert (Hb : 0 <= b) by apply Z.log2_nonneg.
  rewrite !Z.shiftl_mul_pow2 by lia.
  fold (pw (- l)). fold (pw l).
  (* the two outer bounds *)
  assert (Lo : ge_pow2 (l - 1) n d).
  { unfold ge_pow2.
    apply Z.le_trans with (2 ^ Z.succ b * pw (l - 1)).
    - apply Z.mul_le_mono_nonneg_r; [pose proof (pw_pos (l - 1)); lia | lia].
    - apply Z.le_trans with (2 ^ a * pw (- (l - 1))).
      + unfold pw. rewrite <- !Z.pow_add_r by lia.
        apply Z.pow_le_mono_r; lia.
      + apply Z.mul_le_mono_nonneg_r; [pose proof (pw_pos (- (l - 1))); lia | lia]. }
  assert (Hi : ~ ge_pow2 (l + 1) n d).
  { unfold ge_pow2. apply Z.lt_nge.
    apply Z.lt_le_trans with (2 ^ Z.succ a * pw (- (l + 1))).
    - apply Z.mul_lt_mono_pos_r; [apply pw_pos | lia].
    - apply Z.le_trans with (2 ^ b * pw (l + 1)).
      + unfold pw. rewrite <- !Z.pow_add_r by lia.
        apply Z.pow_le_mono_r; lia.
      + apply Z.mul_le_mono_nonneg_r; [pose proof (pw_pos (l + 1)); lia | lia]. }
  destruct (n * pw (- l) <? d * pw l) eqn:E.
  - apply Z.ltb_lt in E. split; [exact Lo|].
    replace (l - 1 + 1) with l by lia. unfold ge_pow2. lia.
  - apply Z.ltb_ge in E. split; [exact E | exact Hi].
Qed.

Lemma ilog2_unique n d l :
  0 < n -> 0 < d -> ge_pow2 l n d -> ~ ge_pow2 (l + 1) n d -> ilog2 n d = l.
Proof.
  intros Hn Hd H1 H2. destruct (ilog2_spec Hn Hd) as [S1 S2].
  destruct (Z.lt_trichotomy (ilog2 n d) l) as [L|[E|L]]; [|exact E|].
  - elim S2. apply (@ge_pow2_mono l); auto; lia.
  - elim H2. apply (@ge_pow2_mono (ilog2 n d)); auto; lia.
Qed.

Lemma ilog2_scale c n d :
  0 < c -> 0 < n -> 0 < d -> ilog2 (c * n) (c * d) = ilog2 n d.
Proof.
  intros Hc Hn Hd. destruct (ilog2_spec Hn Hd) as [S1 S2].
  apply ilog2_unique; try nia.
  - now apply ge_pow2_scale.
  - now rewrite ge_pow2_scale.
Qed.

(** ** Rounding to the nearest integer *)

Lemma rne_near n d k : 0 < d -> 2 * Z.abs (n - k * d) < d -> rne n d = k.
Proof.
  intros Hd H. unfold rne.
  destruct (Z_le_gt_dec (k * d) n) as [L|G].
  - assert (Q : n / d = k) by (symmetry; apply (Z.div_unique n d k (n - k * d)); lia).
    assert (R : n mod d = n - k * d)
      by (symmetry; apply (Z.mod_unique n d k (n - k * d)); lia).
    rewrite Q, R.
    destruct (Z.compare_spec (2 * (n - k * d)) d); lia.
  - assert (Q : n / d = k - 1)
      by (symmetry; apply (Z.div_unique n d (k - 1) (n - (k - 1) * d)); lia).
    assert (R : n mod d = n - (k - 1) * d)
      by (symmetry; apply (Z.mod_unique n d (k - 1) (n - (k - 1) * d)); lia).
    rewrite Q, R.
    destruct (Z.compare_spec (2 * (n - (k - 1) * d)) d); lia.
Qed.

Lemma rne_exact k d : 0 < d -> rne (k * d) d = k.
Proof.
  intros Hd. apply rne_near; [exact Hd|].
  replace (k * d - k * d) with 0 by ring. simpl. lia.
Qed.

Lemma rne_scale c n d : 0 < c -> 0 < d -> rne (c * n) (c * d) = rne n d.
Proof.
  intros Hc Hd. unfold rne.
  rewrite Z.div_mul_cancel_l by lia.
  rewrite Z.mul_mod_distr_l by lia.
  replace (2 * (c * (n mod d))) with (c * (2 * (n mod d))) by ring.
  generalize (n / d) (2 * (n mod d)). intros q r.
  destruct (Z.compare_spec (c * r) (c * d)), (Z.compare_spec r d);
    try reflexivity; nia.
Qed.

Lemma rne_ge n d k : 0 < d -> k * d <= n -> k <= rne n d.
Proof.
  intros Hd H. unfold rne.
  assert (k <= n / d) by (apply Z.div_le_lower_bound; lia).
  destruct (2 * (n mod d) ?= d); [destruct (Z.even (n / d))| |]; lia.
Qed.

End FloatFacts.

Module RoundFacts.
Import Float FloatFacts.
Open Scope Z_scope.


Lemma round_eq s n d :
  n <> 0 ->
  round s n d =
  let e := round_exp n d in
  let m := round_man n d in
  if m =? 0 then Fin s 0 0
  else if m =? 2 ^ 53
       then if 971 <? e + 1 then Inf s else Fin s (2 ^ 52) (e + 1)
       else if 971 <? e then Inf s else Fin s m e.
Proof.
  intros Hn. unfold round, round_man, round_exp.
  replace (n =? 0) with false by (symmetry; now apply Z.eqb_neq).
  set (e := Z.max (ilog2 n d - 52) (-1074)). cbv zeta.
  assert (M : (if 0 <=? e then rne n (d * 2 ^ e) else rne (n * 2 ^ (- e)) d)
              = rne (n * pw (- e)) (d * pw e)).
  { destruct (0 <=? e) eqn:E.
    - apply Z.leb_le in E. rewrite (pw_nonneg E), pw_neg by lia.
      now rewrite Z.mul_1_r.
    - apply Z.leb_gt in E. rewrite (@pw_nonneg (- e)), pw_neg by lia.
      now rewrite Z.mul_1_r. }
  rewrite M. destruct (_ =? 0); [reflexivity|].
  destruct (_ =? 2 ^ 53); reflexivity.
Qed.

(** [2^(j+e) <= n/d] in terms of the fraction scaled by [2^e] *)
Lemma ge_pow2_shift j e n d :
  0 <= j -> ge_pow2 (j + e) n d <-> 2 ^ j * (d * pw e) <= n * pw (- e).
Proof.
  intros Hj. unfold ge_pow2.
  assert (S : pw (j + e) * pw (- e) = 2 ^ (j + e - e) * (pw e * pw (- (j + e))))
    by (apply pw_shift; lia).
  replace (j + e - e) with j in S by lia.
  pose proof (pw_pos (j + e)) as P1. pose proof (pw_pos (- (j + e))) as P2.
  pose proof (pw_pos e) as P3. pose proof (pw_pos (- e)) as P4.
  assert (K : 0 < 2 ^ j) by (apply Z.pow_pos_nonneg; lia).
  revert S P1 P2 P3 P4 K.
  generalize (pw (j + e)) (pw (- (j + e))) (pw e) (pw (- e)) (2 ^ j).
  intros A B C D E S P1 P2 P3 P4 K.
  split; intros H.
  - apply Z.mul_le_mono_pos_r with (p := B); [exact P2|].
    replace (E * (d * C) * B) with (d * (E * (C * B))) by ring.
    rewrite <- S. nia.
  - apply Z.mul_le_mono_pos_r with (p := D); [exact P4|].
    replace (d * A * D) with (d * (A * D)) by ring.
    rewrite S. nia.
Qed.

Lemma round_exp_normal n d e :
  0 < n -> 0 < d -> -1074 <= e ->
  2 ^ 52 * (d * pw e) <= n * pw (- e) -> n * pw (- e) < 2 ^ 53 * (d * pw e) ->
  round_exp n d = e.
Proof.
  intros Hn Hd He H1 H2. unfold round_exp.
  rewrite (@ilog2_unique n d (52 + e)); try lia.
  - now apply ge_pow2_shift.
  - replace (52 + e + 1) with (53 + e) by lia.
    rewrite ge_pow2_shift by lia. lia.
Qed.

Lemma round_exp_subnormal n d :
  0 < n -> 0 < d ->
  n * pw 1074 < 2 ^ 52 * d ->
  round_exp n d = -1074.
Proof.
  intros Hn Hd H. unfold round_exp.
  destruct (ilog2_spec Hn Hd) as [S1 _].
  destruct (Z_lt_le_dec (ilog2 n d) (52 + -1074)) as [L|L]; [lia|].
  exfalso. apply (@ge_pow2_mono _ (52 + -1074)) in S1; try lia.
  apply ge_pow2_shift in S1; [|lia].
  change (pw (-1074)) with 1 in S1. change (- -1074) with 1074 in S1. lia.
Qed.

(** A fraction that is a float is rounded to that float. *)
Lemma round_exact s n d m e :
  canonical m e -> 0 < n -> 0 < d ->
  n * pw (- e) = m * (d * pw e) ->
  round s n d = Fin s m e.
Proof.
  intros C Hn Hd H.
  pose proof (pw_pos e) as P1. pose proof (pw_pos (- e)) as P2.
  assert (Y : 0 < d * pw e) by nia.
  assert (E : round_exp n d = e).
  { destruct C as [[Hm He]|[Hm ->]].
    - apply round_exp_normal; try lia; rewrite H; nia.
    - apply round_exp_subnormal; try lia.
      change (- -1074) with 1074 in H. change (pw (-1074)) with 1 in *.
      rewrite H. nia. }
  rewrite round_eq by lia. cbv zeta. unfold round_man. rewrite E, H.
  rewrite rne_exact by exact Y.
  assert (Hm : 0 < m < 2 ^ 53) by (destruct C as [[? ?]|[? ?]]; lia).
  assert (He : e <= 971) by (destruct C as [[? ?]|[? ?]]; lia).
  replace (m =? 0) with false by (symmetry; apply Z.eqb_neq; lia).
  replace (m =? 2 ^ 53) with false by (symmetry; apply Z.eqb_neq; lia).
  replace (971 <? e) with false by (symmetry; apply Z.ltb_ge; lia).
  reflexivity.
Qed.

(** A fraction close enough to a float of 53 bits is rounded to it: less
    than half a unit in the last place away, and less than a quarter
    below a power of two. *)
Lemma round_near s n d m e :
  2 ^ 52 <= m < 2 ^ 53 -> -1074 <= e <= 971 -> 0 < n -> 0 < d ->
  2 * Z.abs (n * pw (- e) - m * (d * pw e)) < d * pw e ->
  (n * pw (- e) < m * (d * pw e) -> m = 2 ^ 52 -> -1074 < e ->
   4 * (m * (d * pw e) - n * pw (- e)) < d * pw e) ->
  round s n d = Fin s m e.
Proof.
  intros Hm He Hn Hd H1 H2.
  pose proof (pw_pos e) as P1. pose proof (pw_pos (- e)) as P2.
  set (X := n * pw (- e)) in *. set (Y := d * pw e) in *.
  assert (HY : 0 < Y) by (unfold Y; nia).
  assert (Fin_m : forall m', m' = m -> round_exp n d = e ->
                             round_man n d = m' -> round s n d = Fin s m e).
  { intros m' -> E M. rewrite round_eq by lia. cbv zeta. rewrite E, M.
    replace (m =? 0) with false by (symmetry; apply Z.eqb_neq; lia).
    replace (m =? 2 ^ 53) with false by (symmetry; apply Z.eqb_neq; lia).
    replace (971 <? e) with false by (symmetry; apply Z.ltb_ge; lia).
    reflexivity. }
  destruct (Z_le_gt_dec (2 ^ 52 * Y) X) as [A|B].
  - (* the fraction is in the binade of the float *)
    assert (A2 : X < 2 ^ 53 * Y).
    { assert (m * Y + Y <= 2 ^ 53 * Y) by nia. lia. }
    assert (E : round_exp n d = e)
      by exact (@round_exp_normal n d e Hn Hd (proj1 He) A A2).
    apply (Fin_m m eq_refl E). unfold round_man. rewrite E. fold X. fold Y.
    apply rne_near; [exact HY|exact H1].
  - (* the float is a power of two and the fraction is below it *)
    assert (M : m = 2 ^ 52).
    { destruct (Z.eq_dec m (2 ^ 52)) as [M|M]; [exact M|]. exfalso.
      assert ((2 ^ 52 + 1) * Y <= m * Y) by (apply Z.mul_le_mono_nonneg_r; lia).
      lia. }
    destruct (Z.eq_dec e (-1074)) as [E0|E0].
    + assert (E : round_exp n d = e).
      { subst e. apply round_exp_subnormal; try lia.
        unfold X, Y in B. change (- -1074) with 1074 in B.
        change (pw (-1074)) with 1 in B. lia. }
      apply (Fin_m m eq_refl E). unfold round_man. rewrite E. fold X. fold Y.
      apply rne_near; [exact HY|exact H1].
    + assert (Q : 4 * (m * Y - X) < Y) by (apply H2; lia).
      assert (S : pw e * pw (- (e - 1)) = 2 ^ (e - (e - 1)) * (pw (e - 1) * pw (- e)))
        by (apply pw_shift; lia).
      replace (e - (e - 1)) with 1 in S by lia. change (2 ^ 1) with 2 in S.
      pose proof (pw_pos (e - 1)) as P3. pose proof (pw_pos (- (e - 1))) as P4.
      set (X' := n * pw (- (e - 1))). set (Y' := d * pw (e - 1)).
      assert (HY' : 0 < Y') by (unfold Y'; nia).
      assert (R : X' * Y = 2 * (X * Y')).
      { unfold X', Y, X, Y'.
        replace (n * pw (- (e - 1)) * (d * pw e))
          with (n * d * (pw e * pw (- (e - 1)))) by ring.
        rewrite S. ring. }
      assert (B1 : 2 ^ 52 * Y' <= X').
      { apply Z.mul_le_mono_pos_r with (p := Y); [exact HY|].
        rewrite R. nia. }
      assert (B2 : X' < 2 ^ 53 * Y').
      { apply Z.mul_lt_mono_pos_r with (p := Y); [exact HY|].
        rewrite R. nia. }
      assert (E : round_exp n d = e - 1)
        by (apply (@round_exp_normal n d (e - 1) Hn Hd); [lia|exact B1|exact B2]).
      assert (MM : round_man n d = 2 ^ 53).
      { unfold round_man. rewrite E. fold X'. fold Y'.
        apply rne_near; [exact HY'|].
        apply Z.mul_lt_mono_pos_r with (p := Y); [exact HY|].
        rewrite Z.abs_neq by lia.
        replace (2 * - (X' - 2 ^ 53 * Y') * Y)
          with (2 * (2 ^ 53 * Y' * Y - X' * Y)) by ring.
        rewrite R. nia. }
      rewrite round_eq by lia. cbv zeta. rewrite E, MM.
      change (2 ^ 53 =? 0) with false. rewrite Z.eqb_refl. cbv iota.
      replace (e - 1 + 1) with e by lia.
      replace (971 <? e) with false by (symmetry; apply Z.ltb_ge; lia).
      now rewrite M.
Qed.

(** What [round] gives is within half a unit in the last place. *)
Lemma round_error s n d m e :
  0 < n -> 0 < d -> round s n d = Fin s m e -> m <> 0 ->
  2 * Z.abs (n * pw (- e) - m * (d * pw e)) <= d * pw e.
Proof.
  intros Hn Hd R Hm. rewrite round_eq in R by lia. cbv zeta in R.
  set (er := round_exp n d) in *.
  pose proof (pw_pos er) as P1. pose proof (pw_pos (- er)) as P2.
  assert (HY : 0 < d * pw er) by nia.
  assert (HX : 0 <= n * pw (- er)) by nia.
  pose proof (FloatBounds.rne_half HX HY) as Hh.
  fold er in Hh. unfold round_man in R. fold er in R.
  set (mr := rne (n * pw (- er)) (d * pw er)) in *.
  destruct (mr =? 0) eqn:E0; [inversion R; lia|].
  destruct (mr =? 2 ^ 53) eqn:E53.
  - destruct (971 <? er + 1); [discriminate|]. inversion R; subst m e.
    apply Z.eqb_eq in E53. rewrite E53 in Hh.
    assert (S : pw (er + 1) * pw (- er)
                = 2 ^ (er + 1 - er) * (pw er * pw (- (er + 1))))
      by (apply pw_shift; lia).
    replace (er + 1 - er) with 1 in S by lia. change (2 ^ 1) with 2 in S.
    pose proof (pw_pos (er + 1)) as P3. pose proof (pw_pos (- (er + 1))) as P4.
    set (X := n * pw (- er)) in *. set (Y := d * pw er) in *.
    set (X' := n * pw (- (er + 1))). set (Y' := d * pw (er + 1)).
    assert (HY' : 0 < Y') by (unfold Y'; nia).
    assert (Rl : X * Y' = 2 * (X' * Y)).
    { unfold X', Y, X, Y'.
      replace (n * pw (- er) * (d * pw (er + 1)))
        with (n * d * (pw (er + 1) * pw (- er))) by ring.
      rewrite S. ring. }
    assert (K1 : 2 * (2 ^ 53 * Y - X) * Y' <= Y * Y')
      by (apply Z.mul_le_mono_nonneg_r; lia).
    assert (K2 : 2 * (X - 2 ^ 53 * Y) * Y' <= Y * Y')
      by (apply Z.mul_le_mono_nonneg_r; lia).
    replace (2 * (2 ^ 53 * Y - X) * Y') with (2 * 2 ^ 53 * (Y * Y') - 2 * (X * Y'))
      in K1 by ring.
    replace (2 * (X - 2 ^ 53 * Y) * Y') with (2 * (X * Y') - 2 * 2 ^ 53 * (Y * Y'))
      in K2 by ring.
    rewrite Rl in K1, K2.
    apply Z.mul_le_mono_pos_r with (p := Y); [exact HY|].
    assert (YY : 0 < Y * Y') by nia.
    change (Z.pow_pos 2 52) with (2 ^ 52).
    destruct (Z.abs_spec (X' - 2 ^ 52 * Y')) as [[_ ->]|[_ ->]].
    + replace (2 * (X' - 2 ^ 52 * Y') * Y) with (2 * (X' * Y) - 2 ^ 53 * (Y * Y'))
        by (change (2 ^ 53) with (2 * 2 ^ 52); ring).
      replace (Y' * Y) with (Y * Y') by ring. lia.
    + replace (2 * - (X' - 2 ^ 52 * Y') * Y) with (2 ^ 53 * (Y * Y') - 2 * (X' * Y))
        by (change (2 ^ 53) with (2 * 2 ^ 52); ring).
      replace (Y' * Y) with (Y * Y') by ring. lia.
  - destruct (971 <? er); [discriminate|]. inversion R; subst m e.
    fold er. rewrite <- Z.abs_opp.
    replace (- (n * pw (- er) - mr * (d * pw er)))
      with (mr * (d * pw er) - n * pw (- er)) by ring.
    exact Hh.
Qed.

(** The sign plays no part in the rounding. *)
Lemma round_sign s s' n d m e :
  round s n d = Fin s m e -> round s' n d = Fin s' m e.
Proof.
  unfold round.
  destruct (n =? 0); [intros E; now inversion E|].
  destruct (_ =? 0); [intros E; now inversion E|].
  destruct (971 <? _); [discriminate|].
  intros E. now inversion E.
Qed.

(** [round] depends on the fraction, not on how it is written. *)
Lemma round_scale s c n d :
  0 < c -> 0 <= n -> 0 < d -> round s (c * n) (c * d) = round s n d.
Proof.
  intros Hc Hn Hd.
  destruct (Z.eq_dec n 0) as [->|N0].
  { rewrite Z.mul_0_r. reflexivity. }
  rewrite !round_eq by nia. cbv zeta.
  assert (E : round_exp (c * n) (c * d) = round_exp n d).
  { unfold round_exp. now rewrite ilog2_scale by lia. }
  assert (M : round_man (c * n) (c * d) = round_man n d).
  { unfold round_man. rewrite E.
    pose proof (pw_pos (round_exp n d)).
    replace (c * n * pw (- round_exp n d))
      with (c * (n * pw (- round_exp n d))) by ring.
    replace (c * d * pw (round_exp n d))
      with (c * (d * pw (round_exp n d))) by ring.
    apply rne_scale; nia. }
  now rewrite E, M.
Qed.

Lemma round_ratio s n d n' d' :
  0 <= n -> 0 < d -> 0 <= n' -> 0 < d' -> n * d' = n' * d ->
  round s n d = round s n' d'.
Proof.
  intros Hn Hd Hn' Hd' H.
  rewrite <- (@round_scale s d' n d) by lia.
  rewrite <- (@round_scale s d n' d') by lia.
  f_equal; lia.
Qed.

(** The shape of what [round] gives *)
Lemma round_shape s n d :
  0 <= n -> 0 < d ->
  round s n d = Fin s 0 0 \/ round s n d = Inf s
  \/ exists m e, canonical m e /\ round s n d = Fin s m e.
Proof.
  intros Hn Hd.
  destruct (Z.eq_dec n 0) as [->|N0]; [now left|].
  assert (Hn' : 0 < n) by lia.
  rewrite round_eq by lia. cbv zeta.
  set (er := round_exp n d). set (mr := round_man n d).
  pose proof (pw_pos er) as P1. pose proof (pw_pos (- er)) as P2.
  assert (HY : 0 < d * pw er) by nia.
  assert (HX : 0 <= n * pw (- er)) by nia.
  assert (M0 : 0 <= mr) by (apply FloatBounds.rne_nonneg; assumption).
  destruct (ilog2_spec Hn' Hd) as [S1 S2].
  assert (Er : -1074 <= er) by (unfold er, round_exp; lia).
  (* the mantissa is at most 2^53, and at least 2^52 above the least
     exponent *)
  assert (Up : mr <= 2 ^ 53).
  { apply FloatBounds.rne_le; try assumption.
    change (n * pw (- er) <= 2 ^ 53 * (d * pw er)).
    destruct (Z_le_gt_dec (2 ^ 53 * (d * pw er)) (n * pw (- er))) as [G|G]; [|lia].
    exfalso. apply ge_pow2_shift in G; [|lia]. apply S2.
    apply (@ge_pow2_mono (53 + er) _ n d Hn Hd); [|exact G].
    unfold er, round_exp. lia. }
  assert (Lo : -1074 < er -> 2 ^ 52 <= mr).
  { intros L. apply rne_ge; [exact HY|].
    change (2 ^ 52 * (d * pw er) <= n * pw (- er)).
    apply ge_pow2_shift; [lia|].
    apply (@ge_pow2_mono (ilog2 n d) _ n d Hn Hd); [|exact S1].
    unfold er, round_exp in *. lia. }
  destruct (mr =? 0) eqn:E0; [now left|]. apply Z.eqb_neq in E0.
  destruct (mr =? 2 ^ 53) eqn:E53.
  - apply Z.eqb_eq in E53.
    destruct (971 <? er + 1) eqn:O; [right; now left|].
    apply Z.ltb_ge in O. right. right. exists (2 ^ 52), (er + 1).
    split; [|reflexivity]. left. lia.
  - apply Z.eqb_neq in E53.
    destruct (971 <? er) eqn:O; [right; now left|].
    apply Z.ltb_ge in O. right. right. exists mr, er.
    split; [|reflexivity].
    destruct (Z.eq_dec er (-1074)) as [E|E].
    + destruct (Z_lt_le_dec mr (2 ^ 52)); [right; lia | left; lia].
    + left. assert (2 ^ 52 <= mr) by (apply Lo; lia). lia.
Qed.

(** A fraction up to [2^52] is rounded to a float whose last place is at
    most the unit. *)
Lemma round_exp_le s n d m e :
  0 <= n -> 0 < d -> n <= 2 ^ 52 * d -> round s n d = Fin s m e -> e <= 0.
Proof.
  intros Hn Hd H R.
  destruct (Z.eq_dec n 0) as [->|N0]; [inversion R; lia|].
  assert (Hn' : 0 < n) by lia.
  rewrite round_eq in R by lia. cbv zeta in R.
  destruct (ilog2_spec Hn' Hd) as [S1 _].
  assert (L : ilog2 n d <= 52).
  { destruct (Z_le_gt_dec (ilog2 n d) 52) as [L|L]; [exact L|].
    exfalso. apply (@ge_pow2_mono _ 53) in S1; try lia.
    unfold ge_pow2 in S1. change (pw 53) with (2 ^ 53) in S1.
    change (pw (Z.opp 53)) with 1 in S1. lia. }
  assert (Er : round_exp n d <= 0) by (unfold round_exp; lia).
  destruct (round_man n d =? 0); [inversion R; lia|].
  destruct (round_man n d =? 2 ^ 53) eqn:E53.
  - destruct (971 <? _); [discriminate|]. inversion R; subst.
    destruct (Z.eq_dec (round_exp n d) 0) as [E|E]; [|lia].
    exfalso. apply Z.eqb_eq in E53. unfold round_man in E53. rewrite E in E53.
    change (pw (- 0)) with 1 in E53. change (pw 0) with 1 in E53.
    rewrite !Z.mul_1_r in E53.
    assert (rne n d <= 2 ^ 52) by (apply FloatBounds.rne_le; lia). lia.
  - destruct (971 <? _); [discriminate|]. inversion R; subst. exact Er.
Qed.

(** The same for a float at the least exponent *)
Lemma round_near_sub s n d m :
  0 < m < 2 ^ 52 -> 0 < n -> 0 < d ->
  2 * Z.abs (n * pw 1074 - m * d) < d ->
  round s n d = Fin s m (-1074).
Proof.
  intros Hm Hn Hd H.
  assert (B : n * pw 1074 < 2 ^ 52 * d).
  { assert ((m + 1) * d <= 2 ^ 52 * d) by (apply Z.mul_le_mono_nonneg_r; lia).
    lia. }
  pose proof (@round_exp_subnormal n d Hn Hd B) as E.
  rewrite round_eq by lia. cbv zeta. unfold round_man. rewrite E.
  change (- -1074) with 1074. change (pw (-1074)) with 1.
  rewrite Z.mul_1_r.
  rewrite (@rne_near (n * pw 1074) d m Hd H).
  replace (m =? 0) with false by (symmetry; apply Z.eqb_neq; lia).
  replace (m =? 2 ^ 53) with false by (symmetry; apply Z.eqb_neq; lia).
  reflexivity.
Qed.

(** A fraction less than a quarter of a unit in the last place away from
    a float is rounded to it. *)
Lemma round_close s n d m e :
  canonical m e -> 0 < n -> 0 < d ->
  4 * Z.abs (n * pw (- e) - m * (d * pw e)) < d * pw e ->
  round s n d = Fin s m e.
Proof.
  intros [[Hm He]|[Hm ->]] Hn Hd H.
  - apply round_near; try assumption; lia.
  - apply round_near_sub; try assumption.
    change (- -1074) with 1074 in H. change (pw (-1074)) with 1 in H.
    rewrite Z.mul_1_r in H. lia.
Qed.

(** The sign of what [round] gives is the one it was given. *)
Lemma round_sign_eq s n d s' m e : round s n d = Fin s' m e -> s' = s.
Proof.
  unfold round.
  destruct (n =? 0); [intros E; now inversion E|].
  destruct (_ =? 0); [intros E; now inversion E|].
  destruct (971 <? _); [discriminate|].
  intros E. now inversion E.
Qed.


End RoundFacts.

(* ================================================================== *)
(** * Decimal numerals *)
(* ================================================================== *)

Module DigitFacts.
Import Float.
Open Scope Z_scope.

(** ** Trailing characters *)

Lemma lstrip_by_split p s :
  exists h, s = h ++ lstrip_by p s /\ forallb p h = true.
Proof.
  induction s as [|c s [h [E F]]]; [now exists []|].
  simpl. destruct (p c) eqn:Hc; [|now exists []].
  exists (c :: h). simpl. rewrite Hc, F. split; [now f_equal|reflexivity].
Qed.

Lemma rstrip_by_split p s :
  exists t, s = rstrip_by p s ++ t /\ forallb p t = true.
Proof.
  unfold rstrip_by. destruct (lstrip_by_split p (rev s)) as [h [E F]].
  exists (rev h). split.
  - rewrite <- rev_app_distr, <- E. now rewrite rev_involutive.
  - rewrite forallb_forall in *. intros c I. apply F. now apply in_rev.
Qed.

Lemma ends_free_rstrip p s : ends_free p (rstrip_by p s) = true.
Proof.
  unfold ends_free, rstrip_by. rewrite rev_involutive. apply lstrip_by_head.
Qed.

Lemma rstrip_by_fixed p s : ends_free p s = true -> rstrip_by p s = s.
Proof.
  intros H. unfold rstrip_by. rewrite lstrip_by_fixed by exact H.
  apply rev_involutive.
Qed.

Lemma ends_free_app p a b :
  b <> [] -> ends_free p b = true -> ends_free p (a ++ b) = true.
Proof.
  intros NE H. unfold ends_free in *. rewrite rev_app_distr.
  destruct (rev b) as [|c r] eqn:E; [|exact H].
  apply (f_equal (@rev char)) in E. rewrite rev_involutive in E. now elim NE.
Qed.

Lemma ends_free_suffix p a b :
  b <> [] -> ends_free p (a ++ b) = true -> ends_free p b = true.
Proof.
  intros NE H. unfold ends_free in *. rewrite rev_app_distr in H.
  destruct (rev b) as [|c r] eqn:E; [|exact H].
  apply (f_equal (@rev char)) in E. rewrite rev_involutive in E. now elim NE.
Qed.

Lemma ends_free_none p s :
  forallb (fun c => negb (p c)) s = true -> ends_free p s = true.
Proof.
  intros H. unfold ends_free.
  destruct (rev s) as [|c r] eqn:E; [reflexivity|]. cbn [head_free].
  rewrite forallb_forall in H. apply H. apply in_rev. rewrite E. now left.
Qed.


Lemma all_zeros t :
  forallb (in_chars (u "0")) t = true -> t = zeros (Z.of_nat (length t)).
Proof.
  unfold zeros. rewrite Nat2Z.id.
  induction t as [|c t IH]; [reflexivity|].
  cbn [forallb]. intros H. apply andb_prop in H as [Hc H].
  cbn [length repeat]. rewrite <- (IH H).
  apply in_chars_In in Hc. destruct Hc as [<-|[]]. reflexivity.
Qed.

Lemma zeros_length k : 0 <= k -> Z.of_nat (length (zeros k)) = k.
Proof. intros H. unfold zeros. rewrite repeat_length. lia. Qed.

Lemma zeros_app a b : 0 <= a -> 0 <= b -> zeros a ++ zeros b = zeros (a + b).
Proof.
  intros Ha Hb. unfold zeros. rewrite Z2Nat.inj_add by lia.
  now rewrite repeat_app.
Qed.

Lemma zeros_digits k : forallb is_ascii_digit (zeros k) = true.
Proof. unfold zeros. now apply forallb_repeat. Qed.

(** ** The value of a numeral *)

Lemma fold_digits l : forall acc,
  fold_left (fun a d => 10 * a + d) l acc
  = acc * 10 ^ Z.of_nat (length l) + Dec.to_Z l.
Proof.
  unfold Dec.to_Z.
  induction l as [|d l IH]; intros acc.
  - cbn [fold_left length]. change (10 ^ Z.of_nat 0) with 1. lia.
  - cbn [fold_left]. rewrite IH, (IH (10 * 0 + d)).
    replace (Z.of_nat (length (d :: l))) with (Z.of_nat (length l) + 1)
      by (cbn [length]; lia).
    rewrite Z.pow_add_r by lia. change (10 ^ 1) with 10. ring.
Qed.

Lemma to_Z_app a b :
  Dec.to_Z (a ++ b) = Dec.to_Z a * 10 ^ Z.of_nat (length b) + Dec.to_Z b.
Proof.
  unfold Dec.to_Z at 1. rewrite fold_left_app.
  fold (Dec.to_Z a). now rewrite fold_digits.
Qed.

Lemma to_Z_cons d l :
  Dec.to_Z (d :: l) = d * 10 ^ Z.of_nat (length l) + Dec.to_Z l.
Proof.
  change (d :: l) with ([d] ++ l). rewrite to_Z_app.
  unfold Dec.to_Z at 1. cbn [fold_left].
  replace (10 * 0 + d) with d by lia. reflexivity.
Qed.

Lemma vals_app a b : vals (a ++ b) = vals a ++ vals b.
Proof. apply map_app. Qed.

Lemma vals_length s : length (vals s) = length s.
Proof. apply length_map. Qed.

Lemma to_Z_zeros k : Dec.to_Z (vals (zeros k)) = 0.
Proof.
  unfold zeros. induction (Z.to_nat k) as [|n IH]; [reflexivity|].
  cbn [repeat vals map]. fold (vals (repeat 48%N n)).
  rewrite to_Z_cons, IH. reflexivity.
Qed.

Lemma digit_val c : is_ascii_digit c = true -> 0 <= Z.of_N c - 48 <= 9.
Proof.
  unfold is_ascii_digit. intros H. apply andb_prop in H as [H1 H2].
  apply N.leb_le in H1, H2. lia.
Qed.

Lemma to_Z_bound s :
  forallb is_ascii_digit s = true ->
  0 <= Dec.to_Z (vals s) < 10 ^ Z.of_nat (length s).
Proof.
  induction s as [|c s IH]; intros H.
  - cbn. lia.
  - cbn [forallb] in H. apply andb_prop in H as [Hc H].
    cbn [vals map]. fold (vals s). rewrite to_Z_cons, vals_length.
    specialize (IH H). pose proof (digit_val _ Hc) as V.
    replace (Z.of_nat (length (c :: s))) with (Z.of_nat (length s) + 1)
      by (cbn [length]; lia).
    rewrite Z.pow_add_r by lia. change (10 ^ 1) with 10.
    assert (0 < 10 ^ Z.of_nat (length s)) by (apply Z.pow_pos_nonneg; lia).
    nia.
Qed.

(** A numeral that starts with a digit other than zero is at least the
    power of ten of its length. *)
Lemma to_Z_lower c s :
  is_ascii_digit c = true -> c <> 48%N -> forallb is_ascii_digit s = true ->
  10 ^ Z.of_nat (length s) <= Dec.to_Z (vals (c :: s)).
Proof.
  intros Hc N0 H. cbn [vals map]. fold (vals s).
  rewrite to_Z_cons, vals_length.
  pose proof (digit_val _ Hc) as V. pose proof (to_Z_bound _ H) as B.
  assert (1 <= Z.of_N c - 48) by lia.
  assert (0 < 10 ^ Z.of_nat (length s)) by (apply Z.pow_pos_nonneg; lia).
  nia.
Qed.

(** ** [str(n)] *)

Lemma of_uint_of s : forallb is_ascii_digit s = true -> Dec.of_uint (uint_of s) = s.
Proof.
  induction s as [|c s IH]; [reflexivity|].
  cbn [forallb]. intros H. apply andb_prop in H as [Hc H].
  unfold is_ascii_digit in Hc. apply andb_prop in Hc as [H1 H2].
  apply N.leb_le in H1, H2.
  assert (C : (c = 48 \/ c = 49 \/ c = 50 \/ c = 51 \/ c = 52 \/ c = 53
               \/ c = 54 \/ c = 55 \/ c = 56 \/ c = 57)%N) by lia.
  cbn [uint_of].
  destruct C as [->|[->|[->|[->|[->|[->|[->|[->|[->| ->]]]]]]]]];
    cbn; now rewrite (IH H).
Qed.

Lemma of_uint_acc_value d : forall acc,
  fold_left (fun a x => 10 * a + x) (vals (Dec.of_uint d)) (Z.pos acc)
  = Z.pos (Pos.of_uint_acc d acc).
Proof.
  induction d; intros acc; cbn [Dec.of_uint vals map fold_left Pos.of_uint_acc];
    try reflexivity; fold (vals (Dec.of_uint d)); rewrite <- IHd; f_equal; lia.
Qed.

Lemma of_uint_value d : Dec.to_Z (vals (Dec.of_uint d)) = Z.of_N (N.of_uint d).
Proof.
  unfold Dec.to_Z, N.of_uint.
  induction d; cbn [Dec.of_uint vals map fold_left Pos.of_uint];
    try reflexivity; fold (vals (Dec.of_uint d));
    try (exact IHd);
    cbn [N.to_nat Z.of_N]; rewrite <- of_uint_acc_value; reflexivity.
Qed.

(** The digits of [n] write [n]. *)
Lemma of_N_value n : Dec.to_Z (vals (Dec.of_N n)) = Z.of_N n.
Proof.
  unfold Dec.of_N. now rewrite of_uint_value, DecimalN.Unsigned.of_to.
Qed.

Lemma of_N_digits n : forallb is_ascii_digit (Dec.of_N n) = true.
Proof. apply of_uint_digits. Qed.

Lemma unorm_uint_of s :
  forallb is_ascii_digit s = true -> no_leading_zero s = true ->
  Decimal.unorm (uint_of s) = uint_of s.
Proof.
  destruct s as [|c t]; [discriminate|]. cbn [no_leading_zero forallb].
  intros D H. apply andb_prop in D as [Dc _].
  unfold is_ascii_digit in Dc. apply andb_prop in Dc as [H1 _].
  apply N.leb_le in H1. cbn [uint_of].
  destruct (c - 48)%N as [|p] eqn:E.
  - assert (C : c = 48%N) by lia. subst c.
    cbn [negb orb N.eqb Pos.eqb] in H. destruct t; [reflexivity|discriminate].
  - do 4 (destruct p as [p|p|]; try reflexivity).
Qed.

(** A run of digits without a leading zero is the [str] of its value. *)
Lemma of_N_unique s :
  forallb is_ascii_digit s = true -> no_leading_zero s = true ->
  Dec.of_N (Z.to_N (Dec.to_Z (vals s))) = s.
Proof.
  intros D H. rewrite <- (of_uint_of _ D) at 1.
  rewrite of_uint_value, N2Z.id. unfold Dec.of_N.
  rewrite DecimalN.Unsigned.to_of, (unorm_uint_of _ D H).
  now apply of_uint_of.
Qed.

Lemma of_N_no_leading_zero n : no_leading_zero (Dec.of_N n) = true.
Proof.
  unfold Dec.of_N.
  assert (U : Decimal.unorm (N.to_uint n) = N.to_uint n).
  { rewrite <- (DecimalN.Unsigned.of_to n) at 2.
    now rewrite DecimalN.Unsigned.to_of. }
  rewrite <- U. unfold Decimal.unorm.
  pose proof (DecimalFacts.nzhead_nonzero (N.to_uint n)) as NZ.
  destruct (Decimal.nzhead (N.to_uint n)) as [|d|d|d|d|d|d|d|d|d|d];
    try reflexivity.
  now elim (NZ d).
Qed.

(** The [str] of a number above zero starts with a digit other than
    zero. *)
Lemma of_N_head n :
  (0 < n)%N -> exists c t, Dec.of_N n = c :: t /\ c <> 48%N.
Proof.
  intros Hn. pose proof (of_N_no_leading_zero n) as H.
  pose proof (of_N_value n) as V.
  destruct (Dec.of_N n) as [|c t]; [discriminate|].
  exists c, t. split; [reflexivity|]. intros ->.
  cbn [no_leading_zero] in H. rewrite N.eqb_refl in H. cbn [negb orb] in H.
  destruct t; [|discriminate]. cbn in V. lia.
Qed.

(** The length of the [str] of a number above zero *)
Lemma of_N_length n :
  (0 < n)%N ->
  10 ^ (Z.of_nat (length (Dec.of_N n)) - 1) <= Z.of_N n
    < 10 ^ Z.of_nat (length (Dec.of_N n)).
Proof.
  intros Hn. destruct (of_N_head Hn) as [c [t [E N0]]].
  pose proof (of_N_digits n) as D. pose proof (of_N_value n) as V.
  rewrite E in *. cbn [forallb] in D.
  split.
  - rewrite <- V.
    replace (Z.of_nat (length (c :: t)) - 1) with (Z.of_nat (length t))
      by (cbn [length]; lia).
    apply andb_prop in D as [Dc Dt]. now apply to_Z_lower.
  - rewrite <- V. now apply to_Z_bound.
Qed.

(** Trailing zeros multiply by a power of ten. *)
Lemma of_N_shift D k :
  0 < D -> 0 <= k ->
  Dec.of_N (Z.to_N (D * 10 ^ k)) = Dec.of_N (Z.to_N D) ++ zeros k.
Proof.
  intros HD Hk.
  set (s := Dec.of_N (Z.to_N D) ++ zeros k).
  assert (V : Dec.to_Z (vals s) = D * 10 ^ k).
  { unfold s. rewrite vals_app, to_Z_app, vals_length, to_Z_zeros.
    rewrite zeros_length by exact Hk. rewrite of_N_value, Z2N.id by lia. lia. }
  rewrite <- V. apply of_N_unique.
  - unfold s. apply forallb_app_intro; [apply of_N_digits|apply zeros_digits].
  - unfold s. pose proof (@of_N_head (Z.to_N D) ltac:(lia)) as [c [t [E N0]]].
    rewrite E. cbn [app no_leading_zero].
    apply N.eqb_neq in N0. now rewrite N0.
Qed.

(** The digits of a number above zero without their trailing zeros *)
Lemma rstrip_zeros D :
  0 < D ->
  exists z,
    0 <= z
    /\ Dec.of_N (Z.to_N D) = rstrip (u "0") (Dec.of_N (Z.to_N D)) ++ zeros z
    /\ D = Dec.to_Z (vals (rstrip (u "0") (Dec.of_N (Z.to_N D)))) * 10 ^ z
    /\ rstrip (u "0") (Dec.of_N (Z.to_N D)) <> []
    /\ forallb is_ascii_digit (rstrip (u "0") (Dec.of_N (Z.to_N D))) = true
    /\ no_leading_zero (rstrip (u "0") (Dec.of_N (Z.to_N D))) = true
    /\ ends_free (in_chars (u "0")) (rstrip (u "0") (Dec.of_N (Z.to_N D))) = true.
Proof.
  intros HD. unfold rstrip.
  set (all := Dec.of_N (Z.to_N D)).
  destruct (rstrip_by_split (in_chars (u "0")) all) as [t [E F]].
  set (ds := rstrip_by (in_chars (u "0")) all) in *.
  apply all_zeros in F.
  exists (Z.of_nat (length t)).
  assert (V : Dec.to_Z (vals all) = D)
    by (unfold all; rewrite of_N_value; lia).
  assert (Dg : forallb is_ascii_digit ds = true)
    by (apply forallb_rstrip_by, of_N_digits).
  assert (NE : ds <> []).
  { intros E0. rewrite E0 in E. cbn [app] in E. rewrite E, F, to_Z_zeros in V. lia. }
  split; [lia|]. split; [now rewrite <- F|].
  split; [|split; [exact NE|split; [exact Dg|split]]].
  - rewrite <- V, E at 1. rewrite vals_app, to_Z_app, vals_length.
    rewrite F at 2. rewrite to_Z_zeros. lia.
  - pose proof (of_N_no_leading_zero (Z.to_N D)) as L. fold all in L.
    destruct ds as [|c r] eqn:Eds; [now elim NE|].
    rewrite E in L. cbn [app no_leading_zero] in *.
    destruct (negb (c =? 48)%N) eqn:Ec; [reflexivity|].
    cbn [orb] in *. destruct r; [reflexivity|discriminate].
  - apply ends_free_rstrip.
Qed.

End DigitFacts.

(* ================================================================== *)
(** * Reading a numeral in fixed notation *)
(* ================================================================== *)

Module ParseFacts.
Import Float FloatFacts RoundFacts DigitFacts.
Open Scope Z_scope.

Lemma p10_pos z : 0 < p10 z.
Proof. unfold p10. apply Z.pow_pos_nonneg; lia. Qed.

Lemma p10_nonneg z : 0 <= z -> p10 z = 10 ^ z.
Proof. intros H. unfold p10. now rewrite Z.max_r. Qed.

Lemma p10_neg z : z <= 0 -> p10 z = 1.
Proof. intros H. unfold p10. now rewrite Z.max_l. Qed.

Lemma p10_shift x y : y <= x -> p10 x * p10 (- y) = 10 ^ (x - y) * (p10 y * p10 (- x)).
Proof.
  intros H. unfold p10. rewrite <- !Z.pow_add_r by lia. f_equal. lia.
Qed.

Lemma pow10_num_eq D k : pow10_num D k = D * p10 k.
Proof.
  unfold pow10_num. destruct (0 <=? k) eqn:E.
  - apply Z.leb_le in E. now rewrite p10_nonneg.
  - apply Z.leb_gt in E. rewrite p10_neg by lia. lia.
Qed.

Lemma pow10_den_eq k : pow10_den k = p10 (- k).
Proof.
  unfold pow10_den. destruct (0 <=? k) eqn:E.
  - apply Z.leb_le in E. now rewrite p10_neg by lia.
  - apply Z.leb_gt in E. now rewrite p10_nonneg by lia.
Qed.

Lemma of_decimal_eq neg X x :
  of_decimal neg X x = round neg (X * p10 x) (p10 (- x)).
Proof.
  unfold of_decimal. destruct (0 <=? x) eqn:E.
  - apply Z.leb_le in E. now rewrite p10_nonneg, p10_neg by lia.
  - apply Z.leb_gt in E. rewrite p10_neg, p10_nonneg by lia.
    now rewrite Z.mul_1_r.
Qed.

Lemma num_eq m e : num m e = m * pw e.
Proof.
  unfold num. destruct (0 <=? e) eqn:E.
  - apply Z.leb_le in E. now rewrite pw_nonneg.
  - apply Z.leb_gt in E. rewrite pw_neg by lia. lia.
Qed.

Lemma den_eq e : den e = pw (- e).
Proof.
  unfold den. destruct (0 <=? e) eqn:E.
  - apply Z.leb_le in E. now rewrite pw_neg by lia.
  - apply Z.leb_gt in E. now rewrite pw_nonneg by lia.
Qed.

(** ** [float] on a numeral in fixed notation *)

Lemma take_digits_run (a rest : str) :
  forallb is_ascii_digit a = true ->
  head_free is_ascii_digit rest = true ->
  take_digits (a ++ rest) = (vals a, rest).
Proof.
  intros Ha Hr. induction a as [|c a IH].
  - destruct rest as [|c rest]; [reflexivity|].
    simpl in Hr. apply negb_true_iff in Hr. simpl. now rewrite Hr.
  - simpl in Ha. apply andb_prop in Ha as [Hc Ha].
    cbn [app take_digits vals map]. rewrite Hc, (IH Ha). reflexivity.
Qed.

Lemma digit_facts c :
  is_ascii_digit c = true ->
  (c =? 45)%N = false /\ (c =? 43)%N = false
  /\ (ascii_lower c =? 105)%N = false
  /\ (ascii_lower c =? 110)%N = false.
Proof.
  unfold is_ascii_digit, ascii_lower.
  intros H. apply andb_prop in H as [H1 H2].
  apply N.leb_le in H1, H2.
  replace (65 <=? c)%N with false by (symmetry; apply N.leb_gt; lia).
  cbn [andb].
  repeat split; rewrite ?N.eqb_neq; lia.
Qed.

Lemma take_sign_str neg (c : char) (s : str) :
  is_ascii_digit c = true ->
  take_sign (sign_str neg ++ c :: s) = (neg, c :: s).
Proof.
  intros Hc. destruct (digit_facts _ Hc) as [M [P _]].
  destruct neg; [reflexivity|].
  cbn [sign_str app take_sign]. now rewrite M, P.
Qed.

(** A sign, digits, and possibly a full stop and more digits *)
Lemma parse_fixed neg (ip fp rest : str) :
  ip <> [] -> forallb is_ascii_digit ip = true ->
  forallb is_ascii_digit fp = true ->
  rest = [] /\ fp = [] \/ rest = 46%N :: fp ->
  parse (sign_str neg ++ ip ++ rest)
  = Some (of_decimal neg (Dec.to_Z (vals (ip ++ fp)))
            (0 - Z.of_nat (length fp))).
Proof.
  intros NE Hi Hf Hr. destruct ip as [|c ip]; [now elim NE|].
  assert (Hc : is_ascii_digit c = true)
    by (simpl in Hi; now apply andb_prop in Hi).
  destruct (digit_facts _ Hc) as [_ [_ [I N]]].
  unfold parse. cbn [app]. rewrite (@take_sign_str neg c (ip ++ rest) Hc).
  cbn [map str_eqb]. unfold chr_eqb.
  change (u "inf") with (105%N :: u "nf").
  change (u "infinity") with (105%N :: u "nfinity").
  change (u "nan") with (110%N :: u "an").
  cbn [str_eqb]. unfold chr_eqb. rewrite I, N. cbn [andb orb].
  change (c :: ip ++ rest) with ((c :: ip) ++ rest).
  assert (HF : head_free is_ascii_digit rest = true)
    by (destruct Hr as [[-> _]| ->]; reflexivity).
  rewrite (@take_digits_run (c :: ip) rest Hi HF).
  assert (V : vals (c :: ip) ++ vals fp <> []) by discriminate.
  destruct Hr as [[-> ->]| ->].
  - cbn [vals map] in *. rewrite !app_nil_r.
    cbn [app parse_exponent length]. reflexivity.
  - rewrite N.eqb_refl.
    rewrite <- (app_nil_r fp) at 1.
    rewrite (@take_digits_run fp [] Hf eq_refl).
    change (c :: ip ++ fp) with ((c :: ip) ++ fp).
    rewrite vals_app, vals_length.
    destruct (vals (c :: ip) ++ vals fp) eqn:E; [now elim V|].
    cbn [parse_exponent]. reflexivity.
Qed.

Lemma fixed_char_facts c :
  fixed_char c = true ->
  to_ascii c = c /\ is_ascii_space c = false /\ (c =? 95)%N = false.
Proof.
  unfold fixed_char, is_ascii_digit, to_ascii, is_ascii_space. intros H.
  assert (C : (48 <= c <= 57 \/ c = 46 \/ c = 45)%N).
  { apply orb_prop in H as [H|H]; [apply orb_prop in H as [H|H]|].
    - apply andb_prop in H as [H1 H2]. apply N.leb_le in H1, H2. lia.
    - apply N.eqb_eq in H. lia.
    - apply N.eqb_eq in H. lia. }
  replace (c <? 127)%N with true by (symmetry; apply N.ltb_lt; lia).
  split; [reflexivity|].
  split; rewrite ?orb_false_iff, ?andb_false_iff, ?N.leb_gt, ?N.eqb_neq; lia.
Qed.

(** [float] takes such a text as it is. *)
Lemma of_str_fixed s : forallb fixed_char s = true -> of_str s = parse s.
Proof.
  intros H. unfold of_str.
  assert (M : map to_ascii s = s).
  { rewrite <- (map_id s) at 2. apply map_ext_in. intros c I.
    apply (in_forallb _ _ _ H) in I. now destruct (fixed_char_facts _ I). }
  rewrite M.
  assert (NS : forallb (fun c => negb (is_ascii_space c)) s = true).
  { revert H. apply forallb_weaken. intros c Hc.
    destruct (fixed_char_facts _ Hc) as [_ [-> _]]. reflexivity. }
  rewrite lstrip_by_none, rstrip_by_none by exact NS.
  replace (in_chars s 95%N) with false; [reflexivity|].
  symmetry. unfold in_chars. apply not_true_is_false. intros E.
  apply existsb_exists in E as [c [I E]].
  apply (in_forallb _ _ _ H) in I.
  destruct (fixed_char_facts _ I) as [_ [_ F]].
  unfold chr_eqb in E. rewrite N.eqb_sym in E. now rewrite E in F.
Qed.

Lemma digits_fixed s : forallb is_ascii_digit s = true -> forallb fixed_char s = true.
Proof.
  apply forallb_weaken. intros c H. unfold fixed_char. now rewrite H.
Qed.

Lemma sign_fixed neg : forallb fixed_char (sign_str neg) = true.
Proof. now destruct neg. Qed.

Lemma of_str_numeral neg (ip fp rest : str) :
  ip <> [] -> forallb is_ascii_digit ip = true ->
  forallb is_ascii_digit fp = true ->
  rest = [] /\ fp = [] \/ rest = 46%N :: fp ->
  of_str (sign_str neg ++ ip ++ rest)
  = Some (of_decimal neg (Dec.to_Z (vals (ip ++ fp)))
            (0 - Z.of_nat (length fp))).
Proof.
  intros NE Hi Hf Hr. rewrite of_str_fixed; [now apply parse_fixed|].
  apply forallb_app_intro; [apply sign_fixed|].
  apply forallb_app_intro; [now apply digits_fixed|].
  destruct Hr as [[-> _]| ->]; [reflexivity|].
  apply forallb_cons; [reflexivity|now apply digits_fixed].
Qed.

(** ** Trimming a rendered number *)

Lemma lstrip_by_app_all p h r :
  forallb p h = true -> lstrip_by p (h ++ r) = lstrip_by p r.
Proof.
  induction h as [|c h IH]; [reflexivity|].
  cbn [forallb app lstrip_by]. intros H. apply andb_prop in H as [-> H]. auto.
Qed.

Lemma rstrip_by_app_all p s t :
  forallb p t = true -> ends_free p s = true -> rstrip_by p (s ++ t) = s.
Proof.
  intros Ht Hs. unfold rstrip_by. rewrite rev_app_distr.
  rewrite lstrip_by_app_all.
  - rewrite lstrip_by_fixed by exact Hs. apply rev_involutive.
  - rewrite forallb_forall in *. intros c I. apply Ht. now apply in_rev.
Qed.

Lemma rstrip_by_keeps p s c :
  In c s -> p c = false -> In c (rstrip_by p s).
Proof.
  intros I H. destruct (rstrip_by_split p s) as [t [E F]].
  rewrite E in I. apply in_app_or in I as [I|I]; [exact I|].
  apply (in_forallb _ _ _ F) in I. congruence.
Qed.

Lemma ends_free_digits p s :
  (forall c, is_ascii_digit c = true -> p c = false) ->
  forallb is_ascii_digit s = true -> ends_free p s = true.
Proof.
  intros Hp H. apply ends_free_none. revert H. apply forallb_weaken.
  intros c Hc. now rewrite (Hp c Hc).
Qed.

Lemma digit_not_stop c : is_ascii_digit c = true -> in_chars (u ".") c = false.
Proof.
  unfold is_ascii_digit. intros H. apply andb_prop in H as [H1 H2].
  apply N.leb_le in H1, H2. unfold in_chars. change (u ".") with [46%N].
  cbn [existsb]. unfold chr_eqb. rewrite orb_false_r. apply N.eqb_neq. lia.
Qed.

(** The three fixed forms of [format_r], trimmed as [_normalize_answer]
    trims them: [ds] are the digits without trailing zeros, [p] the
    position of the decimal point. *)
Lemma trim_small neg ds p :
  ds <> [] -> forallb is_ascii_digit ds = true ->
  ends_free (in_chars (u "0")) ds = true ->
  rstrip (u ".") (rstrip (u "0") (sign_str neg ++ u "0." ++ zeros (- p) ++ ds))
  = sign_str neg ++ u "0" ++ 46%N :: (zeros (- p) ++ ds).
Proof.
  intros NE D E. unfold rstrip.
  change (u "0." ++ zeros (- p) ++ ds) with (u "0" ++ 46%N :: (zeros (- p) ++ ds)).
  assert (A : forall q, ends_free q ds = true ->
                ends_free q (sign_str neg ++ u "0" ++ 46%N :: zeros (- p) ++ ds) = true).
  { intros q H.
    replace (sign_str neg ++ u "0" ++ 46%N :: zeros (- p) ++ ds)
      with ((sign_str neg ++ u "0" ++ 46%N :: zeros (- p)) ++ ds).
    - now apply ends_free_app.
    - rewrite <- !app_assoc. reflexivity. }
  rewrite (rstrip_by_fixed _ _ (A _ E)).
  apply rstrip_by_fixed, A. apply ends_free_digits; [apply digit_not_stop|exact D].
Qed.

Lemma trim_split neg ds n :
  (n < length ds)%nat -> forallb is_ascii_digit ds = true ->
  ends_free (in_chars (u "0")) ds = true ->
  rstrip (u ".") (rstrip (u "0") (sign_str neg ++ firstn n ds ++ ch "." :: skipn n ds))
  = sign_str neg ++ firstn n ds ++ ch "." :: skipn n ds.
Proof.
  intros L D E. unfold rstrip.
  assert (NE : skipn n ds <> []).
  { intros E0. apply (f_equal (@length char)) in E0.
    rewrite length_skipn in E0. simpl in E0. lia. }
  assert (A : forall q, ends_free q ds = true ->
                ends_free q (sign_str neg ++ firstn n ds ++ ch "." :: skipn n ds) = true).
  { intros q H.
    replace (sign_str neg ++ firstn n ds ++ ch "." :: skipn n ds)
      with ((sign_str neg ++ firstn n ds ++ [ch "."]) ++ skipn n ds).
    - apply ends_free_app; [exact NE|].
      rewrite <- (firstn_skipn n ds) in H. now apply ends_free_suffix in H.
    - rewrite <- !app_assoc. reflexivity. }
  rewrite (rstrip_by_fixed _ _ (A _ E)).
  apply rstrip_by_fixed, A. apply ends_free_digits; [apply digit_not_stop|exact D].
Qed.

Lemma trim_whole neg ds k :
  ds <> [] -> forallb is_ascii_digit ds = true ->
  rstrip (u ".") (rstrip (u "0") (sign_str neg ++ ds ++ zeros k ++ u ".0"))
  = sign_str neg ++ ds ++ zeros k.
Proof.
  intros NE D. unfold rstrip. change (u ".0") with [46%N; 48%N].
  replace (sign_str neg ++ ds ++ zeros k ++ [46%N; 48%N])
    with (((sign_str neg ++ ds ++ zeros k) ++ [46%N]) ++ [48%N])
    by (rewrite <- !app_assoc; reflexivity).
  rewrite rstrip_by_app_all; [|reflexivity|].
  2:{ apply ends_free_app; [discriminate|reflexivity]. }
  rewrite rstrip_by_app_all; [reflexivity|reflexivity|].
  apply ends_free_app.
  - destruct ds; [now elim NE|discriminate].
  - apply ends_free_digits; [apply digit_not_stop|].
    apply forallb_app_intro; [exact D|apply zeros_digits].
Qed.

End ParseFacts.

(* ================================================================== *)
(** * The digits that [repr] prints *)
(* ================================================================== *)

Module ReprFacts.
Import Float FloatFacts RoundFacts DigitFacts ParseFacts.
Open Scope Z_scope.

(** ** What [float] gives *)

Lemma take_digits_range s :
  Forall (fun d => 0 <= d <= 9) (fst (take_digits s)).
Proof.
  induction s as [|c s IH]; [constructor|].
  cbn [take_digits]. destruct (is_ascii_digit c) eqn:E; [|constructor].
  destruct (take_digits s) as [ds r]. cbn [fst] in *.
  constructor; [now apply digit_val|exact IH].
Qed.

Lemma to_Z_nonneg l : Forall (fun d => 0 <= d <= 9) l -> 0 <= Dec.to_Z l.
Proof.
  unfold Dec.to_Z. assert (G : forall acc, 0 <= acc ->
    Forall (fun d => 0 <= d <= 9) l ->
    0 <= fold_left (fun a d => 10 * a + d) l acc).
  { induction l as [|d l IH]; intros acc Ha F; [exact Ha|].
    inversion F; subst. cbn [fold_left]. apply IH; [lia|assumption]. }
  apply G. lia.
Qed.

Lemma of_decimal_round neg X x :
  0 <= X -> exists n d, 0 <= n /\ 0 < d /\ of_decimal neg X x = round neg n d.
Proof.
  intros HX. rewrite of_decimal_eq.
  exists (X * p10 x), (p10 (- x)).
  pose proof (p10_pos x). pose proof (p10_pos (- x)).
  split; [nia|]. split; [lia|reflexivity].
Qed.

Lemma parse_shape s num :
  parse s = Some num ->
  num = Nan \/ (exists neg, num = Inf neg)
  \/ exists neg n d, 0 <= n /\ 0 < d /\ num = round neg n d.
Proof.
  unfold parse. destruct (take_sign s) as [neg s0].
  destruct (_ || _); [intros E; inversion E; right; left; now exists neg|].
  destruct (str_eqb _ _); [intros E; inversion E; now left|].
  pose proof (take_digits_range s0) as R1.
  destruct (take_digits s0) as [ip r1]. cbn [fst] in R1.
  assert (R2 : forall fp r2,
             (fp, r2) = match r1 with
                        | c :: t => if (c =? 46)%N then take_digits t else ([], r1)
                        | [] => ([], r1)
                        end ->
             Forall (fun d => 0 <= d <= 9) fp).
  { intros fp r2 E. destruct r1 as [|c t]; [inversion E; constructor|].
    destruct (c =? 46)%N; [|inversion E; constructor].
    pose proof (take_digits_range t) as R. rewrite <- E in R. exact R. }
  destruct (match r1 with [] => _ | _ => _ end) as [fp r2].
  specialize (R2 fp r2 eq_refl).
  assert (NN : 0 <= Dec.to_Z (ip ++ fp)).
  { apply to_Z_nonneg. apply Forall_app. now split. }
  destruct (ip ++ fp) as [|d0 ds]; [discriminate|].
  destruct (parse_exponent r2) as [x|]; [|discriminate].
  intros E. inversion E. right. right.
  destruct (@of_decimal_round neg (Dec.to_Z (d0 :: ds))
              (x - Z.of_nat (length fp)) NN) as [n [d [Hn [Hd ->]]]].
  now exists neg, n, d.
Qed.

(** A float read from a text is nan, infinite, zero, or has its one
    mantissa and exponent. *)
Lemma of_str_shape s num :
  of_str s = Some num ->
  num = Nan \/ (exists neg, num = Inf neg)
  \/ (exists neg, num = Fin neg 0 0)
  \/ exists neg m e, canonical m e /\ num = Fin neg m e.
Proof.
  intros H.
  assert (P : exists t, parse t = Some num).
  { unfold of_str in H. destruct (in_chars _ _).
    - destruct (drop_underscores _ _) as [t'|]; [|discriminate]. now exists t'.
    - eexists. exact H. }
  destruct P as [t P]. apply parse_shape in P.
  destruct P as [->|[[neg ->]|[neg [n [d [Hn [Hd ->]]]]]]].
  - now left.
  - right. left. now exists neg.
  - destruct (@round_shape neg n d Hn Hd) as [E|[E|[m [e [C E]]]]].
    + right. right. left. now exists neg.
    + right. left. now exists neg.
    + right. right. right. now exists neg, m, e.
Qed.

(** ** The digits that [repr] finds *)

Lemma reads_back_round s m e D k :
  reads_back (Fin s m e) D k = true ->
  round false (pow10_num D k) (pow10_den k) = Fin false m e.
Proof.
  unfold reads_back.
  destruct (round false (pow10_num D k) (pow10_den k)) as [| |s' m' e'] eqn:R;
    try discriminate.
  intros H. apply andb_prop in H as [H1 H2].
  apply Z.eqb_eq in H1, H2. subst m' e'.
  now rewrite (round_sign_eq _ _ _ R).
Qed.

Lemma round_reads_back s m e D k :
  round false (pow10_num D k) (pow10_den k) = Fin false m e ->
  reads_back (Fin s m e) D k = true.
Proof.
  intros R. unfold reads_back. rewrite R. now rewrite !Z.eqb_refl.
Qed.

Lemma candidate_reads x n d p nd D k :
  0 <= n -> 0 < d ->
  candidate x n d p nd = Some (D, k) ->
  k = p - nd /\ reads_back x D k = true /\ 0 <= D.
Proof.
  intros Hn Hd. unfold candidate.
  set (k0 := p - nd). set (wn := n * pow10_den k0).
  set (wd := d * pow10_num 1 k0). set (lo := wn / wd).
  assert (L : 0 <= lo).
  { apply Z.div_pos.
    - unfold wn. rewrite pow10_den_eq. pose proof (p10_pos (- k0)). nia.
    - unfold wd. rewrite pow10_num_eq. pose proof (p10_pos k0). nia. }
  destruct (reads_back x lo k0) eqn:A, (reads_back x (lo + 1) k0) eqn:B;
    cbn [andb]; intros E; inversion E; subst.
  - split; [reflexivity|]. destruct (match _ ?= _ with Lt => _ | _ => _ end).
    + split; [exact A|lia].
    + split; [exact B|lia].
  - split; [reflexivity|]. split; [exact A|lia].
  - split; [reflexivity|]. split; [exact B|lia].
Qed.

Lemma candidate_found x n d p nd :
  reads_back x (n * pow10_den (p - nd) / (d * pow10_num 1 (p - nd))) (p - nd) = true ->
  candidate x n d p nd <> None.
Proof.
  intros H. unfold candidate. cbv zeta. rewrite H. cbn [andb].
  destruct (reads_back x (_ + 1) _); discriminate.
Qed.

(** What [shortest] gives reads back, or all the digits were tried. *)
Lemma shortest_spec x n d p fuel : forall nd D k,
  0 <= n -> 0 < d ->
  shortest x n d p nd fuel = (D, k) ->
  (reads_back x D k = true /\ 0 <= D)
  \/ (k = p - (nd + Z.of_nat fuel)
      /\ D = rne (n * pow10_den k) (d * pow10_num 1 k)).
Proof.
  induction fuel as [|fuel IH]; intros nd D k Hn Hd.
  - cbn [shortest]. intros E. inversion E. right.
    replace (nd + Z.of_nat 0) with nd by lia. split; reflexivity.
  - cbn [shortest]. destruct (candidate x n d p nd) as [[D' k']|] eqn:C.
    + intros E. inversion E; subst. left.
      apply candidate_reads in C; tauto.
    + intros E. apply IH in E; try assumption.
      destruct E as [E|[E1 E2]]; [now left|right].
      split; [lia|exact E2].
Qed.

(** If some number of digits reads back, [shortest] stops there or
    before. *)
Lemma shortest_hit x n d p fuel : forall nd q,
  0 <= n -> 0 < d ->
  nd <= q < nd + Z.of_nat fuel ->
  candidate x n d p q <> None ->
  exists D k, shortest x n d p nd fuel = (D, k)
              /\ reads_back x D k = true /\ p - q <= k /\ 0 <= D.
Proof.
  induction fuel as [|fuel IH]; intros nd q Hn Hd Hq C; [lia|].
  cbn [shortest]. destruct (candidate x n d p nd) as [[D k]|] eqn:E.
  - exists D, k. apply candidate_reads in E; try assumption.
    destruct E as [-> [R HD]]. split; [reflexivity|]. split; [exact R|]. lia.
  - destruct (Z.eq_dec nd q) as [->|NE]; [congruence|].
    apply IH; try assumption. lia.
Qed.

(** ** The position of the decimal point *)

Lemma pw_le_max e : -1074 <= e -> pw (- e) <= 10 ^ 340.
Proof.
  intros H. unfold pw.
  assert (A : 2 ^ Z.max 0 (- e) <= 2 ^ 1074) by (apply Z.pow_le_mono_r; lia).
  assert (B : 2 ^ 1074 <= 10 ^ 340) by (apply Z.leb_le; vm_compute; reflexivity).
  lia.
Qed.

Lemma canonical_pos m e : canonical m e -> 0 < m < 2 ^ 53 /\ -1074 <= e <= 971.
Proof. intros [[? ?]|[? ?]]; lia. Qed.

Lemma decimal_point_lower m e :
  canonical m e ->
  p10 (decimal_point (num m e) (den e) - 1) * den e
  <= num m e * p10 (1 - decimal_point (num m e) (den e)).
Proof.
  intros C. destruct (canonical_pos C) as [Hm He].
  rewrite num_eq, den_eq. unfold decimal_point.
  set (n := m * pw e). set (d := pw (- e)).
  pose proof (pw_pos e) as PA. pose proof (pw_pos (- e)) as PB.
  assert (Hn : 1 <= n) by (unfold n; nia).
  assert (Hd : 0 < d) by exact PB.
  assert (Dle : d <= 10 ^ 340) by (apply pw_le_max; lia).
  set (N := n * 10 ^ 340 / d).
  assert (T340 : 0 < 10 ^ 340) by (apply Z.pow_pos_nonneg; lia).
  assert (HN : 1 <= N).
  { unfold N. apply Z.div_le_lower_bound; [exact Hd|]. nia. }
  assert (ND : N * d <= n * 10 ^ 340).
  { unfold N. rewrite Z.mul_comm. apply Z.mul_div_le. exact Hd. }
  pose proof (@of_N_length (Z.to_N N) ltac:(lia)) as [L1 _].
  rewrite Z2N.id in L1 by lia.
  set (L := Z.of_nat (length (Dec.of_N (Z.to_N N)))) in *.
  assert (HL : 1 <= L).
  { unfold L. destruct (Dec.of_N (Z.to_N N)) eqn:E; [|cbn [length]; lia].
    pose proof (of_N_no_leading_zero (Z.to_N N)) as Z0. rewrite E in Z0.
    discriminate. }
  assert (K : 10 ^ (L - 1) * d <= n * 10 ^ 340).
  { apply Z.le_trans with (N * d); [|exact ND].
    apply Z.mul_le_mono_nonneg_r; lia. }
  destruct (Z_le_gt_dec 341 L) as [G|G].
  - rewrite (@p10_nonneg (L - 340 - 1)), p10_neg by lia.
    replace (L - 1) with (L - 340 - 1 + 340) in K by lia.
    rewrite Z.pow_add_r in K by lia.
    rewrite Z.mul_1_r.
    apply Z.mul_le_mono_pos_r with (p := 10 ^ 340); [exact T340|].
    replace (10 ^ (L - 340 - 1) * d * 10 ^ 340)
      with (10 ^ (L - 340 - 1) * 10 ^ 340 * d) by ring.
    exact K.
  - rewrite (@p10_neg (L - 340 - 1)), p10_nonneg by lia.
    assert (S : 10 ^ 340 = 10 ^ (L - 1) * 10 ^ (1 - (L - 340)))
      by (rewrite <- Z.pow_add_r by lia; f_equal; lia).
    rewrite S in K.
    assert (P1 : 0 < 10 ^ (L - 1)) by (apply Z.pow_pos_nonneg; lia).
    rewrite Z.mul_1_l.
    apply Z.mul_le_mono_pos_l with (p := 10 ^ (L - 1)); [exact P1|].
    replace (10 ^ (L - 1) * (n * 10 ^ (1 - (L - 340))))
      with (n * (10 ^ (L - 1) * 10 ^ (1 - (L - 340)))) by ring.
    exact K.
Qed.

(** Eighteen digits read back. *)
Lemma fallback_reads m e :
  canonical m e ->
  let n := num m e in
  let d := den e in
  let k := decimal_point n d - 18 in
  let D := rne (n * pow10_den k) (d * pow10_num 1 k) in
  round false (pow10_num D k) (pow10_den k) = Fin false m e /\ 0 <= D.
Proof.
  intros C n d k D. destruct (canonical_pos C) as [Hm He].
  pose proof (decimal_point_lower C) as LB. fold n d in LB.
  set (p := decimal_point n d) in *.
  assert (SH : p10 (p - 1) * p10 (- k) = 10 ^ 17 * (p10 k * p10 (- (p - 1)))).
  { rewrite (@p10_shift (p - 1) k) by (unfold k; lia).
    f_equal. f_equal. unfold k. lia. }
  replace (- (p - 1)) with (1 - p) in SH by lia.
  unfold D. rewrite pow10_num_eq, !pow10_den_eq, pow10_num_eq.
  unfold n, d in *. rewrite num_eq, den_eq in *.
  pose proof (pw_pos e) as PA. pose proof (pw_pos (- e)) as PB.
  pose proof (p10_pos k) as PP. pose proof (p10_pos (- k)) as PQ.
  pose proof (p10_pos (p - 1)) as PR. pose proof (p10_pos (1 - p)) as PS.
  remember (pw e) as A eqn:EA. remember (pw (- e)) as B eqn:EB.
  remember (p10 k) as P eqn:EP. remember (p10 (- k)) as Q eqn:EQ.
  remember (p10 (p - 1)) as R eqn:ER. remember (p10 (1 - p)) as S eqn:ES.
  (* the last place of eighteen digits is far below that of the float *)
  assert (Key : 2 * (B * P) < Q * A).
  { assert (T17 : 0 < 10 ^ 17 * S) by lia.
    apply Z.mul_lt_mono_pos_r with (p := 10 ^ 17 * S); [exact T17|].
    replace (2 * (B * P) * (10 ^ 17 * S)) with (2 * B * (10 ^ 17 * (P * S))) by ring.
    rewrite <- SH.
    assert (E1 : 2 * B * (R * Q) = 2 * Q * (R * B)) by ring. rewrite E1.
    assert (E2 : 2 * Q * (R * B) <= 2 * Q * (m * A * S))
      by (apply Z.mul_le_mono_nonneg_l; lia).
    assert (E3 : 2 * Q * (m * A * S) = (2 * m) * (Q * A * S)) by ring.
    assert (E4 : (2 * m) * (Q * A * S) < 10 ^ 17 * (Q * A * S)).
    { apply Z.mul_lt_mono_pos_r; [|lia].
      apply Z.mul_pos_pos; [apply Z.mul_pos_pos|]; assumption. }
    replace (Q * A * (10 ^ 17 * S)) with (10 ^ 17 * (Q * A * S)) by ring.
    lia. }
  assert (X0 : 0 <= m * A * Q) by (apply Z.mul_nonneg_nonneg; nia).
  assert (Y0 : 0 < B * (1 * P)) by nia.
  pose proof (FloatBounds.rne_half X0 Y0) as Hh.
  pose proof (FloatBounds.rne_nonneg X0 Y0) as D0.
  set (D' := rne (m * A * Q) (B * (1 * P))) in *.
  assert (DP : 0 < D').
  { destruct (Z.eq_dec D' 0) as [E|E]; [|lia]. exfalso.
    rewrite E in Hh. rewrite Z.mul_0_l, Z.sub_0_l, Z.abs_opp, Z.abs_eq in Hh by lia.
    assert (1 * (Q * A) <= m * (Q * A)) by (apply Z.mul_le_mono_nonneg_r; nia).
    replace (m * A * Q) with (m * (Q * A)) in Hh by ring. lia. }
  split; [|lia].
  apply round_close; [exact C| nia | exact PQ |].
  rewrite <- EA, <- EB.
  replace (D' * P * B - m * (Q * A)) with (D' * (B * (1 * P)) - m * A * Q) by ring.
  lia.
Qed.

(** The digits that [repr] prints read back as the float. *)
Lemma repr_reads s m e D k :
  canonical m e ->
  shortest (Fin s m e) (num m e) (den e) (decimal_point (num m e) (den e)) 1 17
    = (D, k) ->
  round false (pow10_num D k) (pow10_den k) = Fin false m e /\ 0 < D.
Proof.
  intros C H. destruct (canonical_pos C) as [Hm He].
  assert (Hn : 0 <= num m e).
  { rewrite num_eq. pose proof (pw_pos e). nia. }
  assert (Hd : 0 < den e) by (rewrite den_eq; apply pw_pos).
  assert (R : round false (pow10_num D k) (pow10_den k) = Fin false m e /\ 0 <= D).
  { apply shortest_spec in H; try assumption.
    destruct H as [[H HD]|[Hk HD]].
    - split; [now apply reads_back_round in H|exact HD].
    - pose proof (fallback_reads C) as F. cbv zeta in F.
      replace (decimal_point (num m e) (den e) - 18) with k in F
        by (rewrite Hk; change (Z.of_nat 17) with 17; lia).
      rewrite <- HD in F. exact F. }
  destruct R as [R HD]. split; [exact R|].
  destruct (Z.eq_dec D 0) as [->|NE]; [|lia].
  rewrite pow10_num_eq in R. cbn in R. inversion R. lia.
Qed.

(** ** Floats that are integers *)

Lemma integer_exact m e :
  canonical m e -> is_integer (Fin false m e) = true ->
  exists W, 0 < W /\ W = num m e / den e /\ W * pw (- e) = m * pw e.
Proof.
  intros C I. destruct (canonical_pos C) as [Hm He].
  cbn [is_integer] in I. rewrite num_eq, den_eq.
  pose proof (pw_pos e) as PA. pose proof (pw_pos (- e)) as PB.
  destruct (Z_le_gt_dec 0 e) as [G|G].
  - rewrite (@pw_neg (- e)) by lia.
    exists (m * pw e). split; [nia|].
    split; [now rewrite Z.div_1_r|now rewrite Z.mul_1_r].
  - replace (0 <=? e) with false in I by (symmetry; apply Z.leb_gt; lia).
    cbn [orb] in I. apply Z.eqb_eq in I.
    rewrite (@pw_neg e), (@pw_nonneg (- e)) by lia.
    assert (P : 0 < 2 ^ (- e)) by (apply Z.pow_pos_nonneg; lia).
    pose proof (Z.div_mod m (2 ^ (- e)) ltac:(lia)) as DM.
    rewrite I, Z.add_0_r in DM.
    exists (m / 2 ^ (- e)). rewrite Z.mul_1_r.
    split; [|split; [reflexivity|lia]].
    destruct (Z_le_gt_dec (m / 2 ^ (- e)) 0); [nia|lia].
Qed.


(** A float that is an integer below [2^53] is printed with the digits of
    that integer. *)
Lemma integer_shortest s m e W D k :
  canonical m e -> e <= 0 -> 0 < W -> W * pw (- e) = m * pw e ->
  shortest (Fin s m e) (num m e) (den e) (decimal_point (num m e) (den e)) 1 17
    = (D, k) ->
  0 <= k /\ 0 < D /\ D * 10 ^ k = W
  /\ Z.of_nat (length (Dec.of_N (Z.to_N W))) <= 16.
Proof.
  intros C E0 HW WE H. destruct (canonical_pos C) as [Hm He].
  rewrite num_eq, den_eq in *.
  rewrite (@pw_neg e) in * by lia. rewrite Z.mul_1_r in *.
  pose proof (pw_pos (- e)) as PB. set (B := pw (- e)) in *.
  (* the decimal point is after the digits of [W] *)
  assert (DP : decimal_point m B = Z.of_nat (length (Dec.of_N (Z.to_N W)))).
  { unfold decimal_point. rewrite <- WE.
    replace (W * B * 10 ^ 340 / B) with (W * 10 ^ 340).
    - rewrite of_N_shift by lia. rewrite length_app.
      rewrite Nat2Z.inj_add, zeros_length by lia. lia.
    - replace (W * B * 10 ^ 340) with (W * 10 ^ 340 * B) by ring.
      now rewrite Z.div_mul by lia. }
  rewrite DP in H.
  set (L := Z.of_nat (length (Dec.of_N (Z.to_N W)))) in *.
  assert (HL : 1 <= L <= 16).
  { pose proof (@of_N_length (Z.to_N W) ltac:(lia)) as [L1 L2].
    rewrite Z2N.id in L1, L2 by lia. fold L in L1, L2.
    assert (WB : W < 10 ^ 16).
    { assert (W <= m) by nia.
      assert (2 ^ 53 < 10 ^ 16) by (apply Z.ltb_lt; vm_compute; reflexivity).
      lia. }
    split.
    - unfold L. destruct (Dec.of_N (Z.to_N W)) eqn:E; [|cbn [length]; lia].
      pose proof (of_N_no_leading_zero (Z.to_N W)) as Z0. rewrite E in Z0.
      discriminate.
    - destruct (Z_le_gt_dec L 16) as [G|G]; [exact G|]. exfalso.
      assert (10 ^ 16 <= 10 ^ (L - 1)) by (apply Z.pow_le_mono_r; lia). lia. }
  assert (RW : round false W 1 = Fin false m e).
  { apply round_exact; try assumption; try lia.
    rewrite (@pw_neg e) by lia. fold B. lia. }
  assert (Hit : candidate (Fin s m e) m B L L <> None).
  { apply candidate_found. rewrite Z.sub_diag.
    change (pow10_den 0) with 1. change (pow10_num 1 0) with 1.
    rewrite !Z.mul_1_r.
    replace (m / B) with W by (rewrite <- WE; symmetry; apply Z.div_mul; lia).
    apply round_reads_back.
    rewrite pow10_num_eq, pow10_den_eq.
    change (p10 0) with 1. change (p10 (- 0)) with 1.
    rewrite Z.mul_1_r. exact RW. }
  destruct (@shortest_hit (Fin s m e) m B L 17 1 L ltac:(lia) PB
              ltac:(change (Z.of_nat 17) with 17; lia) Hit)
    as [D' [k' [S [R [K HD]]]]].
  rewrite H in S. inversion S; subst D' k'. clear S.
  assert (K0 : 0 <= k) by lia.
  apply reads_back_round in R.
  rewrite pow10_num_eq, pow10_den_eq in R.
  rewrite p10_nonneg, p10_neg in R by lia.
  assert (P10 : 0 < 10 ^ k) by (apply Z.pow_pos_nonneg; lia).
  destruct (Z.eq_dec D 0) as [->|NE].
  { cbn in R. inversion R. lia. }
  assert (XP : 0 < D * 10 ^ k) by nia.
  pose proof (@round_error false (D * 10 ^ k) 1 m e XP ltac:(lia) R ltac:(lia)) as Er.
  rewrite (@pw_neg e) in Er by lia. fold B in Er.
  split; [exact K0|]. split; [lia|]. split; [|lia].
  assert (D * 10 ^ k * B = W * B) by lia.
  apply Z.mul_reg_r with (p := B); lia.
Qed.

(** ** [round(x, 5)] on its own results *)

Lemma round5_fixed s D m e :
  0 < D -> round s D (10 ^ 5) = Fin s m e ->
  is_integer (Fin s m e) = false ->
  round5 (Fin s m e) = Fin s m e.
Proof.
  intros HD R I.
  cbn [is_integer] in I. apply orb_false_iff in I as [I1 I2].
  apply Z.leb_gt in I1. apply Z.eqb_neq in I2.
  assert (M0 : m <> 0).
  { intros ->. apply I2. apply Z.mod_0_l.
    assert (0 < 2 ^ (- e)) by (apply Z.pow_pos_nonneg; lia). lia. }
  assert (C : canonical m e).
  { destruct (@round_shape s D (10 ^ 5) ltac:(lia) ltac:(lia))
      as [E|[E|[m' [e' [C E]]]]]; rewrite R in E; inversion E; subst; tauto. }
  destruct (canonical_pos C) as [Hm He].
  cbn [round5]. rewrite num_eq, den_eq.
  rewrite (@pw_neg e), (@pw_nonneg (- e)) by lia. rewrite Z.mul_1_r.
  assert (P : 0 < 2 ^ (- e)) by (apply Z.pow_pos_nonneg; lia).
  pose proof (@round_error s D (10 ^ 5) m e HD ltac:(lia) R M0) as Er.
  rewrite (@pw_neg e), (@pw_nonneg (- e)) in Er by lia.
  rewrite Z.mul_1_r in Er.
  destruct (Z_le_gt_dec 17 (- e)) as [G|G].
  - (* the last place is below the fifth decimal *)
    assert (P17 : 2 ^ 17 <= 2 ^ (- e)) by (apply Z.pow_le_mono_r; lia).
    rewrite (@rne_near (m * 10 ^ 5) (2 ^ (- e)) D P); [exact R|].
    rewrite <- Z.abs_opp.
    replace (- (m * 10 ^ 5 - D * 2 ^ (- e))) with (D * 2 ^ (- e) - m * 10 ^ 5)
      by ring.
    assert (10 ^ 5 < 2 ^ 17) by (apply Z.ltb_lt; vm_compute; reflexivity).
    lia.
  - (* the fifth decimal is below the last place *)
    assert (P16 : 2 ^ (- e) <= 2 ^ 16) by (apply Z.pow_le_mono_r; lia).
    assert (N52 : 2 ^ 52 <= m < 2 ^ 53).
    { destruct C as [[? ?]|[? ?]]; lia. }
    assert (X0 : 0 <= m * 10 ^ 5) by lia.
    pose proof (FloatBounds.rne_half X0 P) as Hh.
    set (D' := rne (m * 10 ^ 5) (2 ^ (- e))) in *.
    assert (D'P : 0 < D').
    { assert (1 <= D'); [|lia]. apply rne_ge; [exact P|]. nia. }
    assert (T : 2 ^ 16 < 10 ^ 5) by (apply Z.ltb_lt; vm_compute; reflexivity).
    apply round_near; try assumption; try lia.
    + rewrite (@pw_neg e), (@pw_nonneg (- e)) by lia. rewrite Z.mul_1_r. lia.
    + intros _ M _. exfalso. apply I2. rewrite M.
      replace 52 with (52 - - e + - e) by lia.
      rewrite Z.pow_add_r by lia. apply Z_mod_mult.
Qed.

(** A float that is not an integer is below [2^52]. *)
Lemma round5_bound s m e :
  canonical m e -> is_integer (Fin s m e) = false ->
  0 <= rne (num m e * 10 ^ 5) (den e) <= 2 ^ 52 * 10 ^ 5.
Proof.
  intros C I. destruct (canonical_pos C) as [Hm He].
  cbn [is_integer] in I. apply orb_false_iff in I as [I1 _].
  apply Z.leb_gt in I1.
  rewrite num_eq, den_eq. rewrite (@pw_neg e), (@pw_nonneg (- e)) by lia.
  rewrite Z.mul_1_r.
  assert (P : 2 ^ 1 <= 2 ^ (- e)) by (apply Z.pow_le_mono_r; lia).
  change (2 ^ 1) with 2 in P.
  split.
  - apply FloatBounds.rne_nonneg; lia.
  - apply FloatBounds.rne_le; lia.
Qed.

End ReprFacts.

(* ================================================================== *)
(** * The numeric stage on its own results *)
(* ================================================================== *)

Module RenderFacts.
Import Float FloatFacts RoundFacts DigitFacts ParseFacts ReprFacts.
Open Scope Z_scope.

(** ** Texts that the numeric stage passes over *)

Lemma signed_decimal_chars s :
  signed_decimal s = true ->
  forallb (fun c => in_chars (u "-+") c || numchar c || chr_eqb c LF) s = true.
Proof.
  unfold signed_decimal.
  assert (B : forall body,
             (1 <=? run numchar body)%nat
             && match lstrip_by numchar body with
                | [] => true
                | [c] => chr_eqb c LF
                | _ => false
                end = true ->
             forallb (fun c => in_chars (u "-+") c || numchar c || chr_eqb c LF)
               body = true).
  { intros body H. apply andb_prop in H as [_ H].
    destruct (lstrip_by_split numchar body) as [h [E F]].
    rewrite E. apply forallb_app_intro.
    - revert F. apply forallb_weaken. intros c Hc. rewrite Hc.
      now rewrite orb_true_r.
    - destruct (lstrip_by numchar body) as [|c [|c' t]];
        [reflexivity| |discriminate].
      cbn [forallb]. rewrite H. now rewrite !orb_true_r. }
  destruct s as [|c t]; [intros _; reflexivity|].
  destruct (in_chars (u "-+") c) eqn:S.
  - intros H. cbn [forallb]. rewrite S. cbn [orb andb]. now apply B.
  - apply B.
Qed.

Lemma exponent_stage y : In 101%N y -> numeric_stage y = y.
Proof.
  intros I. unfold numeric_stage.
  destruct (match_ numeric_pattern y) eqn:M; [|reflexivity].
  exfalso.
  assert (S : signed_decimal y = true)
    by (apply numeric_match_iff; rewrite M; discriminate).
  apply signed_decimal_chars in S.
  apply (in_forallb _ _ _ S) in I. vm_compute in I. discriminate.
Qed.

Lemma reformat_stage y : reformat y = Some y -> numeric_stage y = y.
Proof.
  intros H. unfold numeric_stage. rewrite H.
  now destruct (match_ numeric_pattern y).
Qed.

(** ** Integers *)

Lemma of_Z_signed s W :
  0 < W -> Dec.of_Z (signed s W) = sign_str s ++ Dec.of_N (Z.to_N W).
Proof.
  intros H. unfold Dec.of_Z, signed, sign_str. destruct s.
  - replace (- W <? 0) with true by (symmetry; apply Z.ltb_lt; lia).
    now rewrite Z.opp_involutive.
  - replace (W <? 0) with false by (symmetry; apply Z.ltb_ge; lia).
    reflexivity.
Qed.

Lemma to_int_exact s m e W :
  W = num m e / den e -> to_int (Fin s m e) = signed s W.
Proof. intros ->. reflexivity. Qed.

(** The decimal of a float that is an integer is rendered as it is. *)
Lemma reformat_integer s m e :
  canonical m e -> is_integer (Fin s m e) = true ->
  reformat (Dec.of_Z (to_int (Fin s m e)))
  = Some (Dec.of_Z (to_int (Fin s m e))).
Proof.
  intros C I.
  destruct (@integer_exact m e C I) as [W [HW [EW X]]].
  rewrite (@to_int_exact s m e W EW), (@of_Z_signed s W HW).
  assert (P : of_str (sign_str s ++ Dec.of_N (Z.to_N W)) = Some (Fin s m e)).
  { rewrite <- (app_nil_r (Dec.of_N (Z.to_N W))).
    rewrite (@of_str_numeral s (Dec.of_N (Z.to_N W)) [] []).
    - rewrite app_nil_r, of_N_value, Z2N.id by lia.
      rewrite of_decimal_eq.
      change (0 - Z.of_nat (length (@nil char))) with 0.
      change (p10 (- 0)) with 1. change (p10 0) with 1. rewrite Z.mul_1_r.
      now rewrite (@round_exact s W 1 m e C HW ltac:(lia)) by lia.
    - intros E. pose proof (of_N_no_leading_zero (Z.to_N W)) as Z0.
      rewrite E in Z0. discriminate.
    - apply of_N_digits.
    - reflexivity.
    - now left. }
  unfold reformat. rewrite P, I.
  now rewrite (@to_int_exact s m e W EW), (@of_Z_signed s W HW).
Qed.

(** ** What [repr] prints *)

Lemma repr_fin s m e D k :
  m <> 0 ->
  shortest (Fin s m e) (num m e) (den e) (decimal_point (num m e) (den e)) 1 17
    = (D, k) ->
  repr (Fin s m e)
  = sign_str s ++ format_r (rstrip (u "0") (Dec.of_N (Z.to_N D)))
                    (Z.of_nat (length (Dec.of_N (Z.to_N D))) + k).
Proof.
  intros M H. unfold repr.
  replace (m =? 0) with false by (symmetry; now apply Z.eqb_neq).
  cbv zeta. rewrite H. reflexivity.
Qed.

(** A float that is an integer below [2^53] is rendered, zeros and full
    stop trimmed, as the decimal of the integer. *)
Lemma render_integer s m e :
  canonical m e -> e <= 0 -> is_integer (Fin s m e) = true ->
  rstrip (u ".") (rstrip (u "0") (repr (Fin s m e)))
  = Dec.of_Z (to_int (Fin s m e)).
Proof.
  intros C E0 I. destruct (canonical_pos C) as [Hm He].
  destruct (@integer_exact m e C I) as [W [HW [EW X]]].
  rewrite (@to_int_exact s m e W EW), (@of_Z_signed s W HW).
  destruct (shortest (Fin s m e) (num m e) (den e)
              (decimal_point (num m e) (den e)) 1 17) as [D k] eqn:H.
  rewrite (@repr_fin s m e D k ltac:(lia) H).
  destruct (@integer_shortest s m e W D k C E0 HW X H) as [K [HD [V L16]]].
  destruct (@rstrip_zeros D HD) as [z [Hz [A [T [NE [Dg [NZ EF]]]]]]].
  set (all := Dec.of_N (Z.to_N D)) in *.
  set (ds := rstrip (u "0") all) in *.
  assert (S : Dec.of_N (Z.to_N W) = all ++ zeros k).
  { rewrite <- V. now apply of_N_shift. }
  assert (LA : Z.of_nat (length all) = Z.of_nat (length ds) + z).
  { rewrite A at 1. rewrite length_app, Nat2Z.inj_add, zeros_length by lia. lia. }
  assert (LW : Z.of_nat (length (Dec.of_N (Z.to_N W))) = Z.of_nat (length all) + k).
  { rewrite S, length_app, Nat2Z.inj_add, zeros_length by lia. lia. }
  assert (L1 : 1 <= Z.of_nat (length ds)).
  { destruct ds; [now elim NE|cbn [length]; lia]. }
  set (p := Z.of_nat (length all) + k) in *.
  unfold format_r.
  replace ((p <=? -4) || (16 <? p)) with false
    by (symmetry; apply orb_false_iff; split;
        [apply Z.leb_gt|apply Z.ltb_ge]; lia).
  replace (p <=? 0) with false by (symmetry; apply Z.leb_gt; lia).
  replace (Z.of_nat (length ds) <=? p) with true
    by (symmetry; apply Z.leb_le; lia).
  rewrite (@trim_whole s ds (p - Z.of_nat (length ds)) NE Dg).
  f_equal. rewrite S, A, <- app_assoc. f_equal.
  rewrite zeros_app by lia. f_equal. lia.
Qed.

(** The float that a decimal with the value of [D * 10^k] is read as *)
Lemma reads_as s m e D k X x :
  round false (pow10_num D k) (pow10_den k) = Fin false m e ->
  0 < D -> 0 <= X ->
  X * p10 x * p10 (- k) = D * p10 k * p10 (- x) ->
  of_decimal s X x = Fin s m e.
Proof.
  intros R HD HX E. rewrite of_decimal_eq.
  apply (@round_sign false s) in R.
  rewrite pow10_num_eq, pow10_den_eq in R. rewrite <- R.
  pose proof (p10_pos x). pose proof (p10_pos (- x)).
  pose proof (p10_pos k). pose proof (p10_pos (- k)).
  apply round_ratio; try lia; nia.
Qed.

Lemma decimal_ratio T z k :
  0 <= z -> T * p10 (z + k) * p10 (- k) = T * 10 ^ z * p10 k * p10 (- (z + k)).
Proof.
  intros Hz. rewrite <- !Z.mul_assoc. f_equal.
  rewrite (@p10_shift (z + k) k) by lia.
  replace (z + k - k) with z by lia. ring.
Qed.

Lemma to_Z_zero_head s t :
  Dec.to_Z (vals (u "0" ++ zeros s ++ t)) = Dec.to_Z (vals t).
Proof.
  rewrite !vals_app, !to_Z_app, to_Z_zeros. reflexivity.
Qed.

(** A float in fixed notation, zeros and full stop trimmed, is read as
    the same float. *)
Lemma render_fixed s m e D k :
  canonical m e ->
  shortest (Fin s m e) (num m e) (den e) (decimal_point (num m e) (den e)) 1 17
    = (D, k) ->
  let p := Z.of_nat (length (Dec.of_N (Z.to_N D))) + k in
  (p <=? -4) || (16 <? p) = false ->
  of_str (rstrip (u ".") (rstrip (u "0") (repr (Fin s m e)))) = Some (Fin s m e).
Proof.
  intros C H p F. destruct (canonical_pos C) as [Hm He].
  rewrite (@repr_fin s m e D k ltac:(lia) H). fold p.
  destruct (@repr_reads s m e D k C H) as [R HD].
  destruct (@rstrip_zeros D HD) as [z [Hz [A [T [NE [Dg [NZ EF]]]]]]].
  set (all := Dec.of_N (Z.to_N D)) in *.
  set (ds := rstrip (u "0") all) in *.
  assert (LA : Z.of_nat (length all) = Z.of_nat (length ds) + z).
  { rewrite A at 1. rewrite length_app, Nat2Z.inj_add, zeros_length by lia. lia. }
  assert (L1 : 1 <= Z.of_nat (length ds)).
  { destruct ds; [now elim NE|cbn [length]; lia]. }
  assert (T0 : 0 <= Dec.to_Z (vals ds)) by (now apply to_Z_bound).
  unfold format_r. rewrite F.
  destruct (p <=? 0) eqn:P0; [|destruct (Z.of_nat (length ds) <=? p) eqn:P1].
  - (* 0.00ddd *)
    apply Z.leb_le in P0.
    rewrite (@trim_small s ds p NE Dg EF).
    rewrite (@of_str_numeral s (u "0") (zeros (- p) ++ ds)
               (46%N :: zeros (- p) ++ ds)); try reflexivity; try discriminate.
    + f_equal. rewrite to_Z_zero_head.
      apply (@reads_as s m e D k _ _ R HD T0).
      rewrite length_app, Nat2Z.inj_add, zeros_length by lia.
      replace (0 - (- p + Z.of_nat (length ds))) with (z + k) by (unfold p; lia).
      rewrite (@decimal_ratio _ z k Hz). now rewrite <- T.
    + apply forallb_app_intro; [apply zeros_digits|exact Dg].
    + now right.
  - (* ddd000 *)
    apply Z.leb_gt in P0. apply Z.leb_le in P1.
    rewrite (@trim_whole s ds (p - Z.of_nat (length ds)) NE Dg).
    rewrite <- (app_nil_r (ds ++ zeros (p - Z.of_nat (length ds)))).
    rewrite (@of_str_numeral s (ds ++ zeros (p - Z.of_nat (length ds))) [] []);
      try reflexivity.
    + f_equal. rewrite app_nil_r.
      assert (V : Dec.to_Z (vals (ds ++ zeros (p - Z.of_nat (length ds))))
                  = Dec.to_Z (vals ds) * 10 ^ (z + k)).
      { rewrite vals_app, to_Z_app, to_Z_zeros, vals_length.
        rewrite zeros_length by lia.
        replace (p - Z.of_nat (length ds)) with (z + k) by (unfold p; lia). lia. }
      rewrite V.
      assert (ZK : 0 <= z + k) by (unfold p in P1; lia).
      apply (@reads_as s m e D k _ _ R HD).
      * assert (0 < 10 ^ (z + k)) by (apply Z.pow_pos_nonneg; lia). nia.
      * change (0 - Z.of_nat (length (@nil char))) with 0.
        change (p10 (- 0)) with 1. change (p10 0) with 1. rewrite !Z.mul_1_r.
        pose proof (@decimal_ratio (Dec.to_Z (vals ds)) z k Hz) as Q.
        rewrite (@p10_nonneg (z + k)), (@p10_neg (- (z + k))) in Q by lia.
        rewrite Z.mul_1_r in Q. rewrite Q. now rewrite <- T.
    + destruct ds; [now elim NE|discriminate].
    + apply forallb_app_intro; [exact Dg|apply zeros_digits].
    + now left.
  - (* dd.ddd *)
    apply Z.leb_gt in P0, P1.
    assert (LN : (Z.to_nat p < length ds)%nat) by lia.
    rewrite (@trim_split s ds (Z.to_nat p) LN Dg EF).
    change (ch ".") with 46%N.
    rewrite of_str_numeral
      with (neg := s) (ip := firstn (Z.to_nat p) ds) (fp := skipn (Z.to_nat p) ds);
      try reflexivity.
    + f_equal. rewrite firstn_skipn.
      apply (@reads_as s m e D k _ _ R HD T0).
      rewrite length_skipn.
      replace (0 - Z.of_nat (length ds - Z.to_nat p)) with (z + k)
        by (unfold p in *; lia).
      rewrite (@decimal_ratio _ z k Hz). now rewrite <- T.
    + intros E. apply (f_equal (@length char)) in E.
      rewrite length_firstn in E. cbn [length] in E. lia.
    + now apply forallb_firstn.
    + now apply forallb_skipn.
    + now right.
Qed.

(** A float in exponent notation keeps its exponent mark. *)
Lemma render_exponent s m e D k :
  m <> 0 ->
  shortest (Fin s m e) (num m e) (den e) (decimal_point (num m e) (den e)) 1 17
    = (D, k) ->
  let p := Z.of_nat (length (Dec.of_N (Z.to_N D))) + k in
  (p <=? -4) || (16 <? p) = true ->
  In 101%N (rstrip (u ".") (rstrip (u "0") (repr (Fin s m e)))).
Proof.
  intros M H p F. rewrite (@repr_fin s m e D k M H). fold p.
  unfold format_r. rewrite F. unfold rstrip.
  apply rstrip_by_keeps; [|reflexivity].
  apply rstrip_by_keeps; [|reflexivity].
  apply in_or_app. right. apply in_or_app. right. apply in_or_app. right.
  now left.
Qed.

(** ** The numeric stage on its own results *)

Lemma rendered_zero s :
  rstrip (u ".") (rstrip (u "0") (repr (Fin s 0 0))) <> u "-0" ->
  numeric_stage (rstrip (u ".") (rstrip (u "0") (repr (Fin s 0 0))))
  = rstrip (u ".") (rstrip (u "0") (repr (Fin s 0 0))).
Proof.
  destruct s; intros H.
  - exfalso. apply H. vm_compute. reflexivity.
  - vm_compute. reflexivity.
Qed.

Lemma rendered_inf s :
  numeric_stage (rstrip (u ".") (rstrip (u "0") (repr (Inf s))))
  = rstrip (u ".") (rstrip (u "0") (repr (Inf s))).
Proof. destruct s; vm_compute; reflexivity. Qed.

(** What the numeric stage prints, it leaves as it is when it meets it
    again; the one exception is [-0], which it prints for a negative
    number that rounds to zero. *)
Lemma reformat_stable a y :
  reformat a = Some y -> y <> u "-0" -> numeric_stage y = y.
Proof.
  unfold reformat. destruct (of_str a) as [num|] eqn:A; [|discriminate].
  apply of_str_shape in A.
  destruct (is_integer num) eqn:I; intros E; inversion E; subst y; clear E;
    intros N0.
  - (* an integer *)
    destruct A as [->|[[s ->]|[[s ->]|[s [m [e [C ->]]]]]]]; try discriminate.
    + destruct s; vm_compute; reflexivity.
    + apply reformat_stage. now apply reformat_integer.
  - destruct A as [->|[[s ->]|[[s ->]|[s [m [e [C ->]]]]]]]; try discriminate.
    + vm_compute. reflexivity.
    + apply rendered_inf.
    + (* a float that is not an integer, rounded to five places *)
      pose proof (@round5_bound s m e C I) as [B0 B1].
      cbn [round5] in *.
      set (D5 := rne (num m e * 10 ^ 5) (den e)) in *.
      destruct (@round_shape s D5 (10 ^ 5) B0 ltac:(lia))
        as [R|[R|[mf [ef [Cf R]]]]]; rewrite R in *.
      * now apply rendered_zero.
      * apply rendered_inf.
      * destruct (canonical_pos Cf) as [Hm He].
        destruct (is_integer (Fin s mf ef)) eqn:If.
        -- assert (E0 : ef <= 0).
           { apply (@round_exp_le s D5 (10 ^ 5) mf ef); try lia. exact R. }
           rewrite (@render_integer s mf ef Cf E0 If).
           apply reformat_stage. now apply reformat_integer.
        -- destruct (shortest (Fin s mf ef) (num mf ef) (den ef)
                       (decimal_point (num mf ef) (den ef)) 1 17)
             as [D k] eqn:H.
           destruct ((Z.of_nat (length (Dec.of_N (Z.to_N D))) + k <=? -4)
                     || (16 <? Z.of_nat (length (Dec.of_N (Z.to_N D))) + k))
             eqn:F.
           ++ apply exponent_stage.
              apply (@render_exponent s mf ef D k ltac:(lia) H F).
           ++ apply reformat_stage. unfold reformat.
              rewrite (@render_fixed s mf ef D k Cf H F), If.
              assert (D5P : 0 < D5).
              { destruct (Z.eq_dec D5 0) as [Z0|Z0]; [|lia].
                rewrite Z0 in R. cbn in R. inversion R. lia. }
              now rewrite (@round5_fixed s D5 mf ef D5P R If).
Qed.

End RenderFacts.

(* ================================================================== *)
(** * Normalizing twice *)
(* ================================================================== *)

Section Twice.
Context {case : CaseMapping}.

(** The numeric stage prints a number, or leaves the text as it is. *)
Lemma numeric_stage_cases a :
  numeric_stage a = a
  \/ exists y, reformat a = Some y /\ numeric_stage a = y.
Proof.
  unfold numeric_stage. destruct (match_ numeric_pattern a); [|now left].
  destruct (reformat a) as [y|]; [right; now exists y|now left].
Qed.

(** A second normalization changes nothing when the normalized text
    holds none of the characters of step 1 and is not [-0]. *)
Lemma normalize_again x :
  forallb (fun c => negb (strip_class c)) (_normalize_answer x) = true ->
  _normalize_answer x <> u "-0" ->
  _normalize_answer (_normalize_answer x) = _normalize_answer x.
Proof.
  intros H1 H2.
  destruct x as [|c0 x]; [reflexivity|].
  assert (U : _normalize_answer (c0 :: x) = numeric_stage (clean (c0 :: x)))
    by (apply normalize_unfold; discriminate).
  rewrite U in *. clear U.
  remember (clean (c0 :: x)) as a eqn:Ea.
  destruct (numeric_stage_cases a) as [S|[y [R S]]].
  - (* the stage has left the cleaned text as it was *)
    rewrite S in *.
    assert (C : clean a = a) by (rewrite Ea; apply clean_clean; now rewrite <- Ea).
    destruct a as [|c a]; [reflexivity|].
    rewrite normalize_unfold by discriminate. now rewrite C.
  - (* the stage has printed a number *)
    rewrite S in *.
    destruct y as [|c y]; [reflexivity|].
    rewrite normalize_unfold by discriminate.
    rewrite clean_plain by (eapply reformat_plain; exact R).
    now apply (@RenderFacts.reformat_stable a (c :: y) R).
Qed.

(** The normalized text is in lower case, and step 4 has nothing left to
    replace in it. *)
Lemma normalize_settled x :
  lower (_normalize_answer x) = _normalize_answer x
  /\ Forall (fun c => sym c = c) (_normalize_answer x).
Proof.
  destruct x as [|c0 x]; [split; [now apply lower_uncased_str|constructor]|].
  rewrite normalize_unfold by discriminate.
  destruct (numeric_stage_cases (clean (c0 :: x))) as [S|[y [R S]]]; rewrite S.
  - split; [apply clean_lower|].
    rewrite clean_form. apply Forall_forall. intros c I.
    apply in_map_iff in I as [d [<- _]]. apply sym_sym.
  - apply reformat_plain in R. split.
    + apply lower_uncased_str. revert R. apply forallb_weaken.
      intros c H. now destruct (plain_facts _ H).
    + apply Forall_forall. intros c I. apply (in_forallb _ _ _ R) in I.
      now destruct (plain_facts _ I) as [_ [_ [-> _]]].
Qed.

(** Normalizing such a text leaves none of the characters of step 1. *)
Lemma normalize_no_brackets y :
  lower y = y -> Forall (fun c => sym c = c) y ->
  forallb (fun c => negb (strip_class c)) (_normalize_answer y) = true.
Proof.
  intros L F. destruct y as [|c0 y]; [reflexivity|].
  rewrite normalize_unfold by discriminate.
  set (t := c0 :: y) in *.
  destruct (numeric_stage_cases (clean t)) as [S|[z [R S]]]; rewrite S.
  - rewrite clean_form.
    assert (LF : lower (filter (fun c => negb (strip_class c)) t)
                 = filter (fun c => negb (strip_class c)) t).
    { apply lower_fixed. apply lower_fixed in L.
      rewrite Forall_forall in *. intros c I.
      apply filter_In in I as [I _]. now apply L. }
    rewrite LF. apply forallb_forall. intros c I.
    apply in_map_iff in I as [d [<- I]].
    apply strip_incl, collapse_incl in I. destruct I as [->|I]; [reflexivity|].
    apply filter_In in I as [I N]. rewrite Forall_forall in F.
    now rewrite (F d I).
  - apply reformat_plain in R. revert R. apply forallb_weaken.
    intros c H. now destruct (plain_facts _ H) as [_ [_ [_ ->]]].
Qed.

(** C6, amended.  A second normalization changes nothing exactly when
    the normalized text holds none of the brackets and quotes that
    step 1 removes and is not [-0], the form in which the numeric stage
    prints a negative number that rounds to zero.  So normalization is
    idempotent on every numeral that the stage prints again ([3.0],
    [3.14159265], [+5], [007], [0.50], [2.999999], [0.00001]) and on
    every text without brackets and quotes; it is not on [（a）] and on
    [-0.000001]. *)
Theorem normalize_idempotent_iff x :
  _normalize_answer (_normalize_answer x) = _normalize_answer x
  <-> forallb (fun c => negb (strip_class c)) (_normalize_answer x) = true
      /\ _normalize_answer x <> u "-0".
Proof.
  split.
  - intros H. split.
    + rewrite <- H. destruct (normalize_settled x) as [L F].
      now apply normalize_no_brackets.
    + intros E. rewrite E in H.
      rewrite normalize_uncased in H by (vm_compute; reflexivity).
      vm_compute in H. discriminate.
  - intros [H1 H2]. now apply normalize_again.
Qed.

End Twice.

(* ================================================================== *)
(** * Worked examples *)
(* ================================================================== *)

Lemma compute_report_invariants_example :
  length [u "The answer is 42."] = length [u "42"]
  /\ exists rep,
       @compute ascii_case [u "The answer is 42."] [u "42"] default_options
         = Ok rep
       /\ total rep = 1
       /\ correct rep = count_correct (details rep).
Proof.
  split; [reflexivity|].
  destruct (@compute_report_invariants ascii_case
              [u "The answer is 42."] [u "42"] default_options eq_refl)
    as [H1 H2].
  assert (P : Forall (fun p => ~ pattern_raises p (answer_pattern default_options))
                [u "The answer is 42."]).
  { constructor; [|constructor].
    intros [_ [H|[f [m [r [H _]]]]]]; discriminate. }
  destruct (H2 P) as [rep E]. exists rep. split; [exact E|].
  destruct (H1 rep E) as [T [C _]]. split; [exact T | exact C].
Defined.

Lemma compute_length_mismatch_example :
  length [u "4"; u "5"] <> length [u "4"]
  /\ @compute ascii_case [u "4"; u "5"] [u "4"] default_options
       = Raise ValueError.
Proof.
  assert (H : length [u "4"; u "5"] <> length [u "4"]) by discriminate.
  split; [exact H | exact (@compute_length_mismatch ascii_case _ _ _ H)].
Defined.

Lemma extract_answer_total_example :
  u "x = 1" <> []
  /\ _extract_answer (u "x = 1") (Some Uncompilable) = Raise ReError
  /\ exists s, _extract_answer (u "x = 1") None = Ok s.
Proof.
  destruct (@extract_answer_total ascii_case) as [A [_ [C _]]].
  assert (H : u "x = 1" <> []) by (vm_compute; discriminate).
  split; [exact H|]. split; [exact (C _ H) | exact (A _)].
Defined.

Lemma numeric_tolerance_path_example :
  u "1" <> u "1.000001"
  /\ judge (u "1") (u "1.000001") = true.
Proof.
  destruct (@numeric_tolerance_path ascii_case) as [A _].
  assert (H : u "1" <> u "1.000001") by (vm_compute; discriminate).
  split; [exact H|].
  rewrite (A (u "1") (u "1.000001") (Float.of_decimal false 1 0)
             (Float.of_decimal false 1000001 (-6)) H)
    by (vm_compute; reflexivity).
  vm_compute. reflexivity.
Defined.

Lemma normalize_numeric_reformat_example :
  u "(3.0)" <> []
  /\ @_normalize_answer ascii_case (u "(3.0)") = u "3".
Proof.
  destruct (@normalize_numeric_reformat ascii_case) as [_ [_ G]].
  assert (H : u "(3.0)" <> []) by (vm_compute; discriminate).
  split; [exact H|].
  destruct (G (u "(3.0)") (Float.of_decimal false 30 (-1)) H) as [E _].
  - vm_compute. reflexivity.
  - vm_compute. reflexivity.
  - rewrite E. vm_compute. reflexivity.
Defined.



Lemma normalize_idempotent_iff_example :
  (forallb (fun c => negb (strip_class c))
     (@_normalize_answer ascii_case (u "3.14159265")) = true
   /\ @_normalize_answer ascii_case (u "3.14159265") <> u "-0")
  /\ @_normalize_answer ascii_case (@_normalize_answer ascii_case (u "3.14159265"))
     = @_normalize_answer ascii_case (u "3.14159265")
  /\ @_normalize_answer ascii_case (u "3.14159265") = u "3.14159"
  /\ @_normalize_answer ascii_case (@_normalize_answer ascii_case (u "2.999999"))
     = @_normalize_answer ascii_case (u "2.999999")
  /\ @_normalize_answer ascii_case (u "2.999999") = u "3"
  /\ @_normalize_answer ascii_case (@_normalize_answer ascii_case (u "0.00001"))
     = @_normalize_answer ascii_case (u "0.00001")
  /\ @_normalize_answer ascii_case (u "0.00001") = u "1e-05"
  /\ @_normalize_answer ascii_case (@_normalize_answer ascii_case (u "007"))
     = @_normalize_answer ascii_case (u "007")
  /\ @_normalize_answer ascii_case (u "007") = u "7"
  /\ @_normalize_answer ascii_case (@_normalize_answer ascii_case (u "-0.000001"))
     <> @_normalize_answer ascii_case (u "-0.000001")
  /\ @_normalize_answer ascii_case (@_normalize_answer ascii_case (u "（a）"))
     <> @_normalize_answer ascii_case (u "（a）").
Proof.
  assert (H : forallb (fun c => negb (strip_class c))
                (@_normalize_answer ascii_case (u "3.14159265")) = true
              /\ @_normalize_answer ascii_case (u "3.14159265") <> u "-0")
    by (split; [vm_compute; reflexivity|vm_compute; discriminate]).
  split; [exact H|].
  split; [exact (proj2 (@normalize_idempotent_iff ascii_case (u "3.14159265")) H)|].
  split; [vm_compute; reflexivity|].
  split.
  { apply (proj2 (@normalize_idempotent_iff ascii_case (u "2.999999"))).
    split; [vm_compute; reflexivity|vm_compute; discriminate]. }
  split; [vm_compute; reflexivity|].
  split.
  { apply (proj2 (@normalize_idempotent_iff ascii_case (u "0.00001"))).
    split; [vm_compute; reflexivity|vm_compute; discriminate]. }
  split; [vm_compute; reflexivity|].
  split.
  { apply (proj2 (@normalize_idempotent_iff ascii_case (u "007"))).
    split; [vm_compute; reflexivity|vm_compute; discriminate]. }
  split; [vm_compute; reflexivity|].
  split.
  - intros E.
    apply (proj1 (@normalize_idempotent_iff ascii_case (u "-0.000001"))) in E.
    destruct E as [_ E]. apply E. vm_compute. reflexivity.
  - intros E.
    apply (proj1 (@normalize_idempotent_iff ascii_case (u "（a）"))) in E.
    destruct E as [E _]. vm_compute in E. discriminate.
Defined.
